(** * Triton-nanoGPT: the kernel layer of [triton_train_nanoGPT.py]

    A shallow embedding of the three Triton kernels ([softmax_kernel],
    [layer_norm_kernel], [gelu_kernel]) and of their host wrappers
    ([TritonSoftmax.forward], [TritonLayerNorm.forward],
    [TritonGELU.forward]), followed by the properties the specification
    states about them.

    Numbers.  A tensor element is a value of [fp]: a real number, or one
    of the IEEE special values NaN, -inf, +inf.  Finite arithmetic is
    exact (no rounding, no overflow, one zero); the special values follow
    IEEE 754.  Every "within tolerance" statement below is therefore a
    statement about the exact value the code's formula denotes.

    Memory.  A buffer is a function from element offsets to [fp]; a
    pointer argument of a kernel is the buffer it points into, and the
    lane pointers [ptr + offsets] are the offsets themselves.  Host
    tensors are contiguous and row-major.

    The rest of the script.  The later sections cover the vocabulary
    ([chars], [stoi], [itos], [encode], [decode]), [get_batch], the
    causal mask of [MultiHeadAttention.forward], the sampling loop and
    the validation bookkeeping of [train].  Characters are their code
    points; a random draw is an argument of the function that uses
    it. *)

From Stdlib Require Import String.
From Stdlib Require Import Reals Lra Lia List Bool Arith ZArith Sorted.
From Stdlib Require Import DecimalString.
Import ListNotations.

Set Implicit Arguments.

(* ================================================================== *)
(** * Floating-point values *)
(* ================================================================== *)

Inductive fp : Type :=
| NaN
| NInf
| PInf
| Fin (r : R).

Module Fp.
Local Open Scope R_scope.

Definition is_finite (x : fp) : Prop :=
  match x with Fin _ => True | _ => False end.

Definition neg (x : fp) : fp :=
  match x with
  | NaN => NaN
  | NInf => PInf
  | PInf => NInf
  | Fin r => Fin (- r)
  end.

Definition add (x y : fp) : fp :=
  match x, y with
  | NaN, _ | _, NaN => NaN
  | PInf, NInf | NInf, PInf => NaN
  | PInf, _ | _, PInf => PInf
  | NInf, _ | _, NInf => NInf
  | Fin a, Fin b => Fin (a + b)
  end.

Definition sub (x y : fp) : fp := add x (neg y).

(** The sign-directed infinity of a product or quotient whose finite
    factor is [r]; a zero factor gives NaN. *)
Definition signed_inf (positive : bool) (r : R) : fp :=
  if Rlt_dec 0 r then (if positive then PInf else NInf)
  else if Rlt_dec r 0 then (if positive then NInf else PInf)
  else NaN.

Definition mul (x y : fp) : fp :=
  match x, y with
  | NaN, _ | _, NaN => NaN
  | PInf, PInf | NInf, NInf => PInf
  | PInf, NInf | NInf, PInf => NInf
  | PInf, Fin r | Fin r, PInf => signed_inf true r
  | NInf, Fin r | Fin r, NInf => signed_inf false r
  | Fin a, Fin b => Fin (a * b)
  end.

Definition div (x y : fp) : fp :=
  match x, y with
  | NaN, _ | _, NaN => NaN
  | (PInf | NInf), (PInf | NInf) => NaN
  | Fin _, (PInf | NInf) => Fin 0
  | PInf, Fin b => if Rlt_dec b 0 then NInf else PInf
  | NInf, Fin b => if Rlt_dec b 0 then PInf else NInf
  | Fin a, Fin b =>
      if Req_dec_T b 0 then signed_inf true a else Fin (a / b)
  end.

Definition exp (x : fp) : fp :=
  match x with
  | NaN => NaN
  | NInf => Fin 0
  | PInf => PInf
  | Fin r => Fin (Rtrigo_def.exp r)
  end.

Definition sqrt (x : fp) : fp :=
  match x with
  | NaN | NInf => NaN
  | PInf => PInf
  | Fin r => if Rlt_dec r 0 then NaN else Fin (R_sqrt.sqrt r)
  end.

Definition abs (x : fp) : fp :=
  match x with
  | NaN => NaN
  | NInf | PInf => PInf
  | Fin r => Fin (Rabs r)
  end.

(** [tl.max] / [tl.maximum] with the default NaN policy: the operand
    that is a number wins over NaN. *)
Definition max (x y : fp) : fp :=
  match x, y with
  | NaN, v | v, NaN => v
  | PInf, _ | _, PInf => PInf
  | NInf, v | v, NInf => v
  | Fin a, Fin b => Fin (Rmax a b)
  end.

(** [torch.clamp(x, lo, hi)] = [min(max(x, lo), hi)] on numbers; NaN
    stays NaN. *)
Definition clamp (lo hi : R) (x : fp) : fp :=
  match x with
  | NaN => NaN
  | NInf => Fin (Rmin lo hi)
  | PInf => Fin hi
  | Fin r => Fin (Rmin (Rmax r lo) hi)
  end.

(** Conversion of an integer scalar argument to floating point. *)
Definition of_nat (n : nat) : fp := Fin (INR n).
End Fp.

(* ================================================================== *)
(** * Buffers and the block-level operations of [triton.language] *)
(* ================================================================== *)

Definition buf : Type := nat -> fp.

Definition upd (p : buf) (a : nat) (v : fp) : buf :=
  fun i => if Nat.eqb i a then v else p i.

Module tl.
(** [tl.arange(0, n)]: the lane indices of one program instance. *)
Definition arange (n : nat) : list nat := seq 0 n.

(** [tl.load(ptrs, mask=mask, other=other)]. *)
Definition load (p : buf) (ptrs : list nat) (mask : list bool)
    (other : fp) : list fp :=
  map (fun am : nat * bool => if snd am then p (fst am) else other)
      (combine ptrs mask).

(** [tl.load(ptrs, mask=mask)] without [other]: what a masked-off
    lane holds is unspecified; [undef] supplies it lane by lane. *)
Definition load_nofill (undef : nat -> fp) (p : buf) (ptrs : list nat)
    (mask : list bool) : list fp :=
  map (fun lam : nat * (nat * bool) =>
         if snd (snd lam) then p (fst (snd lam)) else undef (fst lam))
      (combine (seq 0 (length ptrs)) (combine ptrs mask)).

(** [tl.store(ptrs, vals, mask=mask)]: one write per enabled lane. *)
Definition store (p : buf) (ptrs : list nat) (vals : list fp)
    (mask : list bool) : buf :=
  fold_left
    (fun (q : buf) (avm : nat * fp * bool) =>
       if snd avm then upd q (fst (fst avm)) (snd (fst avm)) else q)
    (combine (combine ptrs vals) mask) p.

(** [tl.sum(v, axis=0)] and [tl.max(v, axis=0)], accumulated from
    lane 0 upwards; in exact arithmetic the order of a reduction does
    not change its value. *)
Definition sum (v : list fp) : fp := fold_left Fp.add v (Fin 0).
Definition max (v : list fp) : fp := fold_left Fp.max v NInf.

(** Elementwise product of two blocks. *)
Fixpoint mul (u v : list fp) : list fp :=
  match u, v with
  | a :: u', b :: v' => Fp.mul a b :: mul u' v'
  | _, _ => []
  end.

Fixpoint add (u v : list fp) : list fp :=
  match u, v with
  | a :: u', b :: v' => Fp.add a b :: add u' v'
  | _, _ => []
  end.
End tl.

(** The program instances listed in [order], run one after the other,
    each transforming the output buffer. *)
Definition run (order : list nat) (kernel : nat -> buf -> buf)
    (out : buf) : buf :=
  fold_left (fun o pid => kernel pid o) order out.

(** A launch [kernel[grid](...)]: the program instances [0 .. grid-1].
    They are run in index order here; section "Launch order" shows
    that for these kernels any other order gives the same buffer. *)
Definition launch (grid : nat) (kernel : nat -> buf -> buf) (out : buf)
    : buf :=
  run (seq 0 grid) kernel out.

(* ================================================================== *)
(** * The kernels *)
(* ================================================================== *)

Section Kernels.
Local Open Scope R_scope.

(** [softmax_kernel], lines 83-89: the block [softmax_output] that
    program instance [pid] holds just before its store. *)
Definition softmax_block (input_ptr : buf)
    (input_row_stride n_cols BLOCK_SIZE : nat) (pid : nat) : list fp :=
  let row_idx := pid in
  let col_offsets := tl.arange BLOCK_SIZE in
  let mask := map (fun c => Nat.ltb c n_cols) col_offsets in
  let input_row_ptr :=
    map (fun c => (row_idx * input_row_stride + c)%nat) col_offsets in
  let logits := tl.load input_ptr input_row_ptr mask NInf in
  let max_logits := tl.max logits in
  let logits := map (fun x => Fp.sub x max_logits) logits in
  let exp_logits := map Fp.exp logits in
  let sum_exp_logits := Fp.add (tl.sum exp_logits) (Fin 1e-6) in
  map (fun e => Fp.div e sum_exp_logits) exp_logits.

(** [softmax_kernel], program instance [pid], acting on the buffer
    behind [output_ptr]. *)
Definition softmax_kernel (input_ptr : buf)
    (input_row_stride output_row_stride n_cols BLOCK_SIZE : nat)
    (pid : nat) (output_ptr : buf) : buf :=
  let row_idx := pid in
  let col_offsets := tl.arange BLOCK_SIZE in
  let mask := map (fun c => Nat.ltb c n_cols) col_offsets in
  let output_row_ptr :=
    map (fun c => (row_idx * output_row_stride + c)%nat) col_offsets in
  let softmax_output :=
    softmax_block input_ptr input_row_stride n_cols BLOCK_SIZE pid in
  tl.store output_ptr output_row_ptr softmax_output mask.

(** [layer_norm_kernel], lines 103-113: the block [y] that program
    instance [pid] holds just before its store. *)
Definition layer_norm_block (x_ptr weight_ptr bias_ptr : buf)
    (N : nat) (eps : fp) (BLOCK_SIZE : nat) (pid : nat) : list fp :=
  let row_idx := pid in
  let cols := tl.arange BLOCK_SIZE in
  let mask := map (fun c => Nat.ltb c N) cols in
  let x_offset := map (fun c => (row_idx * N + c)%nat) cols in
  let x := tl.load x_ptr x_offset mask (Fin 0.0) in
  let mean := Fp.div (tl.sum x) (Fp.of_nat N) in
  let x_centered := map (fun v => Fp.sub v mean) x in
  let var :=
    Fp.div (tl.sum (tl.mul x_centered x_centered)) (Fp.of_nat N) in
  let rstd := Fp.div (Fin 1.0) (Fp.sqrt (Fp.add var eps)) in
  let w := tl.load weight_ptr cols mask (Fin 1.0) in
  let b := tl.load bias_ptr cols mask (Fin 0.0) in
  tl.add (tl.mul (map (fun v => Fp.mul v rstd) x_centered) w) b.

(** [layer_norm_kernel], program instance [pid], acting on the buffer
    behind [y_ptr]. *)
Definition layer_norm_kernel (x_ptr weight_ptr bias_ptr : buf)
    (N : nat) (eps : fp) (BLOCK_SIZE : nat)
    (pid : nat) (y_ptr : buf) : buf :=
  let row_idx := pid in
  let cols := tl.arange BLOCK_SIZE in
  let mask := map (fun c => Nat.ltb c N) cols in
  let y := layer_norm_block x_ptr weight_ptr bias_ptr N eps
             BLOCK_SIZE pid in
  tl.store y_ptr (map (fun c => (row_idx * N + c)%nat) cols) y mask.

(** [gelu_kernel]: the scalar formula applied on every lane.  On
    numbers the arithmetic is exact; in float32 the product [x * coeff]
    exceeds the largest float for [|x|] above about 2e13, turns
    infinite, and the lane ends as NaN, as it does here at an infinite
    [x].  The statements about the range of the result are made for
    [|x| <= 1e13]; the others are about the exact value of the
    formula. *)
Definition sqrt_2_over_pi : R := 0.7978845608028654.

Definition gelu_lane (x : fp) : fp :=
  let coeff :=
    Fp.mul (Fin sqrt_2_over_pi)
           (Fp.add (Fin 1) (Fp.mul (Fp.mul (Fin 0.044715) x) x)) in
  Fp.mul (Fp.mul (Fin 0.5) x)
         (Fp.add (Fin 1)
            (Fp.div (Fp.mul x coeff)
                    (Fp.add (Fin 1) (Fp.abs (Fp.mul x coeff))))).

Definition gelu_kernel (undef : nat -> fp) (x_ptr : buf)
    (n_elements BLOCK_SIZE : nat) (pid : nat) (y_ptr : buf) : buf :=
  let offsets :=
    map (fun c => (pid * BLOCK_SIZE + c)%nat) (tl.arange BLOCK_SIZE) in
  let mask := map (fun o => Nat.ltb o n_elements) offsets in
  let x := tl.load_nofill undef x_ptr offsets mask in
  let y := map gelu_lane x in
  tl.store y_ptr offsets y mask.
End Kernels.

(* ================================================================== *)
(** * Host side: tensors, Triton's host helpers, the wrappers *)
(* ================================================================== *)

(** A contiguous row-major tensor: its shape and its storage.  Every
    tensor the script passes to the three wrappers is of this kind (the
    output of a matrix product, of [nn.Linear] or of an addition).  A
    tensor with other strides is not a value of this type: the softmax
    wrapper passes only [x.stride(0)] to its kernel, which steps through
    a row at unit stride, so nothing below speaks about such inputs. *)
Record tensor : Type := Tensor { shape : list nat; data : buf }.

Definition numel (s : list nat) : nat := fold_right Nat.mul 1 s.

(** What a failing call raises. *)
Inductive error : Type :=
| AssertionError (msg : string)
| ValueError
| IndexError
| RuntimeError
| CompilationError.   (* raised by Triton while it compiles a kernel *)

Inductive result (A : Type) : Type :=
| Ok (a : A)
| Raise (e : error).
Arguments Ok {A} a.
Arguments Raise {A} e.

(** [triton.cdiv(x, y)] = [(x + y - 1) // y]. *)
Definition cdiv (x y : nat) : nat := (x + y - 1) / y.

(** [triton.next_power_of_2(n)], on Python integers: Triton's own
    definition, which smears the leading bit of [n - 1] downwards. *)
Definition next_power_of_2 (n : Z) : Z :=
  let n := (n - 1)%Z in
  let n := Z.lor n (Z.shiftr n 1) in
  let n := Z.lor n (Z.shiftr n 2) in
  let n := Z.lor n (Z.shiftr n 4) in
  let n := Z.lor n (Z.shiftr n 8) in
  let n := Z.lor n (Z.shiftr n 16) in
  let n := Z.lor n (Z.shiftr n 32) in
  (n + 1)%Z.

(** [s[-k:]] on a Python sequence ([-0] is [0]: the whole sequence). *)
Definition last_dims (k : nat) (s : list nat) : list nat :=
  if Nat.eqb k 0 then s else skipn (length s - k) s.

(** [s[-1]]. *)
Definition last_dim (s : list nat) : option nat :=
  match rev s with
  | [] => None
  | n :: _ => Some n
  end.

Definition shape_eqb (s t : list nat) : bool :=
  if list_eq_dec Nat.eq_dec s t then true else false.

(** Row stride of a contiguous [[B, N]] tensor. *)
Definition stride0 (N : nat) : nat := Nat.max N 1.

(** [t.sum(dim=-1, keepdim=True)] at row [r] of a [[B, N]] tensor. *)
Definition row_sum (N : nat) (y : buf) (r : nat) : fp :=
  fold_left Fp.add (map (fun j => y (r * N + j)) (seq 0 N)) (Fin 0).

Module TritonLayerNorm.
Record t : Type := Make {
  normalized_shape : list nat;
  weight : buf;
  bias : buf;
  eps : fp
}.

(** The block size [forward] launches with. *)
Definition BLOCK_SIZE : nat := 128.

(** [forward(self, x)]; [junk] is the content of the storage that
    [torch.empty_like(x)] hands out. *)
Definition forward (self : t) (junk : buf) (x : tensor)
    : result tensor :=
  if negb (shape_eqb
             (last_dims (length (normalized_shape self)) (shape x))
             (normalized_shape self))
  then Raise (AssertionError
                "Input shape does not match normalized_shape.")
  else
    let y := junk in
    match last_dim (normalized_shape self) with
    | None => Raise IndexError
    | Some N =>
        (* reshape(-1, N): torch cannot infer -1 when N = 0 *)
        if Nat.eqb N 0 then Raise RuntimeError
        else
          let M := numel (shape x) / N in
          let grid := cdiv M BLOCK_SIZE in
          let y :=
            launch grid
              (layer_norm_kernel (data x) (weight self) (bias self)
                 N (eps self) BLOCK_SIZE) y in
          Ok (Tensor (shape x) y)
    end.
End TritonLayerNorm.

Module TritonSoftmax.
Local Open Scope R_scope.

(** The launch configuration [forward] derives from a [[B, N]] view. *)
Definition grid (B : nat) : nat := B.
Definition BLOCK_SIZE (N : nat) : nat :=
  Z.to_nat (next_power_of_2 (Z.of_nat N)).

(** Lines 168-178 on the two-dimensional view. *)
Definition forward2d (junk : buf) (B N : nat) (x : buf) : buf :=
  let x := fun i => Fp.clamp (-100) 100 (x i) in
  let y := junk in
  let y :=
    launch (grid B)
      (softmax_kernel x (stride0 N) (stride0 N) N (BLOCK_SIZE N)) y in
  let y := fun i => Fp.add (y i) (Fin 1e-8) in
  let s := row_sum N y in
  fun i => Fp.div (y i) (s (i / N)%nat).

Definition forward (junk : buf) (x : tensor) : result tensor :=
  let original_shape := shape x in
  match original_shape with
  | [B; N] =>
      (* BLOCK_SIZE = next_power_of_2(0) = 0: compiling the kernel
         fails at tl.arange(0, 0), whatever the grid *)
      if Nat.eqb N 0 then Raise CompilationError
      else Ok (Tensor original_shape (forward2d junk B N (data x)))
  | _ :: _ :: _ :: _ =>
      match last_dim original_shape with
      | Some N =>
          (* view(-1, N): torch cannot infer -1 when N = 0 *)
          if Nat.eqb N 0 then Raise RuntimeError
          else
            let B := (numel original_shape / N)%nat in
            Ok (Tensor original_shape (forward2d junk B N (data x)))
      | None => Raise IndexError
      end
  | _ => Raise ValueError    (* B, N = x.shape *)
  end.
End TritonSoftmax.

Module TritonGELU.
Definition forward (undef : nat -> nat -> fp) (junk : buf) (x : tensor)
    : tensor :=
  let n_elements := numel (shape x) in
  let y := junk in
  let BLOCK_SIZE := 1024 in
  let grid := cdiv n_elements BLOCK_SIZE in
  let y :=
    launch grid
      (fun pid => gelu_kernel (undef pid) (data x) n_elements
                    BLOCK_SIZE pid) y in
  Tensor (shape x) y.
End TritonGELU.

(* ================================================================== *)
(** * Reference formulas and the inputs of the worked scenarios *)
(* ================================================================== *)

(** The [n] valid entries of the row that starts at offset [base]. *)
Definition row_of (p : buf) (base n : nat) : list fp :=
  map (fun c => p (base + c)) (seq 0 n).

(** Specification, section 4.2, steps 2-5, on the valid entries only:
    subtract the row maximum, exponentiate, divide by the sum of the
    exponentials plus 1e-6. *)
Definition softmax_row_spec (row : list fp) : list fp :=
  let row_max := tl.max row in
  let e := map (fun x => Fp.exp (Fp.sub x row_max)) row in
  let guarded_sum := Fp.add (tl.sum e) (Fin 1e-6%R) in
  map (fun ej => Fp.div ej guarded_sum) e.

Section Formulas.
Local Open Scope R_scope.

Definition Rsum (l : list R) : R := fold_left Rplus l 0.

(** Maximum of a non-empty row. *)
Definition Rmaxl (l : list R) : R :=
  match l with
  | [] => 0
  | x :: l' => fold_left Rmax l' x
  end.

(** Specification 4.2 over the reals:
    [exp(x_j - max) / (sum_k exp(x_k - max) + 1e-6)]. *)
Definition softmax_R (xs : list R) : list R :=
  let m := Rmaxl xs in
  let e := map (fun x => exp (x - m)) xs in
  map (fun ej => ej / (Rsum e + 1e-6)) e.

(** The wrapper's post-processing: add 1e-8, divide by the row sum. *)
Definition renorm_R (ks : list R) : list R :=
  let y := map (fun k => k + 1e-8) ks in
  map (fun v => v / Rsum y) y.

(** [clamp(-100, 100)] of an element that is not NaN. *)
Definition clamp_R (x : fp) : R :=
  match x with
  | NaN => 0
  | NInf => -100
  | PInf => 100
  | Fin r => Rmin (Rmax r (-100)) 100
  end.

(** [layer_norm_kernel]: the loaded block and the scalars [mean] and
    [rstd] of program [pid]. *)
Definition ln_x (x_ptr : buf) (N BLOCK_SIZE pid : nat) : list fp :=
  let cols := tl.arange BLOCK_SIZE in
  tl.load x_ptr (map (fun c => (pid * N + c)%nat) cols)
          (map (fun c => Nat.ltb c N) cols) (Fin 0.0).

Definition ln_mean (x_ptr : buf) (N BLOCK_SIZE pid : nat) : fp :=
  Fp.div (tl.sum (ln_x x_ptr N BLOCK_SIZE pid)) (Fp.of_nat N).

Definition ln_rstd (x_ptr : buf) (N : nat) (eps : fp)
    (BLOCK_SIZE pid : nat) : fp :=
  let x_centered :=
    map (fun v => Fp.sub v (ln_mean x_ptr N BLOCK_SIZE pid))
        (ln_x x_ptr N BLOCK_SIZE pid) in
  let var :=
    Fp.div (tl.sum (tl.mul x_centered x_centered)) (Fp.of_nat N) in
  Fp.div (Fin 1.0) (Fp.sqrt (Fp.add var eps)).

(** Mean of a row of numbers. *)
Definition ln_mean_R (xs : list R) : R := Rsum xs / INR (length xs).

(** The variance the kernel forms on a row of numbers [xs] with a
    block of [B] lanes: the [B - N] masked lanes, loaded as 0 and
    then centred, each add [mean^2] to the sum of squares. *)
Definition ln_var_kernel_R (B : nat) (xs : list R) : R :=
  let mu := ln_mean_R xs in
  (Rsum (map (fun v => (v - mu) * (v - mu)) xs)
   + INR (B - length xs) * ((0 - mu) * (0 - mu)))
  / INR (length xs).

(** Specification 4.3, steps 2-6, over the reals: the variance of the
    row, and the normalised, scaled and shifted entry [j]. *)
Definition ln_var_R (xs : list R) : R :=
  let mu := ln_mean_R xs in
  Rsum (map (fun v => (v - mu) * (v - mu)) xs) / INR (length xs).

Definition layer_norm_R (eps : R) (xs ws bs : list R) (j : nat) : R :=
  (nth j xs 0 - ln_mean_R xs) * (1 / sqrt (ln_var_R xs + eps))
  * nth j ws 0 + nth j bs 0.

End Formulas.

(** [next_power_of_2] smears the leading bit downwards: bit [i] of [a]
    is set exactly when [m] has a set bit among the [w] positions from
    [i] upwards. *)
Definition smeared (m a w : Z) : Prop :=
  forall i : Z, (0 <= i)%Z ->
    (Z.testbit a i = true <->
     exists d : Z, (0 <= d < w)%Z /\ Z.testbit m (i + d) = true).

Definition shape_mismatch_msg : string :=
  "Input shape does not match normalized_shape.".

Definition zero_buf : buf := fun _ => Fin 0.

(** The input on which the layer-norm wrapper is evaluated below: two
    rows [[1, 3]], unit scale, zero bias, eps = 1e-5. *)
Definition ln_demo : TritonLayerNorm.t :=
  TritonLayerNorm.Make [2] (fun _ => Fin 1) (fun _ => Fin 0) (Fin 1e-5).

Definition ln_demo_x : tensor :=
  Tensor [2; 2] (fun i => nth i [Fin 1; Fin 3; Fin 1; Fin 3] (Fin 0)).

(** A layer of width 129, one more than the block size. *)
Definition ln_wide : TritonLayerNorm.t :=
  TritonLayerNorm.Make [129] (fun _ => Fin 1) (fun _ => Fin 0)
    (Fin 1e-5).

Definition ln_wide_x : tensor := Tensor [1; 129] zero_buf.

(** An attention row as [MultiHeadAttention.forward] passes it: one
    score, the rest filled with -inf. *)
Definition masked_scores : tensor :=
  Tensor [1; 3] (fun i => nth i [Fin 0.5; NInf; NInf] (Fin 0)).

(** The row of the worked example; lane 3 of the block is out of range. *)
Definition row123 : buf := fun i => nth i [Fin 1; Fin 2; Fin 3] NaN.

(** The degenerate row of the specification's scenario. *)
Definition degenerate_row : tensor :=
  Tensor [1; 3] (fun _ => Fin (-1000)).

(* ================================================================== *)
(** * Data preprocessing: vocabulary, [encode], [decode], batches *)
(* ================================================================== *)

(** A lookup in a Python dict: the value, or [KeyError(key)]. *)
Inductive keyed (A : Type) : Type :=
| Value (a : A)
| KeyError (key : nat).
Arguments Value {A} a.
Arguments KeyError {A} key.

Module Vocab.
(** A character is its code point; a text is the list of its
    characters. *)

(** A dict with integer keys (characters or indices). *)
Definition dict (V : Type) : Type := nat -> option V.

Definition empty {V : Type} : dict V := fun _ => None.

(** [d[k] = v]. *)
Definition set_item {V : Type} (d : dict V) (k : nat) (v : V) : dict V :=
  fun k' => if Nat.eqb k' k then Some v else d k'.

(** [d[k]]. *)
Definition get_item {V : Type} (d : dict V) (k : nat) : keyed V :=
  match d k with
  | Some v => Value v
  | None => KeyError k
  end.

(** [sorted(l)]. *)
Fixpoint insert_sorted (c : nat) (l : list nat) : list nat :=
  match l with
  | [] => [c]
  | d :: l' => if Nat.leb c d then c :: l else d :: insert_sorted c l'
  end.

Definition sorted (l : list nat) : list nat :=
  fold_right insert_sorted [] l.

(** [list(set(text))]: the distinct characters, in the order the set
    happens to yield them. *)
Definition list_set (text : list nat) : list nat :=
  nodup Nat.eq_dec text.

(** [chars = sorted(list(set(text)))], [vocab_size = len(chars)]. *)
Definition chars (text : list nat) : list nat := sorted (list_set text).

Definition vocab_size (text : list nat) : nat := length (chars text).

(** [enumerate(l)]. *)
Fixpoint enumerate_from {A : Type} (i : nat) (l : list A)
    : list (nat * A) :=
  match l with
  | [] => []
  | a :: l' => (i, a) :: enumerate_from (S i) l'
  end.

Definition enumerate {A : Type} (l : list A) : list (nat * A) :=
  enumerate_from 0 l.

(** [stoi = { ch:i for i,ch in enumerate(chars) }] and
    [itos = { i:ch for i,ch in enumerate(chars) }]. *)
Definition stoi (text : list nat) : dict nat :=
  fold_left (fun d ic => set_item d (snd ic) (fst ic))
            (enumerate (chars text)) empty.

Definition itos (text : list nat) : dict nat :=
  fold_left (fun d ic => set_item d (fst ic) (snd ic))
            (enumerate (chars text)) empty.

(** [[d[k] for k in keys]]: the first missing key raises. *)
Fixpoint lookup_all (d : dict nat) (keys : list nat) : keyed (list nat) :=
  match keys with
  | [] => Value []
  | k :: keys' =>
      match get_item d k with
      | KeyError k' => KeyError k'
      | Value v =>
          match lookup_all d keys' with
          | KeyError k' => KeyError k'
          | Value vs => Value (v :: vs)
          end
      end
  end.

(** [encode(s)] and [decode(indices)] over the vocabulary of [text]. *)
Definition encode (text s : list nat) : keyed (list nat) :=
  lookup_all (stoi text) s.

Definition decode (text indices : list nat) : keyed (list nat) :=
  lookup_all (itos text) indices.

(** [l[i:j]] for [0 <= i]. *)
Definition slice {A : Type} (l : list A) (i j : nat) : list A :=
  firstn (j - i) (skipn i l).

(** [torch.stack(rows)]: the rows must be non-empty in number and all
    of one length. *)
Definition stack (rows : list (list nat)) : option (list (list nat)) :=
  match rows with
  | [] => None
  | r :: rows' =>
      if forallb (fun r' => Nat.eqb (length r') (length r)) rows'
      then Some rows else None
  end.

(** [get_batch]: [ix] is what [torch.randint] drew. *)
Definition get_batch (data : list nat) (seq_length : nat)
    (ix : list nat) : option (list (list nat) * list (list nat)) :=
  match stack (map (fun i => slice data i (i + seq_length)) ix) with
  | None => None
  | Some x =>
      match stack (map (fun i => slice data (i + 1) (i + seq_length + 1))
                       ix) with
      | None => None
      | Some y => Some (x, y)
      end
  end.
End Vocab.

(* ================================================================== *)
(** * The rest of the script: attention mask, sampling, validation *)
(* ================================================================== *)

(** Host-side torch operations the script calls. *)
Module torch.
(** [torch.isnan], [torch.isinf] on one element. *)
Definition isnan (x : fp) : bool :=
  match x with NaN => true | _ => false end.

Definition isinf (x : fp) : bool :=
  match x with NInf | PInf => true | _ => false end.

(** The maximum [F.softmax] subtracts: NaN if either operand is. *)
Definition max2 (x y : fp) : fp :=
  match x, y with
  | NaN, _ | _, NaN => NaN
  | _, _ => Fp.max x y
  end.

(** [F.softmax(row, dim=-1)] on one row:
    [exp(x - max) / sum(exp(x - max))]. *)
Definition softmax (row : list fp) : list fp :=
  let m := fold_left max2 row NInf in
  let e := map (fun x => Fp.exp (Fp.sub x m)) row in
  let s := fold_left Fp.add e (Fin 0) in
  map (fun ej => Fp.div ej s) e.

(** Python's [<] on floats: false whenever an operand is NaN. *)
Definition lt (x y : fp) : bool :=
  match x, y with
  | NaN, _ | _, NaN => false
  | _, NInf => false
  | NInf, _ => true
  | PInf, _ => false
  | Fin _, PInf => true
  | Fin a, Fin b => if Rlt_dec a b then true else false
  end.
End torch.

(** The sampling loop, lines 421-425: the vector handed to
    [torch.multinomial], from the logits of the last position (one row
    of [vocab_size] entries). *)
Definition sampling_probs (next_token_logits : list fp) : list fp :=
  let next_token_logits :=
    map (Fp.clamp (-100) 100) next_token_logits in
  let probs :=
    map (fun p => Fp.add p (Fin 1e-8%R))
        (torch.softmax next_token_logits) in
  let total := fold_left Fp.add probs (Fin 0) in
  let probs := map (fun p => Fp.div p total) probs in
  if existsb torch.isnan probs || existsb torch.isinf probs
  then map (fun _ => Fp.div (Fin 1) (Fp.of_nat (length probs))) probs
  else probs.

(** [MultiHeadAttention.forward], line 217:
    [attn.masked_fill(~self.mask[:T, :T], float('-inf'))] on a
    [[B, H, T, T]] tensor with [T <= seq_length]; [mask] is the lower
    triangle, so key position [k] of query position [q] is filled
    when [k > q]. *)
Definition masked_fill_causal (T : nat) (attn : buf) : buf :=
  fun i =>
    let q := (i / T) mod T in
    let k := i mod T in
    if Nat.ltb q k then NInf else attn i.

(** Lines 217-218: the attention weights. *)
Definition attention_weights (junk : buf) (B H T : nat) (attn : buf)
    : result tensor :=
  let attn := masked_fill_causal T attn in
  TritonSoftmax.forward junk (Tensor [B; H; T; T] attn).

(** [train], lines 316 and 361-367: what the end of each epoch does
    with its validation loss.  The checkpoint file is overwritten by
    every save; [checkpoint] is the epoch whose state it holds. *)
Module Train.
Record state : Type := State {
  best_val_loss : fp;
  val_losses : list fp;
  checkpoint : option nat
}.

Definition init : state := State PInf [] None.

Definition end_of_epoch (st : state) (epoch_loss : nat * fp) : state :=
  let epoch := fst epoch_loss in
  let val_loss := snd epoch_loss in
  let val_losses := val_losses st ++ [val_loss] in
  if torch.lt val_loss (best_val_loss st)
  then State val_loss val_losses (Some epoch)
  else State (best_val_loss st) val_losses (checkpoint st).

Definition epochs (losses : list fp) : state :=
  fold_left end_of_epoch (Vocab.enumerate losses) init.
End Train.

(** What holds of the bookkeeping of [train] after every epoch, given
    the validation losses so far. *)
Definition bookkeeping (losses : list fp) (st : Train.state) : Prop :=
  Train.val_losses st = losses /\
  (forall v, In v losses -> torch.lt v (Train.best_val_loss st) = false) /\
  match Train.checkpoint st with
  | None =>
      Train.best_val_loss st = PInf /\
      forall v, In v losses -> v = NaN \/ v = PInf
  | Some e =>
      e < length losses /\
      nth e losses NaN = Train.best_val_loss st /\
      Train.best_val_loss st <> NaN /\ Train.best_val_loss st <> PInf /\
      forall i, i < e -> nth i losses NaN <> Train.best_val_loss st
  end.

(** [f"{n}"] on a non-negative integer. *)
Definition str (n : nat) : string :=
  NilZero.string_of_uint (Nat.to_uint n).

(** [NanoGPT.forward], line 278: the message of the assertion on the
    sequence length [T] of [idx]. *)
Definition seq_length_msg (T seq_length : nat) : string :=
  ("Input sequence length " ++ str T
   ++ " exceeds model's maximum sequence length " ++ str seq_length)%string.

(** The sampling loop of [__main__], lines 418-428, as far as
    [input_ids] and the failures of the model call go.  The model has
    at least one block (the script builds six). *)
Section SamplingLoop.
Variables vocab_size seq_length num_heads : nat.
(** Per iteration: the storage [torch.empty_like] hands to the softmax
    wrapper, the attention scores of the first block, and the token
    [torch.multinomial] draws (lines 420-427). *)
Variables junk scores : nat -> buf.
Variable next_token : nat -> list nat -> nat.

(** [NanoGPT.forward] on [idx] of shape [[1, T]] in iteration [i]:
    line 278, the assertion on [T]; line 280, the token embedding,
    which has no row for a token at or above [vocab_size] (on the GPU
    the failed bounds check surfaces as a [RuntimeError]); and, in the
    first block, lines 216-218, where scores of shape
    [[1, num_heads, T, T]] go through [TritonSoftmax.forward]. *)
Definition NanoGPT_forward_check (i : nat) (idx : list nat)
    : result unit :=
  let T := length idx in
  if negb (Nat.leb T seq_length)
  then Raise (AssertionError (seq_length_msg T seq_length))
  else if negb (forallb (fun t => Nat.ltb t vocab_size) idx)
  then Raise RuntimeError
  else
    match attention_weights (junk i) 1 num_heads T (scores i) with
    | Raise e => Raise e
    | Ok _ => Ok tt
    end.

(** Each iteration calls the model on all of [input_ids] and appends
    one token; nothing crops [input_ids]. *)
Fixpoint sampling_loop (i steps : nat) (input_ids : list nat)
    : result (list nat) :=
  match steps with
  | 0 => Ok input_ids
  | S steps' =>
      match NanoGPT_forward_check i input_ids with
      | Raise e => Raise e
      | Ok _ =>
          sampling_loop (S i) steps'
            (input_ids ++ [next_token i input_ids])
      end
  end.
End SamplingLoop.

Section MoreFormulas.
Local Open Scope R_scope.

(** [F.softmax] over the reals. *)
Definition softmax_exact_R (xs : list R) : list R :=
  let m := Rmaxl xs in
  let e := map (fun x => exp (x - m)) xs in
  map (fun ej => ej / Rsum e) e.

(** The lane formula of [gelu_kernel] over the reals. *)
Definition gelu_R (v : R) : R :=
  let coeff := sqrt_2_over_pi * (1 + 0.044715 * v * v) in
  0.5 * v * (1 + (v * coeff) / (1 + Rabs (v * coeff))).
End MoreFormulas.

(* ================================================================== *)
(** * Block operations in lane-function form *)
(* ================================================================== *)

Section LaneForm.
Variable A : Type.

Lemma load_lanes (p : buf) (f : A -> nat) (g : A -> bool) (o : fp)
    (l : list A) :
  tl.load p (map f l) (map g l) o
  = map (fun c => if g c then p (f c) else o) l.
Proof.
  unfold tl.load. induction l as [|c l IH]; simpl; [reflexivity|].
  now rewrite IH.
Qed.

Lemma mul_lanes (u v : A -> fp) (l : list A) :
  tl.mul (map u l) (map v l) = map (fun c => Fp.mul (u c) (v c)) l.
Proof. induction l as [|c l IH]; simpl; [reflexivity|]. now rewrite IH. Qed.

Lemma add_lanes (u v : A -> fp) (l : list A) :
  tl.add (map u l) (map v l) = map (fun c => Fp.add (u c) (v c)) l.
Proof. induction l as [|c l IH]; simpl; [reflexivity|]. now rewrite IH. Qed.

(** A store whose enabled lanes all point elsewhere leaves [a] alone. *)
Lemma store_miss (f : A -> nat) (g : A -> bool) (a : nat) :
  forall (l : list A) (vals : list fp) (p : buf),
    (forall c, In c l -> g c = true -> f c <> a) ->
    tl.store p (map f l) vals (map g l) a = p a.
Proof.
  unfold tl.store.
  induction l as [|c l IH]; intros vals p H; simpl; [reflexivity|].
  destruct vals as [|v vals]; simpl; [reflexivity|].
  rewrite IH by (intros c' Hin; apply H; now right).
  destruct (g c) eqn:Hg; [|reflexivity].
  unfold upd. destruct (Nat.eqb a (f c)) eqn:E; [|reflexivity].
  apply Nat.eqb_eq in E. exfalso. apply (H c); auto. now left.
Qed.
End LaneForm.

Lemma load_lanes_id (p : buf) (g : nat -> bool) (o : fp) (l : list nat) :
  tl.load p l (map g l) o = map (fun c => if g c then p c else o) l.
Proof.
  rewrite <- (map_id l) at 1. apply (load_lanes p (fun c => c)).
Qed.

(** An enabled lane of a row store holds the value stored there. *)
Lemma store_hit (base : nat) (g : nat -> bool) (d : fp) :
  forall (len s : nat) (vals : list fp) (p : buf) (c : nat),
    length vals = len -> s <= c < s + len -> g c = true ->
    tl.store p (map (fun c => base + c) (seq s len)) vals
             (map g (seq s len)) (base + c)
    = nth (c - s) vals d.
Proof.
  unfold tl.store.
  induction len as [|len IH]; intros s vals p c Hlen Hc Hg; [lia|].
  destruct vals as [|v vals]; [discriminate|]. simpl in Hlen.
  simpl seq. simpl map. simpl combine. simpl fold_left.
  destruct (Nat.eq_dec c s) as [->|Hne].
  - rewrite Hg.
    pose proof (@store_miss nat (fun c => base + c) g (base + s)
                  (seq (S s) len) vals (upd p (base + s) v)) as Hm.
    unfold tl.store in Hm. rewrite Hm.
    + unfold upd. rewrite Nat.eqb_refl. now rewrite Nat.sub_diag.
    + intros c' Hin _. apply in_seq in Hin. lia.
  - replace (c - s) with (S (c - S s)) by lia. simpl nth.
    apply IH; [lia | lia | assumption].
Qed.

(** The lanes of a block split into the valid prefix and the masked
    tail. *)
Lemma masked_lanes (F : nat -> fp) (o : fp) (n B : nat) :
  n <= B ->
  map (fun c => if Nat.ltb c n then F c else o) (seq 0 B)
  = map F (seq 0 n) ++ repeat o (B - n).
Proof.
  intros H. replace B with (n + (B - n)) at 1 by lia.
  rewrite seq_app, map_app. f_equal.
  - apply map_ext_in. intros c Hc. apply in_seq in Hc.
    destruct (Nat.ltb_spec c n); [reflexivity | lia].
  - simpl. generalize (B - n) as k. intros k.
    assert (Hgen : forall s, n <= s ->
              map (fun c => if Nat.ltb c n then F c else o) (seq s k)
              = repeat o k).
    { induction k as [|k IH]; intros s Hs; simpl; [reflexivity|].
      destruct (Nat.ltb_spec s n); [lia|]. f_equal. apply IH. lia. }
    apply Hgen. lia.
Qed.

(** ** Launches *)

Lemma launch_S (grid : nat) (kernel : nat -> buf -> buf) (out : buf) :
  launch (S grid) kernel out = kernel grid (launch grid kernel out).
Proof.
  unfold launch, run. rewrite seq_S, fold_left_app. reflexivity.
Qed.

(** An address no launched program writes keeps its content. *)
Lemma launch_frame (kernel : nat -> buf -> buf) (a : nat) :
  forall (grid : nat) (out : buf),
    (forall pid q, pid < grid -> kernel pid q a = q a) ->
    launch grid kernel out a = out a.
Proof.
  induction grid as [|grid IH]; intros out H; [reflexivity|].
  rewrite launch_S, H by lia. apply IH. intros; apply H; lia.
Qed.

(** An address written by program [r] and by no other holds what
    program [r] stores, whatever the buffer held. *)
Lemma launch_owner (kernel : nat -> buf -> buf) (a r : nat) (v : fp) :
  forall (grid : nat) (out : buf),
    r < grid ->
    (forall q, kernel r q a = v) ->
    (forall pid q, pid < grid -> pid <> r -> kernel pid q a = q a) ->
    launch grid kernel out a = v.
Proof.
  induction grid as [|grid IH]; intros out Hr Hown Hoth; [lia|].
  rewrite launch_S.
  destruct (Nat.eq_dec r grid) as [->|Hne].
  - apply Hown.
  - rewrite Hoth by lia. apply IH; [lia | assumption |].
    intros; apply Hoth; lia.
Qed.

(* ================================================================== *)
(** * Facts about the arithmetic *)
(* ================================================================== *)

Module FpFacts.
Local Open Scope R_scope.

Lemma add_zero_r (x : fp) : Fp.add x (Fin 0) = x.
Proof. destruct x; simpl; try reflexivity. f_equal. lra. Qed.

Lemma div_fin (a b : R) : b <> 0 -> Fp.div (Fin a) (Fin b) = Fin (a / b).
Proof.
  intros H. simpl. destruct (Req_dec_T b 0); [contradiction|reflexivity].
Qed.

Lemma sqrt_fin (a : R) : 0 <= a -> Fp.sqrt (Fin a) = Fin (sqrt a).
Proof. intros H. simpl. destruct (Rlt_dec a 0); [lra|reflexivity]. Qed.

Lemma max_ninf_r (x : fp) : x <> NaN -> Fp.max x NInf = x.
Proof. destruct x; simpl; congruence. Qed.

Lemma max_not_nan (x y : fp) : x <> NaN -> Fp.max x y <> NaN.
Proof. destruct x, y; simpl; congruence. Qed.

Lemma sum_zeros (k : nat) (acc : fp) :
  fold_left Fp.add (repeat (Fin 0) k) acc = acc.
Proof.
  revert acc. induction k as [|k IH]; intros acc; simpl; [reflexivity|].
  now rewrite add_zero_r.
Qed.

Lemma max_fold_not_nan (l : list fp) :
  forall acc, acc <> NaN -> fold_left Fp.max l acc <> NaN.
Proof.
  induction l as [|x l IH]; intros acc H; simpl; [assumption|].
  apply IH. now apply max_not_nan.
Qed.

Lemma max_ninfs (k : nat) (acc : fp) :
  acc <> NaN -> fold_left Fp.max (repeat NInf k) acc = acc.
Proof.
  revert acc. induction k as [|k IH]; intros acc H; simpl; [reflexivity|].
  rewrite max_ninf_r by assumption. now apply IH.
Qed.

(** A maximum of -inf means no entry is a number above -inf. *)
Lemma max_fold_ninf (l : list fp) :
  forall acc, acc <> NaN -> fold_left Fp.max l acc = NInf ->
              acc = NInf /\ forall x, In x l -> x = NaN \/ x = NInf.
Proof.
  induction l as [|x l IH]; intros acc Hacc H; simpl in H.
  - split; [assumption | intros ? []].
  - destruct (IH _ (max_not_nan x Hacc) H) as [Hm Hl].
    assert (acc = NInf /\ (x = NaN \/ x = NInf)) as [Ha Hx].
    { destruct acc, x; simpl in Hm; try congruence; auto. }
    split; [assumption|]. intros y [<-|Hy]; auto.
Qed.

Lemma sum_fin (l : list R) :
  forall a, fold_left Fp.add (map Fin l) (Fin a)
            = Fin (fold_left Rplus l a).
Proof. induction l as [|x l IH]; intros a; simpl; auto. Qed.

Lemma max_fin (l : list R) :
  forall a, fold_left Fp.max (map Fin l) (Fin a)
            = Fin (fold_left Rmax l a).
Proof. induction l as [|x l IH]; intros a; simpl; auto. Qed.
End FpFacts.

(* ================================================================== *)
(** * Row softmax: what the specification prescribes per row *)
(* ================================================================== *)

Lemma fp_eq_ninf (x : fp) : {x = NInf} + {x <> NInf}.
Proof. destruct x; (now left) || (right; discriminate). Qed.

Lemma row_of_length (p : buf) (base n : nat) : length (row_of p base n) = n.
Proof. unfold row_of. now rewrite length_map, length_seq. Qed.

Lemma softmax_block_length (input : buf) (irs n B pid : nat) :
  length (softmax_block input irs n B pid) = B.
Proof.
  unfold softmax_block, tl.load, tl.arange.
  now rewrite !length_map, length_combine, !length_map, length_seq,
    Nat.min_id.
Qed.

(** On its valid lanes the block is the specified row softmax: the
    -inf fill of the masked lanes changes neither maximum nor sum. *)
Lemma softmax_block_valid (input : buf) (irs n B pid : nat) :
  n <= B ->
  firstn n (softmax_block input irs n B pid)
  = softmax_row_spec (row_of input (pid * irs) n).
Proof.
  intros HnB. unfold softmax_block, softmax_row_spec, tl.arange.
  rewrite load_lanes, (masked_lanes _ _ HnB).
  fold (row_of input (pid * irs) n).
  set (row := row_of input (pid * irs) n).
  assert (Hlen : length row = n) by apply row_of_length.
  assert (Hmax : tl.max (row ++ repeat NInf (B - n)) = tl.max row).
  { unfold tl.max. rewrite fold_left_app. apply FpFacts.max_ninfs.
    apply FpFacts.max_fold_not_nan. discriminate. }
  rewrite Hmax. set (m := tl.max row).
  rewrite !map_app, !map_repeat, firstn_app. cbv beta.
  rewrite !length_map, Hlen, Nat.sub_diag, firstn_O, app_nil_r.
  rewrite firstn_all2 by (now rewrite !length_map, Hlen).
  destruct (fp_eq_ninf m) as [Hm|Hm].
  - (* every valid entry is NaN or -inf: all lanes are NaN *)
    destruct (@FpFacts.max_fold_ninf row NInf ltac:(discriminate) Hm)
      as [_ Hrow].
    rewrite !map_map. apply map_ext_in. intros x Hx.
    rewrite Hm. destruct (Hrow x Hx) as [-> | ->]; reflexivity.
  - assert (Hz : Fp.exp (Fp.sub NInf m) = Fin 0).
    { assert (m <> NaN)
        by (apply FpFacts.max_fold_not_nan; discriminate).
      destruct m; simpl; congruence. }
    rewrite Hz. unfold tl.sum at 1.
    rewrite fold_left_app, FpFacts.sum_zeros.
    unfold tl.sum. now rewrite !map_map.
Qed.

(* ================================================================== *)
(** * [triton.next_power_of_2] *)
(* ================================================================== *)

Module NextPow2.
Local Open Scope Z_scope.

Lemma smeared_init (m : Z) : smeared m m 1.
Proof.
  intros i Hi. split.
  - intros H. exists 0. split; [lia|]. now rewrite Z.add_0_r.
  - intros (d & Hd & H). replace (i + d) with i in H by lia. exact H.
Qed.

Lemma smeared_step (m a w : Z) :
  0 < w -> smeared m a w ->
  smeared m (Z.lor a (Z.shiftr a w)) (2 * w).
Proof.
  intros Hw Ha i Hi.
  rewrite Z.lor_spec, Z.shiftr_spec, orb_true_iff by lia.
  rewrite (Ha i Hi), (Ha (i + w)) by lia. split.
  - intros [(d & Hd & H) | (d & Hd & H)].
    + exists d. split; [lia | exact H].
    + exists (w + d). split; [lia|]. now rewrite Z.add_assoc.
  - intros (d & Hd & H). destruct (Z_lt_ge_dec d w) as [Hlt|Hge].
    + left. exists d. split; [lia | exact H].
    + right. exists (d - w). split; [lia|].
      now replace (i + w + (d - w)) with (i + d) by lia.
Qed.

Lemma smeared_ones (m a : Z) :
  0 < m < 2 ^ 64 -> smeared m a 64 -> a = Z.ones (Z.succ (Z.log2 m)).
Proof.
  intros Hm Ha.
  assert (Hk : 0 <= Z.log2 m < 64).
  { split; [apply Z.log2_nonneg|]. apply Z.log2_lt_pow2; lia. }
  apply Z.bits_inj'. intros i Hi.
  rewrite Z.testbit_ones_nonneg by lia.
  destruct (Z.ltb_spec i (Z.succ (Z.log2 m))) as [Hlt|Hge].
  - apply (Ha i Hi). exists (Z.log2 m - i). split; [lia|].
    replace (i + (Z.log2 m - i)) with (Z.log2 m) by lia.
    apply Z.bit_log2. lia.
  - destruct (Z.testbit a i) eqn:E; [|reflexivity].
    apply (Ha i Hi) in E. destruct E as (d & Hd & H).
    rewrite Z.bits_above_log2 in H by lia. discriminate.
Qed.

Lemma land_le_r (a b : Z) : 0 <= b -> Z.land a b <= b.
Proof.
  intros Hb.
  assert (H0 : Z.land (Z.ldiff b a) (Z.land b a) = 0).
  { apply Z.bits_inj'. intros i Hi.
    rewrite !Z.land_spec, Z.ldiff_spec, Z.bits_0.
    destruct (Z.testbit b i), (Z.testbit a i); reflexivity. }
  pose proof (Z.add_lor_land (Z.ldiff b a) (Z.land b a)) as H.
  rewrite Z.lor_ldiff_and, H0 in H.
  assert (0 <= Z.ldiff b a) by (apply Z.ldiff_nonneg; lia).
  rewrite (Z.land_comm a b). lia.
Qed.

Lemma smear_grows (a w : Z) :
  0 <= a -> 0 <= w -> a <= Z.lor a (Z.shiftr a w).
Proof.
  intros Ha Hw.
  assert (Hs : 0 <= Z.shiftr a w) by (apply Z.shiftr_nonneg; lia).
  pose proof (Z.add_lor_land a (Z.shiftr a w)) as H.
  pose proof (land_le_r a Hs). lia.
Qed.

Lemma next_power_of_2_ge (n : Z) : 1 <= n -> n <= next_power_of_2 n.
Proof.
  intros Hn. unfold next_power_of_2.
  set (m0 := n - 1).
  set (m1 := Z.lor m0 (Z.shiftr m0 1)).
  set (m2 := Z.lor m1 (Z.shiftr m1 2)).
  set (m3 := Z.lor m2 (Z.shiftr m2 4)).
  set (m4 := Z.lor m3 (Z.shiftr m3 8)).
  set (m5 := Z.lor m4 (Z.shiftr m4 16)).
  assert (H0 : 0 <= m0) by (unfold m0; lia).
  assert (H1 : m0 <= m1) by (apply smear_grows; lia).
  assert (H2 : m1 <= m2) by (apply smear_grows; lia).
  assert (H3 : m2 <= m3) by (apply smear_grows; lia).
  assert (H4 : m3 <= m4) by (apply smear_grows; lia).
  assert (H5 : m4 <= m5) by (apply smear_grows; lia).
  assert (H6 : m5 <= Z.lor m5 (Z.shiftr m5 32))
    by (apply smear_grows; lia).
  unfold m0 in *. lia.
Qed.

(** For a row length that fits a 64-bit integer the result is the
    least power of two that is not below it. *)
Lemma next_power_of_2_log2 (n : Z) :
  1 <= n <= 2 ^ 64 -> next_power_of_2 n = 2 ^ Z.log2_up n.
Proof.
  intros Hn. destruct (Z.eq_dec n 1) as [->|Hne]; [reflexivity|].
  unfold next_power_of_2.
  set (m := n - 1).
  assert (Hm : 0 < m < 2 ^ 64) by lia.
  pose proof (smeared_init m) as H1.
  apply smeared_step in H1; [|lia].
  apply smeared_step in H1; [|lia].
  apply smeared_step in H1; [|lia].
  apply smeared_step in H1; [|lia].
  apply smeared_step in H1; [|lia].
  apply smeared_step in H1; [|lia].
  change (2 * (2 * (2 * (2 * (2 * (2 * 1)))))) with 64 in H1.
  change (2 * (2 * (2 * (2 * 1)))) with 16 in H1.
  change (2 * (2 * (2 * 1))) with 8 in H1.
  change (2 * (2 * 1)) with 4 in H1.
  change (2 * 1) with 2 in H1.
  change (2 * 16) with 32 in H1.
  rewrite (smeared_ones Hm H1).
  rewrite Z.ones_equiv, Z.log2_up_eqn by lia.
  unfold m. replace (Z.pred n) with (n - 1) by lia. lia.
Qed.
End NextPow2.

(* ================================================================== *)
(** * The softmax kernel on one row *)
(* ================================================================== *)

(** What program [pid] leaves at a valid lane of its row. *)
Lemma softmax_kernel_valid (input out : buf)
    (irs ors n B pid j : nat) :
  n <= B -> j < n ->
  softmax_kernel input irs ors n B pid out (pid * ors + j)
  = nth j (softmax_row_spec (row_of input (pid * irs) n)) NaN.
Proof.
  intros HnB Hj. unfold softmax_kernel, tl.arange.
  rewrite (@store_hit (pid * ors) (fun c => Nat.ltb c n) NaN B 0)
    by (try apply softmax_block_length; try lia;
        now apply Nat.ltb_lt).
  rewrite Nat.sub_0_r, <- (softmax_block_valid input irs pid HnB).
  rewrite nth_firstn. destruct (Nat.ltb_spec j n); [reflexivity|lia].
Qed.

(** Program [pid] writes nothing outside the valid lanes of its row. *)
Lemma softmax_kernel_frame (input out : buf)
    (irs ors n B pid a : nat) :
  (forall c, c < B -> c < n -> a <> pid * ors + c) ->
  softmax_kernel input irs ors n B pid out a = out a.
Proof.
  intros H. unfold softmax_kernel, tl.arange.
  apply store_miss. intros c Hin Hc E.
  apply in_seq in Hin. apply Nat.ltb_lt in Hc.
  apply (H c); lia.
Qed.

(* ================================================================== *)
(** * Rows of numbers: the formulas over the reals *)
(* ================================================================== *)

Section RealRows.
Local Open Scope R_scope.

Lemma fold_Rplus_acc (l : list R) :
  forall a, fold_left Rplus l a = a + Rsum l.
Proof.
  unfold Rsum. induction l as [|x l IH]; intros a; simpl; [lra|].
  rewrite (IH (a + x)), (IH (0 + x)). lra.
Qed.

Lemma Rsum_cons (x : R) (l : list R) : Rsum (x :: l) = x + Rsum l.
Proof. unfold Rsum at 1. simpl. rewrite fold_Rplus_acc. lra. Qed.

Lemma Rsum_app (l l' : list R) : Rsum (l ++ l') = Rsum l + Rsum l'.
Proof.
  induction l as [|x l IH]; simpl.
  - unfold Rsum at 2. simpl. lra.
  - rewrite !Rsum_cons, IH. lra.
Qed.

Lemma Rsum_repeat (v : R) (k : nat) : Rsum (repeat v k) = INR k * v.
Proof.
  induction k as [|k IH]; [unfold Rsum; simpl; lra|].
  change (repeat v (S k)) with (v :: repeat v k).
  rewrite Rsum_cons, IH, S_INR. lra.
Qed.

Lemma Rsum_nonneg (l : list R) :
  (forall x, In x l -> 0 <= x) -> 0 <= Rsum l.
Proof.
  induction l as [|x l IH]; intros H; [unfold Rsum; simpl; lra|].
  rewrite Rsum_cons.
  assert (0 <= x) by (apply H; now left).
  assert (0 <= Rsum l) by (apply IH; intros; apply H; now right). lra.
Qed.

Lemma Rsum_pos (l : list R) :
  l <> [] -> (forall x, In x l -> 0 < x) -> 0 < Rsum l.
Proof.
  destruct l as [|x l]; [congruence|]. intros _ H.
  rewrite Rsum_cons.
  assert (0 < x) by (apply H; now left).
  assert (0 <= Rsum l).
  { apply Rsum_nonneg. intros y Hy. apply Rlt_le, H. now right. }
  lra.
Qed.

Lemma Rsum_scale (s : R) (l : list R) :
  Rsum (map (fun v => v / s) l) = Rsum l / s.
Proof.
  induction l as [|x l IH]; [unfold Rsum; simpl; lra|].
  simpl map. rewrite !Rsum_cons, IH. lra.
Qed.

Lemma sum_fin_map (l : list R) : tl.sum (map Fin l) = Fin (Rsum l).
Proof. unfold tl.sum. apply FpFacts.sum_fin. Qed.

Lemma max_fin_map (l : list R) :
  l <> [] -> tl.max (map Fin l) = Fin (Rmaxl l).
Proof.
  destruct l as [|x l]; [congruence|]. intros _.
  unfold tl.max. simpl. apply FpFacts.max_fin.
Qed.

Lemma softmax_R_length (xs : list R) :
  length (softmax_R xs) = length xs.
Proof. unfold softmax_R. now rewrite !length_map. Qed.

Lemma softmax_R_denominator (xs : list R) (m : R) :
  0 < Rsum (map (fun x => exp (x - m)) xs) + 1e-6.
Proof.
  assert (0 <= Rsum (map (fun x => exp (x - m)) xs)).
  { apply Rsum_nonneg. intros y Hy. apply in_map_iff in Hy.
    destruct Hy as (x & <- & _). apply Rlt_le, exp_pos. }
  lra.
Qed.

Lemma softmax_R_pos (xs : list R) (k : R) :
  In k (softmax_R xs) -> 0 < k.
Proof.
  unfold softmax_R. intros H. apply in_map_iff in H.
  destruct H as (e & <- & He). apply in_map_iff in He.
  destruct He as (x & <- & _).
  apply Rdiv_lt_0_compat; [apply exp_pos|apply softmax_R_denominator].
Qed.

(** On a row of numbers the specified softmax is the real formula. *)
Lemma softmax_row_spec_fin (xs : list R) :
  xs <> [] -> softmax_row_spec (map Fin xs) = map Fin (softmax_R xs).
Proof.
  intros Hne. unfold softmax_row_spec, softmax_R.
  rewrite (max_fin_map Hne). set (m := Rmaxl xs).
  replace (map (fun x => Fp.exp (Fp.sub x (Fin m))) (map Fin xs))
    with (map Fin (map (fun x => exp (x - m)) xs))
    by (rewrite !map_map; reflexivity).
  rewrite sum_fin_map. simpl Fp.add.
  rewrite !map_map. apply map_ext. intros x.
  apply FpFacts.div_fin.
  pose proof (softmax_R_denominator xs m). lra.
Qed.

Lemma clamp_fin (x : fp) :
  x <> NaN -> Fp.clamp (-100) 100 x = Fin (clamp_R x).
Proof.
  destruct x; simpl; try congruence; intros _; f_equal.
  unfold Rmin. destruct (Rle_dec (-100) 100); lra.
Qed.

Lemma clamp_R_range (x : fp) : -100 <= clamp_R x <= 100.
Proof.
  destruct x; simpl; try lra.
  unfold Rmin, Rmax.
  destruct (Rle_dec r (-100)), (Rle_dec (-100) 100), (Rle_dec r 100);
    lra.
Qed.

Lemma renorm_R_length (ks : list R) : length (renorm_R ks) = length ks.
Proof. unfold renorm_R. now rewrite !length_map. Qed.

(** After renormalisation a row of non-negative numbers is a
    probability vector. *)
Lemma renorm_R_sum (ks : list R) :
  ks <> [] -> (forall k, In k ks -> 0 <= k) -> Rsum (renorm_R ks) = 1.
Proof.
  intros Hne Hk. unfold renorm_R. rewrite Rsum_scale.
  assert (0 < Rsum (map (fun k => k + 1e-8) ks)).
  { apply Rsum_pos.
    - destruct ks; [congruence | discriminate].
    - intros v Hv. apply in_map_iff in Hv.
      destruct Hv as (k & <- & Hin). specialize (Hk k Hin). lra. }
  field. lra.
Qed.

Lemma renorm_R_pos (ks : list R) (p : R) :
  (forall k, In k ks -> 0 <= k) -> In p (renorm_R ks) -> 0 < p.
Proof.
  intros Hk Hp. unfold renorm_R in Hp. apply in_map_iff in Hp.
  destruct Hp as (v & <- & Hv).
  assert (Hpos : forall w, In w (map (fun k => k + 1e-8) ks) -> 0 < w).
  { intros w Hw. apply in_map_iff in Hw.
    destruct Hw as (k & <- & Hin). specialize (Hk k Hin). lra. }
  apply Rdiv_lt_0_compat; [now apply Hpos|].
  apply Rsum_pos; [|assumption].
  destruct ks; [destruct Hv | discriminate].
Qed.
End RealRows.

(* ================================================================== *)
(** * The softmax wrapper *)
(* ================================================================== *)

Lemma map_nth_seq (A : Type) (l : list A) (d : A) :
  map (fun j => nth j l d) (seq 0 (length l)) = l.
Proof.
  apply (nth_ext _ _ d d).
  - now rewrite length_map, length_seq.
  - intros i Hi. rewrite length_map, length_seq in Hi.
    rewrite (nth_indep _ d (nth 0 l d))
      by (now rewrite length_map, length_seq).
    rewrite (map_nth (fun j => nth j l d) (seq 0 (length l)) 0 i).
    now rewrite seq_nth.
Qed.

Lemma BLOCK_SIZE_ge (N : nat) : N <= TritonSoftmax.BLOCK_SIZE N.
Proof.
  unfold TritonSoftmax.BLOCK_SIZE. destruct N as [|N]; [lia|].
  pose proof (@NextPow2.next_power_of_2_ge (Z.of_nat (S N))). lia.
Qed.

Lemma stride0_pos (N : nat) : 1 <= N -> stride0 N = N.
Proof. unfold stride0. lia. Qed.

(** After the launch of [TritonSoftmax.forward], lane [j] of row [r]
    holds what program [r] stored there. *)
Lemma softmax_launch_row (x junk : buf) (B N r j : nat) :
  1 <= N -> r < B -> j < N ->
  launch (TritonSoftmax.grid B)
    (softmax_kernel x (stride0 N) (stride0 N) N
       (TritonSoftmax.BLOCK_SIZE N)) junk (r * N + j)
  = nth j (softmax_row_spec (row_of x (r * N) N)) NaN.
Proof.
  intros HN Hr Hj. rewrite (stride0_pos HN).
  unfold TritonSoftmax.grid.
  apply launch_owner with (r := r); [assumption | |].
  - intros q. apply softmax_kernel_valid; [apply BLOCK_SIZE_ge | lia].
  - intros pid q _ Hne. apply softmax_kernel_frame.
    intros c _ Hc. nia.
Qed.

Lemma row_sum_fin (N : nat) (y : buf) (r : nat) (vs : list R) :
  length vs = N ->
  (forall j, j < N -> y (r * N + j)%nat = Fin (nth j vs 0%R)) ->
  row_sum N y r = Fin (Rsum vs).
Proof.
  intros Hlen Hy. unfold row_sum.
  replace (map (fun j => y (r * N + j)) (seq 0 N)) with (map Fin vs).
  - apply FpFacts.sum_fin.
  - rewrite <- (map_nth_seq vs 0%R) at 1. rewrite Hlen, map_map.
    apply map_ext_in. intros j Hin. apply in_seq in Hin.
    symmetry. apply Hy. lia.
Qed.

Section Forward2d.
Local Open Scope R_scope.
Variables (junk x : buf) (B N r : nat).
Hypothesis HN : (1 <= N)%nat.
Hypothesis Hr : (r < B)%nat.
Hypothesis Hx : forall j, (j < N)%nat -> x (r * N + j)%nat <> NaN.

Local Abbreviation xs := (map clamp_R (row_of x (r * N) N)).

Lemma xs_length : length xs = N.
Proof. now rewrite length_map, row_of_length. Qed.

Lemma xs_nonempty : xs <> [].
Proof.
  intros E. pose proof xs_length as H. rewrite E in H. simpl in H. lia.
Qed.

Lemma clamped_row :
  row_of (fun i => Fp.clamp (-100) 100 (x i)) (r * N) N = map Fin xs.
Proof.
  unfold row_of. rewrite !map_map. apply map_ext_in.
  intros c Hc. apply in_seq in Hc. apply clamp_fin, Hx. lia.
Qed.

(** Row [r] of the wrapper's result: the clamped row, through the
    specified softmax, plus 1e-8, renormalised. *)
Lemma forward2d_row (j : nat) :
  (j < N)%nat ->
  TritonSoftmax.forward2d junk B N x (r * N + j)%nat
  = Fin (nth j (renorm_R (softmax_R xs)) 0).
Proof.
  intros Hj. unfold TritonSoftmax.forward2d.
  set (xc := fun i => Fp.clamp (-100) 100 (x i)).
  set (y1 := launch _ _ junk).
  assert (Hy1 : forall c, (c < N)%nat ->
            y1 (r * N + c)%nat = Fin (nth c (softmax_R xs) 0)).
  { intros c Hc. unfold y1.
    rewrite softmax_launch_row by assumption.
    unfold xc. rewrite clamped_row, (softmax_row_spec_fin xs_nonempty).
    rewrite (nth_indep _ NaN (Fin 0))
      by (now rewrite length_map, softmax_R_length, xs_length).
    apply (map_nth Fin). }
  set (ys := map (fun k => k + 1e-8) (softmax_R xs)).
  assert (Hys : length ys = N)
    by (unfold ys; now rewrite length_map, softmax_R_length, xs_length).
  assert (Hy2 : forall c, (c < N)%nat ->
            Fp.add (y1 (r * N + c)%nat) (Fin 1e-8) = Fin (nth c ys 0)).
  { intros c Hc. rewrite (Hy1 c Hc). simpl. f_equal. unfold ys.
    rewrite (nth_indep (map _ (softmax_R xs)) 0 (0 + 1e-8))
      by (now rewrite length_map, softmax_R_length, xs_length).
    now rewrite (map_nth (fun k => k + 1e-8)). }
  replace ((r * N + j) / N)%nat with r
    by (apply Nat.div_unique with j; lia).
  rewrite (@row_sum_fin N _ r ys Hys) by
    (intros c Hc; exact (Hy2 c Hc)).
  rewrite (Hy2 j Hj).
  assert (Hpos : 0 < Rsum ys).
  { apply Rsum_pos.
    - intros E. rewrite E in Hys. simpl in Hys. lia.
    - intros v Hv. unfold ys in Hv. apply in_map_iff in Hv.
      destruct Hv as (k & <- & Hk). apply softmax_R_pos in Hk. lra. }
  rewrite FpFacts.div_fin by lra. f_equal.
  unfold renorm_R. fold ys.
  rewrite (nth_indep (map _ ys) 0 (0 / Rsum ys))
    by (now rewrite length_map, Hys).
  now rewrite (map_nth (fun v => v / Rsum ys)).
Qed.
End Forward2d.

(* ================================================================== *)
(** * Numerical bounds for the worked example *)
(* ================================================================== *)

Section ExpBounds.
Local Open Scope R_scope.

Lemma exp_pow_nat (x : R) (n : nat) : exp x ^ n = exp (INR n * x).
Proof.
  induction n as [|n IH].
  - simpl. now rewrite Rmult_0_l, exp_0.
  - rewrite S_INR. simpl pow. rewrite IH, <- exp_plus. f_equal. lra.
Qed.

Lemma exp_neg1_lower : 0.3671 <= exp (-1).
Proof.
  replace (-1) with (INR 256 * (- / 256)).
  2:{ change 256%nat with (Z.to_nat 256). rewrite INR_IZR_INZ.
      change (Z.of_nat (Z.to_nat 256)) with 256%Z. field. }
  rewrite <- exp_pow_nat.
  apply Rle_trans with ((255 / 256) ^ 256).
  - unfold Rdiv. rewrite Rpow_mult_distr, pow_inv, !pow_IZR.
    apply Rmult_le_reg_r with (IZR (256 ^ Z.of_nat 256)).
    + apply IZR_lt. reflexivity.
    + rewrite Rmult_assoc, Rinv_l, Rmult_1_r.
      * replace 0.3671 with (IZR 3671 / IZR 10000) by lra.
        apply Rmult_le_reg_r with (IZR 10000); [lra|].
        replace (IZR 3671 / IZR 10000 * IZR (256 ^ Z.of_nat 256) * IZR 10000)
          with (IZR 3671 * IZR (256 ^ Z.of_nat 256)) by (field).
        rewrite <- !mult_IZR. apply IZR_le.
        apply Z.leb_le. vm_compute. reflexivity.
      * apply not_0_IZR. apply Z.pow_nonzero; lia.
  - apply pow_incr. split; [lra|].
    left. replace (255 / 256) with (1 + - / 256) by lra.
    apply exp_ineq1. lra.
Qed.

Lemma exp_neg1_upper : exp (-1) <= 0.3686.
Proof.
  replace (-1) with (Ropp 1) by lra. rewrite exp_Ropp.
  assert (H : 10000 / 3686 <= exp 1).
  { replace 1 with (INR 256 * (/ 256)) at 1.
    2:{ change 256%nat with (Z.to_nat 256). rewrite INR_IZR_INZ.
        change (Z.of_nat (Z.to_nat 256)) with 256%Z. field. }
    rewrite <- exp_pow_nat.
    apply Rle_trans with ((257 / 256) ^ 256).
    - unfold Rdiv at 2. rewrite Rpow_mult_distr, pow_inv, !pow_IZR.
      apply Rmult_le_reg_r with (IZR (256 ^ Z.of_nat 256)).
      + apply IZR_lt. reflexivity.
      + rewrite Rmult_assoc, Rinv_l, Rmult_1_r.
        * apply Rmult_le_reg_r with (IZR 3686); [lra|].
          replace (10000 / 3686 * IZR (256 ^ Z.of_nat 256) * IZR 3686)
            with (IZR 10000 * IZR (256 ^ Z.of_nat 256)) by (field).
          rewrite <- !mult_IZR. apply IZR_le.
          apply Z.leb_le. vm_compute. reflexivity.
        * apply not_0_IZR. apply Z.pow_nonzero; lia.
    - apply pow_incr. split; [lra|].
      left. replace (257 / 256) with (1 + / 256) by lra.
      apply exp_ineq1. lra. }
  apply Rmult_le_reg_r with (exp 1); [lra|].
  rewrite Rinv_l; lra.
Qed.

Lemma div_between (a D lo hi : R) :
  0 < D -> lo * D <= a -> a <= hi * D -> lo <= a / D <= hi.
Proof.
  intros HD Hlo Hhi. split.
  - apply Rmult_le_reg_r with D; [assumption|].
    unfold Rdiv. rewrite Rmult_assoc, Rinv_l; lra.
  - apply Rmult_le_reg_r with D; [assumption|].
    unfold Rdiv. rewrite Rmult_assoc, Rinv_l; lra.
Qed.

Lemma Rmaxl_123 : Rmaxl [1; 2; 3] = 3.
Proof.
  unfold Rmaxl. simpl. unfold Rmax.
  destruct (Rle_dec 1 2); [|lra]. destruct (Rle_dec 2 3); lra.
Qed.

(** The row [[1, 2, 3]]: the formula gives 0.0900, 0.2447, 0.6652
    to within 1e-3. *)
Lemma softmax_R_123 :
  exists p0 p1 p2,
    softmax_R [1; 2; 3] = [p0; p1; p2] /\
    Rabs (p0 - 0.0900) <= 1e-3 /\
    Rabs (p1 - 0.2447) <= 1e-3 /\
    Rabs (p2 - 0.6652) <= 1e-3.
Proof.
  unfold softmax_R. rewrite Rmaxl_123. simpl map.
  do 3 eexists. split; [reflexivity|].
  unfold Rsum. simpl fold_left.
  replace (1 - 3) with (-1 + -1) by lra.
  replace (2 - 3) with (-1) by lra.
  replace (3 - 3) with 0 by lra.
  rewrite exp_plus, exp_0.
  pose proof exp_neg1_lower as Hlo. pose proof exp_neg1_upper as Hhi.
  set (a := exp (-1)) in *.
  assert (Ha2 : 0.3671 * 0.3671 <= a * a <= 0.3686 * 0.3686) by nra.
  set (a2 := a * a) in *.
  assert (HD : 0 < 0 + a2 + a + 1 + 1e-6) by lra.
  repeat split; apply Rabs_le;
    match goal with
    | |- _ <= ?n / ?D - ?c <= _ =>
        pose proof (@div_between n D (c - 1e-3) (c + 1e-3) HD
                      ltac:(lra) ltac:(lra)); lra
    end.
Qed.
End ExpBounds.

(* ================================================================== *)
(** * The layer-norm kernel on one row *)
(* ================================================================== *)

Section LayerNormRow.
Local Open Scope R_scope.

Lemma layer_norm_block_length (x w b : buf) (N : nat) (eps : fp)
    (B pid : nat) :
  length (layer_norm_block x w b N eps B pid) = B.
Proof.
  unfold layer_norm_block, tl.arange.
  rewrite !load_lanes, !load_lanes_id, !map_map, !mul_lanes, add_lanes.
  now rewrite length_map, length_seq.
Qed.

Lemma layer_norm_block_lane (x w b : buf) (N : nat) (eps : fp)
    (B pid j : nat) :
  (j < N)%nat -> (j < B)%nat ->
  nth j (layer_norm_block x w b N eps B pid) NaN
  = Fp.add
      (Fp.mul
         (Fp.mul (Fp.sub (x (pid * N + j)%nat) (ln_mean x N B pid))
                 (ln_rstd x N eps B pid))
         (w j))
      (b j).
Proof.
  intros HjN HjB.
  unfold layer_norm_block.
  fold (ln_x x N B pid). fold (ln_mean x N B pid).
  fold (ln_rstd x N eps B pid).
  unfold ln_x at 1, tl.arange.
  rewrite !load_lanes, !load_lanes_id, !map_map, !mul_lanes, add_lanes.
  set (f := fun c : nat => _).
  rewrite (nth_indep _ NaN (f 0%nat))
    by (now rewrite length_map, length_seq).
  rewrite (map_nth f), seq_nth by assumption. unfold f. simpl plus.
  destruct (Nat.ltb_spec j N); [reflexivity | lia].
Qed.

Variables (x : buf) (N B pid : nat) (xs : list R).
Hypothesis HN : (1 <= N)%nat.
Hypothesis HNB : (N <= B)%nat.
Hypothesis Hlen : length xs = N.
Hypothesis Hx :
  forall c, (c < N)%nat -> x (pid * N + c)%nat = Fin (nth c xs 0).

Lemma ln_x_fin : ln_x x N B pid = map Fin (xs ++ repeat 0 (B - N)).
Proof.
  unfold ln_x, tl.arange. rewrite load_lanes, (masked_lanes _ _ HNB).
  rewrite map_app, map_repeat. f_equal; [|f_equal; f_equal; lra].
  rewrite <- (map_nth_seq xs 0) at 1. rewrite Hlen, map_map.
  apply map_ext_in. intros c Hc. apply in_seq in Hc. apply Hx. lia.
Qed.

Lemma INR_N_pos : 0 < INR N.
Proof. apply lt_0_INR. lia. Qed.

Lemma ln_mean_fin : ln_mean x N B pid = Fin (ln_mean_R xs).
Proof.
  unfold ln_mean, ln_mean_R, Fp.of_nat.
  rewrite ln_x_fin, sum_fin_map, Rsum_app, Rsum_repeat, Hlen.
  pose proof INR_N_pos. rewrite FpFacts.div_fin by lra.
  f_equal. f_equal. lra.
Qed.

Lemma ln_var_kernel_nonneg : 0 <= ln_var_kernel_R B xs.
Proof.
  unfold ln_var_kernel_R. rewrite Hlen. pose proof INR_N_pos.
  apply Rmult_le_pos; [|left; now apply Rinv_0_lt_compat].
  apply Rplus_le_le_0_compat.
  - apply Rsum_nonneg. intros v Hv. apply in_map_iff in Hv.
    destruct Hv as (u & <- & _). exact (Rle_0_sqr _).
  - apply Rmult_le_pos; [apply pos_INR | exact (Rle_0_sqr _)].
Qed.

Lemma ln_rstd_fin (e : R) :
  0 < e ->
  ln_rstd x N (Fin e) B pid
  = Fin (1 / sqrt (ln_var_kernel_R B xs + e)).
Proof.
  intros He. unfold ln_rstd.
  rewrite ln_mean_fin, ln_x_fin. set (mu := ln_mean_R xs).
  rewrite map_map.
  rewrite (mul_lanes (fun v => Fp.sub (Fin v) (Fin mu))
                     (fun v => Fp.sub (Fin v) (Fin mu))).
  simpl Fp.sub. simpl Fp.mul.
  rewrite <- (map_map (fun v => (v + - mu) * (v + - mu)) Fin).
  rewrite sum_fin_map, map_app, map_repeat, Rsum_app, Rsum_repeat.
  unfold Fp.of_nat. pose proof INR_N_pos.
  rewrite FpFacts.div_fin by lra. simpl Fp.add.
  pose proof ln_var_kernel_nonneg as Hv.
  replace ((Rsum (map (fun v => (v + - mu) * (v + - mu)) xs)
            + INR (B - N) * ((0 + - mu) * (0 + - mu))) / INR N)
    with (ln_var_kernel_R B xs).
  2:{ unfold ln_var_kernel_R. rewrite Hlen. fold mu. reflexivity. }
  rewrite FpFacts.sqrt_fin by lra.
  assert (0 < sqrt (ln_var_kernel_R B xs + e))
    by (apply sqrt_lt_R0; lra).
  rewrite FpFacts.div_fin by lra. f_equal. lra.
Qed.
End LayerNormRow.

Lemma layer_norm_kernel_valid (x w b out : buf) (N : nat) (eps : fp)
    (B pid j : nat) :
  j < N -> j < B ->
  layer_norm_kernel x w b N eps B pid out (pid * N + j)
  = nth j (layer_norm_block x w b N eps B pid) NaN.
Proof.
  intros HjN HjB. unfold layer_norm_kernel, tl.arange.
  rewrite (@store_hit (pid * N) (fun c => Nat.ltb c N) NaN B 0)
    by (try apply layer_norm_block_length; try lia;
        now apply Nat.ltb_lt).
  now rewrite Nat.sub_0_r.
Qed.

Lemma layer_norm_kernel_frame (x w b out : buf) (N : nat) (eps : fp)
    (B pid a : nat) :
  (forall c, c < B -> c < N -> a <> pid * N + c) ->
  layer_norm_kernel x w b N eps B pid out a = out a.
Proof.
  intros H. unfold layer_norm_kernel, tl.arange.
  apply store_miss. intros c Hin Hc E.
  apply in_seq in Hin. apply Nat.ltb_lt in Hc.
  apply (H c); lia.
Qed.

(** A row of numbers, with numeric scale and bias: what the kernel
    stores at a valid lane.  The variance is the kernel's own. *)
Lemma layer_norm_kernel_fin (x w b out : buf) (N B pid : nat)
    (xs : list R) (wr br : nat -> R) (e : R) (j : nat) :
  1 <= N -> N <= B -> length xs = N ->
  (forall c, c < N -> x (pid * N + c) = Fin (nth c xs 0%R)) ->
  (forall c, c < N -> w c = Fin (wr c)) ->
  (forall c, c < N -> b c = Fin (br c)) ->
  (0 < e)%R -> j < N ->
  layer_norm_kernel x w b N (Fin e) B pid out (pid * N + j)
  = Fin ((nth j xs 0 - ln_mean_R xs)
         * (1 / sqrt (ln_var_kernel_R B xs + e)) * wr j + br j)%R.
Proof.
  intros HN HNB Hlen Hx Hw Hb He Hj.
  rewrite layer_norm_kernel_valid, layer_norm_block_lane by lia.
  rewrite (@ln_mean_fin x N B pid xs HN HNB Hlen Hx).
  rewrite (@ln_rstd_fin x N B pid xs HN HNB Hlen Hx e He).
  rewrite (Hx j Hj), (Hw j Hj), (Hb j Hj). reflexivity.
Qed.

(* ================================================================== *)
(** * The GELU kernel *)
(* ================================================================== *)

Lemma combine_lanes (A B : Type) (f : nat -> A) (g : nat -> B)
    (l : list nat) :
  combine l (combine (map f l) (map g l))
  = map (fun c => (c, (f c, g c))) l.
Proof. induction l as [|c l IH]; simpl; [reflexivity|]. now rewrite IH. Qed.

Lemma load_nofill_lanes (undef : nat -> fp) (p : buf) (f : nat -> nat)
    (g : nat -> bool) (B : nat) :
  tl.load_nofill undef p (map f (seq 0 B)) (map g (seq 0 B))
  = map (fun c => if g c then p (f c) else undef c) (seq 0 B).
Proof.
  unfold tl.load_nofill.
  now rewrite length_map, length_seq, combine_lanes, map_map.
Qed.

(** The block [y] of [gelu_kernel], lane by lane. *)
Lemma gelu_kernel_lanes (undef : nat -> fp) (x y : buf)
    (n B pid : nat) :
  gelu_kernel undef x n B pid y
  = tl.store y (map (fun c => pid * B + c) (seq 0 B))
      (map (fun c => gelu_lane (if Nat.ltb (pid * B + c) n
                                then x (pid * B + c) else undef c))
           (seq 0 B))
      (map (fun c => Nat.ltb (pid * B + c) n) (seq 0 B)).
Proof.
  unfold gelu_kernel, tl.arange.
  rewrite (map_map (fun c => pid * B + c) (fun o => Nat.ltb o n)).
  now rewrite load_nofill_lanes, map_map.
Qed.

Lemma gelu_kernel_valid (undef : nat -> fp) (x y : buf)
    (n B pid c : nat) :
  c < B -> pid * B + c < n ->
  gelu_kernel undef x n B pid y (pid * B + c) = gelu_lane (x (pid * B + c)).
Proof.
  intros Hc Hn. rewrite gelu_kernel_lanes.
  rewrite (@store_hit (pid * B) (fun c => Nat.ltb (pid * B + c) n) NaN B 0)
    by (try (now rewrite length_map, length_seq); try lia;
        now apply Nat.ltb_lt).
  rewrite Nat.sub_0_r.
  set (f := fun c : nat => _).
  rewrite (nth_indep _ NaN (f 0)) by (now rewrite length_map, length_seq).
  rewrite (map_nth f), seq_nth by assumption. unfold f. simpl plus.
  destruct (Nat.ltb_spec (pid * B + c) n); [reflexivity | lia].
Qed.

Lemma gelu_kernel_frame (undef : nat -> fp) (x y : buf)
    (n B pid a : nat) :
  (forall c, c < B -> pid * B + c < n -> a <> pid * B + c) ->
  gelu_kernel undef x n B pid y a = y a.
Proof.
  intros H. rewrite gelu_kernel_lanes.
  apply store_miss. intros c Hin Hc E.
  apply in_seq in Hin. apply Nat.ltb_lt in Hc.
  apply (H c); lia.
Qed.

(** The formula on a number. *)
Lemma gelu_lane_fin (v : R) :
  gelu_lane (Fin v)
  = Fin (let coeff := sqrt_2_over_pi * (1 + 0.044715 * v * v) in
         0.5 * v * (1 + (v * coeff) / (1 + Rabs (v * coeff))))%R.
Proof.
  unfold gelu_lane. simpl.
  set (t := (v * (sqrt_2_over_pi * (1 + 0.044715 * v * v)))%R).
  destruct (Req_dec_T (1 + Rabs t) 0) as [E|_]; [|reflexivity].
  pose proof (Rabs_pos t). lra.
Qed.

(* ================================================================== *)
(** * The layer-norm wrapper *)
(* ================================================================== *)

Lemma shape_eqb_true (s t : list nat) : shape_eqb s t = true <-> s = t.
Proof.
  unfold shape_eqb. destruct (list_eq_dec Nat.eq_dec s t); split;
    congruence.
Qed.

Lemma last_dims_suffix (k : nat) (s : list nat) :
  exists lead, s = lead ++ last_dims k s.
Proof.
  unfold last_dims. destruct (Nat.eqb k 0).
  - exists []. reflexivity.
  - exists (firstn (length s - k) s). symmetry. apply firstn_skipn.
Qed.

(** Once the assertion passes, the launch is made with 128 lanes per
    program and [cdiv(M, 128)] programs, whatever the row length. *)
Lemma layer_norm_forward_accepts (self : TritonLayerNorm.t) (junk : buf)
    (x : tensor) (N : nat) :
  last_dims (length (TritonLayerNorm.normalized_shape self)) (shape x)
  = TritonLayerNorm.normalized_shape self ->
  last_dim (TritonLayerNorm.normalized_shape self) = Some N ->
  N <> 0 ->
  TritonLayerNorm.forward self junk x
  = Ok (Tensor (shape x)
          (launch (cdiv (numel (shape x) / N) 128)
             (layer_norm_kernel (data x) (TritonLayerNorm.weight self)
                (TritonLayerNorm.bias self) N (TritonLayerNorm.eps self)
                128) junk)).
Proof.
  intros Hs HN HN0. unfold TritonLayerNorm.forward.
  apply shape_eqb_true in Hs. rewrite Hs, HN. simpl negb.
  apply Nat.eqb_neq in HN0. now rewrite HN0.
Qed.

Lemma ln_demo_mean : ln_mean_R [1; 3]%R = 2%R.
Proof. unfold ln_mean_R, Rsum. simpl. lra. Qed.

Lemma ln_demo_var_kernel : ln_var_kernel_R 128 [1; 3]%R = 253%R.
Proof.
  unfold ln_var_kernel_R. rewrite ln_demo_mean. unfold Rsum.
  change (128 - length [1%R; 3%R]) with (Z.to_nat 126).
  change (length [1%R; 3%R]) with (Z.to_nat 2).
  rewrite !INR_IZR_INZ. simpl. lra.
Qed.

Lemma ln_demo_var : ln_var_R [1; 3]%R = 1%R.
Proof.
  unfold ln_var_R. rewrite ln_demo_mean. unfold Rsum. simpl. lra.
Qed.

(** C1.  [TritonLayerNorm.forward] on two rows [[1, 3]] (unit scale,
    zero bias, eps = 1e-5): the call succeeds; lane 0 of row 0 is
    scaled by [1/sqrt(253 + eps)], the variance the 126 masked lanes
    of the 128-lane block inflate, and not by the row's
    [1/sqrt(1 + eps)]; row 1 is never written, since only
    [cdiv(2, 128) = 1] program is launched, and keeps what the
    uninitialised buffer held. *)
Theorem layer_norm_forward_defect (junk : buf) :
  exists y,
    TritonLayerNorm.forward ln_demo junk ln_demo_x = Ok y /\
    data y 0 = Fin ((1 - 2) * (1 / sqrt (253 + 1e-5)) * 1 + 0)%R /\
    data y 0 <> Fin (layer_norm_R 1e-5 [1; 3] [1; 1] [0; 0] 0)%R /\
    data y 2 = junk 2 /\
    data y 3 = junk 3.
Proof.
  eexists. split.
  { apply (@layer_norm_forward_accepts ln_demo junk ln_demo_x 2);
      [reflexivity | reflexivity | discriminate]. }
  cbn [data shape ln_demo ln_demo_x TritonLayerNorm.weight
       TritonLayerNorm.bias TritonLayerNorm.eps].
  replace (cdiv (numel [2; 2] / 2) 128) with 1 by reflexivity.
  change (launch 1 ?k junk) with (k 0 junk).
  assert (H0 :
    layer_norm_kernel
      (fun i => nth i [Fin 1; Fin 3; Fin 1; Fin 3] (Fin 0))
      (fun _ => Fin 1) (fun _ => Fin 0) 2 (Fin 1e-5) 128 0 junk 0
    = Fin ((1 - 2) * (1 / sqrt (253 + 1e-5)) * 1 + 0)%R).
  { pose proof (@layer_norm_kernel_fin
                  (fun i => nth i [Fin 1; Fin 3; Fin 1; Fin 3] (Fin 0))
                  (fun _ => Fin 1) (fun _ => Fin 0) junk 2 128 0
                  [1; 3]%R (fun _ => 1%R) (fun _ => 0%R) 1e-5%R 0) as H.
    rewrite ln_demo_mean, ln_demo_var_kernel in H.
    apply H; try lia; try reflexivity; try lra.
    intros c Hc. destruct c as [|[|c]]; [reflexivity | reflexivity | lia]. }
  split; [|split; [|split]].
  - exact H0.
  - rewrite H0. unfold layer_norm_R.
    rewrite ln_demo_mean, ln_demo_var. simpl nth. intros E.
    injection E as E.
    assert (Hs1 : (0 < sqrt (253 + 1e-5))%R) by (apply sqrt_lt_R0; lra).
    assert (Hs2 : (0 < sqrt (1 + 1e-5))%R) by (apply sqrt_lt_R0; lra).
    assert (Hinv : (/ sqrt (253 + 1e-5) = / sqrt (1 + 1e-5))%R) by lra.
    apply Rinv_eq_reg in Hinv. apply sqrt_inj in Hinv; lra.
  - apply layer_norm_kernel_frame. intros c _ Hc. lia.
  - apply layer_norm_kernel_frame. intros c _ Hc. lia.
Qed.

(** C2, as stated, fails: a row of 129 elements is longer than the
    128-lane block, yet the call raises nothing; it launches, and
    column 128 of the result is never written. *)
Lemma layer_norm_wide_row_not_rejected :
  TritonLayerNorm.BLOCK_SIZE < 129 /\
  exists y,
    TritonLayerNorm.forward ln_wide zero_buf ln_wide_x = Ok y /\
    shape y = [1; 129] /\
    data y 128 = zero_buf 128.
Proof.
  split; [unfold TritonLayerNorm.BLOCK_SIZE; lia|].
  eexists. split.
  { apply (@layer_norm_forward_accepts ln_wide zero_buf ln_wide_x 129);
      [reflexivity | reflexivity | discriminate]. }
  split; [reflexivity|].
  cbn [data shape ln_wide ln_wide_x].
  apply launch_frame. intros pid q Hpid.
  apply layer_norm_kernel_frame. intros c Hc _.
  replace (cdiv (numel [1; 129] / 129) 128) with 1 in Hpid
    by reflexivity.
  lia.
Qed.

(** C2, amended.  An input whose shape does not end with the
    configured normalized shape is rejected by the assertion, with its
    message, and nothing is launched. *)
Theorem layer_norm_forward_rejects_mismatch (self : TritonLayerNorm.t)
    (junk : buf) (x : tensor) :
  (~ exists lead,
       shape x = lead ++ TritonLayerNorm.normalized_shape self) ->
  TritonLayerNorm.forward self junk x
  = Raise (AssertionError shape_mismatch_msg).
Proof.
  intros H. unfold TritonLayerNorm.forward.
  destruct (shape_eqb _ _) eqn:E; [|reflexivity].
  exfalso. apply H. apply shape_eqb_true in E.
  destruct (last_dims_suffix
              (length (TritonLayerNorm.normalized_shape self)) (shape x))
    as [lead Hl].
  exists lead. now rewrite <- E.
Qed.

Lemma layer_norm_forward_rejects_mismatch_witness :
  (~ exists lead, [2; 3] = lead ++ [2]) /\
  TritonLayerNorm.forward ln_demo zero_buf (Tensor [2; 3] zero_buf)
  = Raise (AssertionError shape_mismatch_msg).
Proof.
  assert (H : ~ exists lead, [2; 3] = lead ++ [2]).
  { intros [lead E]. apply (f_equal (@rev nat)) in E.
    rewrite rev_app_distr in E. simpl in E. discriminate. }
  split; [exact H|].
  apply (@layer_norm_forward_rejects_mismatch ln_demo zero_buf
           (Tensor [2; 3] zero_buf)).
  exact H.
Defined.

(* ================================================================== *)
(** * The softmax wrapper: statements *)
(* ================================================================== *)

Lemma numel_app (s t : list nat) : numel (s ++ t) = numel s * numel t.
Proof.
  unfold numel. induction s as [|a s IH]; simpl; [lia|].
  rewrite IH. lia.
Qed.

Lemma last_dim_app (lead : list nat) (N : nat) :
  last_dim (lead ++ [N]) = Some N.
Proof. unfold last_dim. now rewrite rev_unit. Qed.

(** On a shape [lead ++ [N]] with at least one leading dimension the
    wrapper runs [forward2d] on the [[numel lead, N]] view. *)
Lemma softmax_forward_view (junk : buf) (x : tensor) (lead : list nat)
    (N : nat) :
  shape x = lead ++ [N] -> lead <> [] -> 1 <= N ->
  TritonSoftmax.forward junk x
  = Ok (Tensor (shape x)
          (TritonSoftmax.forward2d junk (numel lead) N (data x))).
Proof.
  intros Hs Hlead HN. unfold TritonSoftmax.forward. rewrite Hs.
  destruct lead as [|B [|B' lead]]; [congruence | |].
  - simpl. destruct (Nat.eqb_spec N 0); [lia|].
    do 3 f_equal. unfold numel. simpl. lia.
  - change ((B :: B' :: lead) ++ [N]) with (B :: B' :: (lead ++ [N])).
    destruct (lead ++ [N]) as [|c rest] eqn:E.
    { destruct lead; discriminate. }
    rewrite <- E.
    change (B :: B' :: lead ++ [N]) with ((B :: B' :: lead) ++ [N]).
    rewrite last_dim_app.
    destruct (Nat.eqb_spec N 0); [lia|].
    rewrite numel_app. do 3 f_equal.
    unfold numel at 2. simpl. rewrite Nat.mul_1_r.
    now rewrite Nat.div_mul by lia.
Qed.

(** A one-dimensional input has no [B, N] to unpack. *)
Lemma softmax_forward_1d_raises (junk : buf) (N : nat) (d : buf) :
  TritonSoftmax.forward junk (Tensor [N] d) = Raise ValueError.
Proof. reflexivity. Qed.

(** C3, as stated, fails: not every input tensor comes back as a
    tensor of distributions.  A one-dimensional input has no [B, N] to
    unpack, and the call raises [ValueError]; and the row [[NaN, 0]]
    comes back as [[NaN, NaN]]. *)
Lemma softmax_forward_not_every_tensor :
  TritonSoftmax.forward zero_buf (Tensor [3] row123) = Raise ValueError /\
  exists y,
    TritonSoftmax.forward zero_buf
      (Tensor [1; 2] (fun i => nth i [NaN; Fin 0] (Fin 0))) = Ok y /\
    shape y = [1; 2] /\
    data y 0 = NaN /\ data y 1 = NaN.
Proof.
  split; [reflexivity|].
  eexists. split; [reflexivity|]. split; [reflexivity|].
  split; reflexivity.
Qed.

(** C3, amended.  On a contiguous input with at least one leading
    dimension, rows of [N >= 1] entries and no NaN entry,
    [TritonSoftmax.forward] returns a tensor of the same shape; each
    row of it is the clamped input row (every entry in [-100, 100])
    through the row softmax, plus 1e-8, divided by the row sum; its
    entries are non-negative numbers and sum to 1 (within 1e-4). *)
Theorem softmax_forward_distribution (junk : buf) (x : tensor)
    (lead : list nat) (N : nat) :
  shape x = lead ++ [N] -> lead <> [] -> 1 <= N ->
  (forall i, i < numel (shape x) -> data x i <> NaN) ->
  exists y,
    TritonSoftmax.forward junk x = Ok y /\
    shape y = shape x /\
    forall r, r < numel lead ->
      let xs := map clamp_R (row_of (data x) (r * N) N) in
      let ps := renorm_R (softmax_R xs) in
      (forall c, In c xs -> (-100 <= c <= 100)%R) /\
      row_of (data y) (r * N) N = map Fin ps /\
      (forall p, In p ps -> (0 <= p)%R) /\
      (Rabs (Rsum ps - 1) <= 1e-4)%R.
Proof.
  intros Hs Hlead HN Hx.
  eexists. split; [apply (softmax_forward_view junk x Hs Hlead HN)|].
  split; [reflexivity|]. intros r Hr xs ps. cbn [data].
  assert (Hrow : forall j, j < N -> data x (r * N + j) <> NaN).
  { intros j Hj. apply Hx. rewrite Hs, numel_app.
    unfold numel at 2. simpl. nia. }
  assert (Hlen : length xs = N)
    by (unfold xs; now rewrite length_map, row_of_length).
  assert (Hk : forall k, In k (softmax_R xs) -> (0 <= k)%R)
    by (intros k Hin; apply Rlt_le, (@softmax_R_pos xs k Hin)).
  split; [|split; [|split]].
  - intros c Hc. unfold xs in Hc. apply in_map_iff in Hc.
    destruct Hc as (v & <- & _). apply clamp_R_range.
  - assert (Hps : length ps = N)
      by (unfold ps; now rewrite renorm_R_length, softmax_R_length).
    unfold row_of at 1.
    rewrite <- (map_nth_seq ps 0%R) at 1. rewrite Hps, map_map. apply map_ext_in. intros j Hj. apply in_seq in Hj.
    apply (forward2d_row junk (data x) HN Hr Hrow). lia.
  - intros p Hp. apply Rlt_le, (@renorm_R_pos (softmax_R xs) p Hk Hp).
  - unfold ps. rewrite renorm_R_sum; [|
      intros E; apply (f_equal (@length R)) in E;
      rewrite softmax_R_length, Hlen in E; simpl in E; lia | exact Hk].
    replace (1 - 1)%R with 0%R by lra. rewrite Rabs_R0. lra.
Qed.

Lemma softmax_forward_distribution_witness :
  exists y,
    TritonSoftmax.forward zero_buf masked_scores = Ok y /\
    shape y = [1; 3] /\
    forall r, r < numel [1] ->
      let xs := map clamp_R (row_of (data masked_scores) (r * 3) 3) in
      let ps := renorm_R (softmax_R xs) in
      (forall c, In c xs -> (-100 <= c <= 100)%R) /\
      row_of (data y) (r * 3) 3 = map Fin ps /\
      (forall p, In p ps -> (0 <= p)%R) /\
      (Rabs (Rsum ps - 1) <= 1e-4)%R.
Proof.
  apply (@softmax_forward_distribution zero_buf masked_scores [1] 3).
  - reflexivity.
  - discriminate.
  - lia.
  - intros i Hi.
    destruct i as [|[|[|[|i]]]]; simpl; discriminate.
Defined.

(* ================================================================== *)
(** * The softmax kernel: statements *)
(* ================================================================== *)

Lemma nth_map_default (A B : Type) (f : A -> B) (l : list A) (j : nat)
    (dA : A) (dB : B) :
  j < length l -> nth j (map f l) dB = f (nth j l dA).
Proof.
  intros H. rewrite (nth_indep _ dB (f dA)) by (now rewrite length_map).
  apply map_nth.
Qed.

(** C4.  With at least one valid column and [BLOCK_SIZE >= n_cols],
    program [pid] of [softmax_kernel] stores at each valid lane [j]
    [exp(x_j - max(row)) / (sum_k exp(x_k - max(row)) + 1e-6)], maximum
    and sum taken over the valid entries only: the -inf fill of the
    other lanes affects neither.  On a row of numbers this is the
    formula over the reals.  On the row [[1, 2, 3]] with block size 4
    the stored values are 0.0900, 0.2447, 0.6652 to within 1e-3. *)
Theorem softmax_kernel_formula :
  (forall (input out : buf) (irs ors n B pid j : nat),
      1 <= n -> n <= B -> j < n ->
      let row := row_of input (pid * irs) n in
      let m := tl.max row in
      softmax_kernel input irs ors n B pid out (pid * ors + j)
      = Fp.div (Fp.exp (Fp.sub (nth j row NaN) m))
          (Fp.add (tl.sum (map (fun x => Fp.exp (Fp.sub x m)) row))
                  (Fin 1e-6)))
  /\
  (forall (input out : buf) (irs ors n B pid j : nat) (xs : list R),
      1 <= n -> n <= B -> j < n ->
      row_of input (pid * irs) n = map Fin xs ->
      let m := Rmaxl xs in
      softmax_kernel input irs ors n B pid out (pid * ors + j)
      = Fin (exp (nth j xs 0 - m)
             / (Rsum (map (fun x => exp (x - m)) xs) + 1e-6))%R)
  /\
  (forall out : buf,
      exists p0 p1 p2 : R,
        softmax_kernel row123 3 3 3 4 0 out 0 = Fin p0 /\
        softmax_kernel row123 3 3 3 4 0 out 1 = Fin p1 /\
        softmax_kernel row123 3 3 3 4 0 out 2 = Fin p2 /\
        (Rabs (p0 - 0.0900) <= 1e-3)%R /\
        (Rabs (p1 - 0.2447) <= 1e-3)%R /\
        (Rabs (p2 - 0.6652) <= 1e-3)%R).
Proof.
  split; [|split].
  - intros input out irs ors n B pid j Hn HnB Hj row m.
    rewrite softmax_kernel_valid by assumption.
    fold row. unfold softmax_row_spec. fold m.
    assert (Hlen : length row = n) by apply row_of_length.
    rewrite map_map.
    now rewrite (@nth_map_default _ _ _ row j NaN NaN) by lia.
  - intros input out irs ors n B pid j xs Hn HnB Hj Hrow m.
    rewrite softmax_kernel_valid by assumption.
    assert (Hlen : length xs = n).
    { apply (f_equal (@length fp)) in Hrow.
      now rewrite row_of_length, length_map in Hrow. }
    assert (Hne : xs <> []) by (intros E; rewrite E in Hlen; simpl in *; lia).
    rewrite Hrow, (softmax_row_spec_fin Hne).
    rewrite (@nth_map_default _ _ Fin (softmax_R xs) j 0%R NaN)
      by (rewrite softmax_R_length; lia).
    f_equal. unfold softmax_R. fold m. rewrite map_map.
    now rewrite (@nth_map_default _ _ _ xs j 0%R 0%R) by lia.
  - intros out.
    destruct softmax_R_123 as (p0 & p1 & p2 & Heq & H0 & H1 & H2).
    exists p0, p1, p2.
    assert (Hl : forall j, j < 3 ->
              softmax_kernel row123 3 3 3 4 0 out j
              = nth j (map Fin [p0; p1; p2]) NaN).
    { intros j Hj.
      rewrite <- Heq,
        <- (@softmax_row_spec_fin [1; 2; 3]%R ltac:(discriminate)).
      apply (@softmax_kernel_valid row123 out 3 3 3 4 0 j); lia. }
    rewrite (Hl 0), (Hl 1), (Hl 2) by lia. simpl. auto 6.
Qed.

Lemma softmax_kernel_formula_witness :
  softmax_kernel row123 3 3 3 4 0 zero_buf (0 * 3 + 1)
  = Fin (exp (2 - Rmaxl [1; 2; 3])
         / (Rsum (map (fun x => exp (x - Rmaxl [1; 2; 3])) [1; 2; 3])
            + 1e-6))%R.
Proof.
  apply (proj1 (proj2 softmax_kernel_formula)
           row123 zero_buf 3 3 3 4 0 1 [1; 2; 3]%R).
  - lia.
  - lia.
  - lia.
  - reflexivity.
Defined.

(** C5, as stated, fails: on an input whose rows have no column the
    softmax path returns nothing.  With two dimensions the launch is
    made with [BLOCK_SIZE = next_power_of_2(0) = 0] and the kernel does
    not compile; with more, [view(-1, 0)] raises. *)
Lemma softmax_forward_zero_columns_raise :
  TritonSoftmax.forward zero_buf (Tensor [2; 0] zero_buf)
  = Raise CompilationError /\
  TritonSoftmax.forward zero_buf (Tensor [1; 2; 0] zero_buf)
  = Raise RuntimeError.
Proof. split; reflexivity. Qed.

(** C5, amended.  On every input whose last dimension is 0 (each row
    entirely masked) [TritonSoftmax.forward] raises and returns no
    tensor: [ValueError] for a one-dimensional input, a compilation
    error of the kernel for a two-dimensional one, [RuntimeError] from
    [view(-1, 0)] for more dimensions.  [softmax_kernel] itself, run
    with [n_cols = 0] on any block, stores nothing: the output buffer
    keeps its contents, and no default value is written. *)
Theorem softmax_path_zero_columns :
  (forall (junk : buf) (x : tensor) (lead : list nat),
      shape x = lead ++ [0] ->
      TritonSoftmax.forward junk x
      = Raise match lead with
              | [] => ValueError
              | [_] => CompilationError
              | _ => RuntimeError
              end) /\
  (forall (input out : buf) (irs ors B pid a : nat),
      softmax_kernel input irs ors 0 B pid out a = out a).
Proof.
  split.
  - intros junk x lead Hs. unfold TritonSoftmax.forward. rewrite Hs.
    destruct lead as [|B [|B' lead]]; [reflexivity | reflexivity |].
    change ((B :: B' :: lead) ++ [0]) with (B :: B' :: (lead ++ [0])).
    destruct (lead ++ [0]) as [|c rest] eqn:E.
    { destruct lead; discriminate. }
    rewrite <- E.
    change (B :: B' :: lead ++ [0]) with ((B :: B' :: lead) ++ [0]).
    now rewrite last_dim_app.
  - intros input out irs ors B pid a.
    apply softmax_kernel_frame. intros c _ Hc. lia.
Qed.

(** Four rows without columns. *)
Lemma softmax_path_zero_columns_witness :
  TritonSoftmax.forward zero_buf (Tensor [4; 0] row123)
  = Raise CompilationError.
Proof.
  apply (proj1 softmax_path_zero_columns zero_buf (Tensor [4; 0] row123)
           [4]).
  reflexivity.
Defined.

Lemma degenerate_row_result :
  renorm_R
    (softmax_R (map clamp_R (row_of (data degenerate_row) (0 * 3) 3)))
  = [1 / 3; 1 / 3; 1 / 3]%R.
Proof.
  assert (Hc : clamp_R (Fin (-1000)) = (-100)%R).
  { simpl. unfold Rmax, Rmin.
    destruct (Rle_dec (-1000) (-100)); [|lra].
    destruct (Rle_dec (-100) 100); lra. }
  unfold row_of, degenerate_row. cbn [data seq map]. rewrite Hc.
  unfold softmax_R.
  assert (Hm : Rmaxl [-100; -100; -100]%R = (-100)%R).
  { unfold Rmaxl. cbn [fold_left].
    rewrite !(Rmax_left (-100) (-100)) by lra. reflexivity. }
  rewrite Hm. simpl map.
  replace (-100 - -100)%R with 0%R by lra. rewrite exp_0.
  unfold Rsum. simpl fold_left.
  assert (Hk : (0 < 1 / (0 + 1 + 1 + 1 + 1e-6))%R)
    by (apply Rdiv_lt_0_compat; lra).
  set (k := (1 / (0 + 1 + 1 + 1 + 1e-6))%R) in *.
  unfold renorm_R. cbn [map]. unfold Rsum. cbn [fold_left].
  assert (Hv : forall v, (0 < v -> v / (0 + v + v + v) = 1 / 3)%R)
    by (intros; field; lra).
  rewrite Hv by lra. reflexivity.
Qed.

(** C6.  On the all-equal extreme row [[-1000, -1000, -1000]] the
    softmax wrapper returns [[1/3, 1/3, 1/3]]: three numbers, none of
    them NaN.  The row is clamped to -100 before the launch, the kernel
    divides by the sum guarded with 1e-6, and the wrapper adds 1e-8 and
    renormalises. *)
Theorem softmax_forward_degenerate_row (junk : buf) :
  exists y,
    TritonSoftmax.forward junk degenerate_row = Ok y /\
    shape y = [1; 3] /\
    row_of (data y) 0 3 = [Fin (1 / 3); Fin (1 / 3); Fin (1 / 3)]%R.
Proof.
  eexists. split.
  { apply (@softmax_forward_view junk degenerate_row [1] 3);
      [reflexivity | discriminate | lia]. }
  split; [reflexivity|]. cbn [data].
  assert (H : forall j, j < 3 ->
            TritonSoftmax.forward2d junk (numel [1]) 3
              (data degenerate_row) (0 + j)
            = Fin (nth j [1 / 3; 1 / 3; 1 / 3]%R 0%R)).
  { intros j Hj. rewrite <- degenerate_row_result.
    change (0 + j) with (0 * 3 + j).
    apply forward2d_row; [lia | unfold numel; simpl; lia | | exact Hj].
    intros c _. discriminate. }
  unfold row_of. cbn [map seq].
  now rewrite (H 0), (H 1), (H 2) by lia.
Qed.

(* ================================================================== *)
(** * GELU: statements *)
(* ================================================================== *)

Section GeluConstant.
Local Open Scope R_scope.

Lemma PI_bounds : 3.1415 <= PI <= 3.1421.
Proof.
  pose proof (PI_2_3_7_ineq 1) as H.
  unfold tg_alt, PI_2_3_7_tg, Ratan_seq in H.
  simpl in H. lra.
Qed.

(** The literal the kernel names [sqrt_2_over_pi] is sqrt(2/pi) to
    four decimal places at least. *)
Lemma sqrt_2_over_pi_close :
  Rabs (sqrt_2_over_pi - sqrt (2 / PI)) <= 1e-4.
Proof.
  pose proof PI_bounds as [Hlo Hhi].
  assert (Hpos : 0 < PI) by lra.
  assert (H1 : 0.7978 * 0.7978 <= 2 / PI).
  { apply Rmult_le_reg_r with PI; [lra|].
    replace (2 / PI * PI) with 2 by (field; lra). lra. }
  assert (H2 : 2 / PI <= 0.7979 * 0.7979).
  { apply Rmult_le_reg_r with PI; [lra|].
    replace (2 / PI * PI) with 2 by (field; lra). lra. }
  assert (L : 0.7978 <= sqrt (2 / PI)).
  { rewrite <- (sqrt_square 0.7978) by lra. apply sqrt_le_1; lra. }
  assert (U : sqrt (2 / PI) <= 0.7979).
  { rewrite <- (sqrt_square 0.7979) by lra. apply sqrt_le_1; lra. }
  unfold sqrt_2_over_pi. apply Rabs_le. lra.
Qed.
End GeluConstant.

Lemma cdiv_covers (n B i : nat) : B <> 0 -> i < n -> i / B < cdiv n B.
Proof.
  intros HB Hi. unfold cdiv.
  assert (B * (i / B) <= i) by apply Nat.Div0.mul_div_le.
  assert (S (i / B) <= (n + B - 1) / B); [|lia].
  apply Nat.div_le_lower_bound; [exact HB | nia].
Qed.

(** Every element of the input reaches the output through the lane
    formula. *)
Lemma gelu_forward_elementwise (undef : nat -> nat -> fp) (junk : buf)
    (x : tensor) (i : nat) :
  i < numel (shape x) ->
  data (TritonGELU.forward undef junk x) i = gelu_lane (data x i).
Proof.
  intros Hi. unfold TritonGELU.forward. cbn [data].
  set (n := numel (shape x)) in *.
  pose proof (Nat.div_mod_eq i 1024) as Hdm.
  assert (Hc : i mod 1024 < 1024) by (apply Nat.mod_upper_bound; lia).
  set (r := i / 1024) in *. set (c := i mod 1024) in *.
  assert (Hi' : i = r * 1024 + c) by lia.
  apply launch_owner with (r := r).
  - apply cdiv_covers; [lia | exact Hi].
  - intros q. rewrite Hi'. apply gelu_kernel_valid; lia.
  - intros pid q _ Hne. apply gelu_kernel_frame. intros c' Hc' _. lia.
Qed.

(** C7.  At every valid lane [gelu_kernel] stores the lane formula of
    its input element; on a number [v] the formula is
    [0.5 * v * (1 + (v*coeff) / (1 + |v*coeff|))] with
    [coeff = sqrt_2_over_pi * (1 + 0.044715 * v^2)], where
    [sqrt_2_over_pi] is the kernel's literal for sqrt(2/pi); in
    particular GELU(0) = 0.  Through [TritonGELU.forward] this holds
    for every element of the input tensor. *)
Theorem gelu_kernel_formula :
  (forall (undef : nat -> fp) (x y : buf) (n B pid c : nat),
      c < B -> pid * B + c < n ->
      gelu_kernel undef x n B pid y (pid * B + c)
      = gelu_lane (x (pid * B + c)))
  /\
  (forall v : R,
      gelu_lane (Fin v)
      = Fin (let coeff := sqrt_2_over_pi * (1 + 0.044715 * v ^ 2) in
             0.5 * v * (1 + (v * coeff) / (1 + Rabs (v * coeff))))%R)
  /\
  gelu_lane (Fin 0) = Fin 0
  /\
  (Rabs (sqrt_2_over_pi - sqrt (2 / PI)) <= 1e-4)%R
  /\
  (forall (undef : nat -> nat -> fp) (junk : buf) (x : tensor) (i : nat),
      i < numel (shape x) ->
      data (TritonGELU.forward undef junk x) i = gelu_lane (data x i)).
Proof.
  split; [|split; [|split; [|split]]].
  - intros. now apply gelu_kernel_valid.
  - intros v. rewrite gelu_lane_fin. cbv zeta.
    replace (0.044715 * v ^ 2)%R with (0.044715 * v * v)%R by ring.
    reflexivity.
  - rewrite gelu_lane_fin. cbv zeta. f_equal. lra.
  - exact sqrt_2_over_pi_close.
  - exact gelu_forward_elementwise.
Qed.

Lemma gelu_kernel_formula_witness :
  gelu_kernel (fun _ => NaN) zero_buf 5 4 1 zero_buf (1 * 4 + 0)
  = gelu_lane (zero_buf (1 * 4 + 0)).
Proof.
  apply (proj1 gelu_kernel_formula (fun _ => NaN) zero_buf zero_buf
           5 4 1 0).
  - lia.
  - simpl. lia.
Defined.

(* ================================================================== *)
(** * Layer norm: the zero-variance row *)
(* ================================================================== *)

Lemma ln_mean_constant (c : R) (N : nat) :
  1 <= N -> ln_mean_R (repeat c N) = c.
Proof.
  intros HN. unfold ln_mean_R. rewrite Rsum_repeat, repeat_length.
  assert (0 < INR N)%R by (apply lt_0_INR; lia). field. lra.
Qed.

(** C8.  On a row whose [N] entries all equal [c] (zero variance),
    with numeric scale and bias, [eps > 0] and [BLOCK_SIZE >= N],
    [layer_norm_kernel] stores the bias at every valid lane; the
    reciprocal square root is a positive number: no division by zero,
    no NaN. *)
Theorem layer_norm_zero_variance_row (x w b out : buf) (N B pid : nat)
    (c e : R) (wr br : nat -> R) (j : nat) :
  1 <= N -> N <= B ->
  (forall k, k < N -> x (pid * N + k) = Fin c) ->
  (forall k, k < N -> w k = Fin (wr k)) ->
  (forall k, k < N -> b k = Fin (br k)) ->
  (0 < e)%R -> j < N ->
  layer_norm_kernel x w b N (Fin e) B pid out (pid * N + j) = b j /\
  b j = Fin (br j) /\
  exists s, ln_rstd x N (Fin e) B pid = Fin s /\ (0 < s)%R.
Proof.
  intros HN HNB Hx Hw Hb He Hj.
  assert (Hlen : length (repeat c N) = N) by apply repeat_length.
  assert (Hxs : forall k, k < N ->
            x (pid * N + k) = Fin (nth k (repeat c N) 0%R)).
  { intros k Hk. rewrite (nth_repeat_lt c 0%R Hk). now apply Hx. }
  split; [|split].
  - rewrite (@layer_norm_kernel_fin x w b out N B pid (repeat c N)
               wr br e j HN HNB Hlen Hxs Hw Hb He Hj).
    rewrite (Hb j Hj), (nth_repeat_lt c 0%R Hj), (ln_mean_constant c HN).
    f_equal. ring.
  - now apply Hb.
  - rewrite (@ln_rstd_fin x N B pid (repeat c N) HN HNB Hlen Hxs e He).
    eexists. split; [reflexivity|].
    pose proof (@ln_var_kernel_nonneg N B (repeat c N) HN HNB Hlen)
      as Hv.
    apply Rdiv_lt_0_compat; [lra|]. apply sqrt_lt_R0. lra.
Qed.

(** The specification's scenario: row [[2, 2, 2, 2]], eps = 1e-5, in
    the wrapper's block of 128 lanes, with scale 3 and bias 7. *)
Lemma layer_norm_zero_variance_row_witness :
  layer_norm_kernel (fun _ => Fin 2) (fun _ => Fin 3) (fun _ => Fin 7)
    4 (Fin 1e-5) 128 0 zero_buf (0 * 4 + 1) = Fin 7 /\
  Fin 7 = Fin 7 /\
  exists s,
    ln_rstd (fun _ => Fin 2) 4 (Fin 1e-5) 128 0 = Fin s /\ (0 < s)%R.
Proof.
  apply (@layer_norm_zero_variance_row
           (fun _ => Fin 2) (fun _ => Fin 3) (fun _ => Fin 7) zero_buf
           4 128 0 2%R 1e-5%R (fun _ => 3%R) (fun _ => 7%R) 1).
  - lia.
  - lia.
  - reflexivity.
  - reflexivity.
  - reflexivity.
  - lra.
  - lia.
Defined.

(* ================================================================== *)
(** * Masked lanes are never written *)
(* ================================================================== *)

(** C9.  In each of the three kernels every store is guarded by the
    validity mask.  A program instance leaves the output buffer
    unchanged at each of its lanes whose index is at or beyond the
    valid extent ([n_cols], [N], [n_elements]); and a whole launch
    changes the buffer only at addresses of valid lanes of launched
    programs. *)
Theorem masked_lanes_never_written :
  (* softmax_kernel *)
  (forall (input out : buf) (irs ors n_cols B pid c : nat),
      n_cols <= c ->
      softmax_kernel input irs ors n_cols B pid out (pid * ors + c)
      = out (pid * ors + c))
  /\
  (forall (input out : buf) (irs ors n_cols B grid a : nat),
      (forall pid c, pid < grid -> c < B -> c < n_cols ->
                     a <> pid * ors + c) ->
      launch grid (softmax_kernel input irs ors n_cols B) out a = out a)
  /\
  (* layer_norm_kernel *)
  (forall (x w b out : buf) (N : nat) (eps : fp) (B pid c : nat),
      N <= c ->
      layer_norm_kernel x w b N eps B pid out (pid * N + c)
      = out (pid * N + c))
  /\
  (forall (x w b out : buf) (N : nat) (eps : fp) (B grid a : nat),
      (forall pid c, pid < grid -> c < B -> c < N -> a <> pid * N + c) ->
      launch grid (layer_norm_kernel x w b N eps B) out a = out a)
  /\
  (* gelu_kernel *)
  (forall (undef : nat -> fp) (x y : buf) (n_elements B pid c : nat),
      n_elements <= pid * B + c ->
      gelu_kernel undef x n_elements B pid y (pid * B + c)
      = y (pid * B + c))
  /\
  (forall (undef : nat -> nat -> fp) (x y : buf)
          (n_elements B grid a : nat),
      n_elements <= a ->
      launch grid (fun pid => gelu_kernel (undef pid) x n_elements B pid)
             y a
      = y a).
Proof.
  repeat apply conj.
  - intros input out irs ors n B pid c Hc.
    apply softmax_kernel_frame. intros c' _ Hc'. lia.
  - intros input out irs ors n B grid a H.
    apply launch_frame. intros pid q Hpid.
    apply softmax_kernel_frame. intros c Hc Hn. now apply H.
  - intros x w b out N eps B pid c Hc.
    apply layer_norm_kernel_frame. intros c' _ Hc'. lia.
  - intros x w b out N eps B grid a H.
    apply launch_frame. intros pid q Hpid.
    apply layer_norm_kernel_frame. intros c Hc Hn. now apply H.
  - intros undef x y n B pid c Hc.
    apply gelu_kernel_frame. intros c' _ Hc'. lia.
  - intros undef x y n B grid a Ha.
    apply launch_frame. intros pid q Hpid.
    apply gelu_kernel_frame. intros c _ Hc. lia.
Qed.

(** Lane 3 of a four-lane block over a three-column row. *)
Lemma masked_lanes_never_written_witness :
  softmax_kernel row123 3 3 3 4 0 zero_buf (0 * 3 + 3)
  = zero_buf (0 * 3 + 3).
Proof.
  apply (proj1 masked_lanes_never_written row123 zero_buf 3 3 3 4 0 3).
  lia.
Defined.

(* ================================================================== *)
(** * The softmax wrapper's launch configuration *)
(* ================================================================== *)

Lemma BLOCK_SIZE_pow2 (N : nat) :
  1 <= N -> (Z.of_nat N <= 2 ^ 64)%Z ->
  TritonSoftmax.BLOCK_SIZE N = Z.to_nat (2 ^ Z.log2_up (Z.of_nat N)).
Proof.
  intros HN Hb. unfold TritonSoftmax.BLOCK_SIZE.
  rewrite NextPow2.next_power_of_2_log2 by lia. reflexivity.
Qed.

(** C10.  For an input of shape [lead ++ [N]] with at least one
    leading dimension and [1 <= N] (within the range of a 64-bit
    size), [TritonSoftmax.forward] launches [softmax_kernel] on the
    clamped input with one program per row ([grid] = number of rows
    [B = numel lead]) and with [BLOCK_SIZE] the least power of two
    that is at least [N]; hence the row-kernel precondition
    [BLOCK_SIZE >= n_cols] holds, and each valid lane [(r, j)] of the
    output is the lane of exactly one launched program. *)
Theorem softmax_launch_configuration (junk : buf) (x : tensor)
    (lead : list nat) (N : nat) :
  shape x = lead ++ [N] -> lead <> [] ->
  1 <= N -> (Z.of_nat N <= 2 ^ 64)%Z ->
  let B := numel lead in
  let grid := TritonSoftmax.grid B in
  let BLOCK_SIZE := TritonSoftmax.BLOCK_SIZE N in
  TritonSoftmax.forward junk x
  = Ok (Tensor (shape x)
          (let y :=
             launch grid
               (softmax_kernel
                  (fun i => Fp.clamp (-100) 100 (data x i)) N N N
                  BLOCK_SIZE) junk in
           let y' := fun i => Fp.add (y i) (Fin 1e-8%R) in
           fun i => Fp.div (y' i) (row_sum N y' (i / N)))) /\
  grid = B /\
  (exists k, BLOCK_SIZE = 2 ^ k) /\
  N <= BLOCK_SIZE /\
  (forall k, N <= 2 ^ k -> BLOCK_SIZE <= 2 ^ k) /\
  (forall r j, r < B -> j < N ->
      exists pid c,
        (pid < grid /\ c < BLOCK_SIZE /\ c < N /\
         pid * N + c = r * N + j) /\
        forall pid' c',
          pid' < grid -> c' < BLOCK_SIZE -> c' < N ->
          pid' * N + c' = r * N + j ->
          pid' = pid /\ c' = c).
Proof.
  intros Hs Hlead HN Hb B grid BLOCK_SIZE.
  pose proof (BLOCK_SIZE_ge N) as Hge.
  pose proof (BLOCK_SIZE_pow2 HN Hb) as Hp.
  assert (Hl : (0 <= Z.log2_up (Z.of_nat N))%Z) by apply Z.log2_up_nonneg.
  assert (Hz : Z.to_nat (2 ^ Z.log2_up (Z.of_nat N))
               = 2 ^ Z.to_nat (Z.log2_up (Z.of_nat N))).
  { apply Nat2Z.inj. rewrite Nat2Z.inj_pow, !Z2Nat.id; lia. }
  split; [|split; [reflexivity|split; [|split; [exact Hge|split]]]].
  - rewrite (softmax_forward_view junk x Hs Hlead HN).
    unfold TritonSoftmax.forward2d. now rewrite (stride0_pos HN).
  - exists (Z.to_nat (Z.log2_up (Z.of_nat N))).
    unfold BLOCK_SIZE. now rewrite Hp.
  - intros k Hk. unfold BLOCK_SIZE. rewrite Hp, Hz.
    apply Nat.pow_le_mono_r; [lia|].
    destruct (Nat.eq_dec N 1) as [->|Hne]; [simpl; lia|].
    assert (Z.log2_up (Z.of_nat N) <= Z.of_nat k)%Z; [|lia].
    apply Z.log2_up_le_pow2; [lia|].
    rewrite <- Nat2Z.inj_pow with (n := 2). lia.
  - subst B grid BLOCK_SIZE. unfold TritonSoftmax.grid.
    intros r j Hr Hj. exists r, j.
    split; [repeat split; lia|].
    intros pid' c' _ _ Hc' E.
    assert (pid' = r).
    { destruct (Nat.lt_trichotomy pid' r) as [H|[H|H]];
        [exfalso; nia | exact H | exfalso; nia]. }
    subst pid'. lia.
Qed.

Lemma softmax_launch_configuration_witness :
  TritonSoftmax.grid (numel [1]) = numel [1] /\
  (exists k, TritonSoftmax.BLOCK_SIZE 3 = 2 ^ k) /\
  3 <= TritonSoftmax.BLOCK_SIZE 3.
Proof.
  pose proof (@softmax_launch_configuration zero_buf masked_scores [1] 3
                ltac:(reflexivity) ltac:(discriminate) ltac:(lia)
                ltac:(apply Z.leb_le; reflexivity)) as H.
  cbv zeta in H.
  split; [exact (proj1 (proj2 H))|].
  split; [exact (proj1 (proj2 (proj2 H)))|].
  exact (proj1 (proj2 (proj2 (proj2 H)))).
Defined.

(* ================================================================== *)
(** * Launch order *)
(* ================================================================== *)

(** Program instances of one launch may execute in any order.  When
    each instance writes only addresses it owns, and no address has two
    owners, the buffer a launch leaves does not depend on the order. *)
Section Schedule.
Variable kernel : nat -> buf -> buf.
Variable owns : nat -> nat -> bool.
Variable val : nat -> nat -> fp.
Hypothesis Hval :
  forall pid a q, owns pid a = true -> kernel pid q a = val pid a.
Hypothesis Hframe :
  forall pid a q, owns pid a = false -> kernel pid q a = q a.
Hypothesis Hdisj :
  forall p p' a, owns p a = true -> owns p' a = true -> p = p'.

Lemma run_keeps (p a : nat) :
  owns p a = true ->
  forall order out, out a = val p a -> run order kernel out a = val p a.
Proof.
  intros Hp. unfold run.
  induction order as [|p' order IH]; intros out Hout; simpl; [exact Hout|].
  apply IH. destruct (owns p' a) eqn:E.
  - rewrite (@Hdisj p p' a Hp E). now apply Hval.
  - now rewrite Hframe.
Qed.

Lemma run_owned (p a : nat) :
  owns p a = true ->
  forall order out, In p order -> run order kernel out a = val p a.
Proof.
  intros Hp. induction order as [|p' order IH]; intros out Hin.
  - destruct Hin.
  - destruct (Nat.eq_dec p' p) as [->|Hne].
    + change (run (p :: order) kernel out)
        with (run order kernel (kernel p out)).
      apply run_keeps; [exact Hp | now apply Hval].
    + destruct Hin as [E|Hin]; [congruence|].
      change (run (p' :: order) kernel out)
        with (run order kernel (kernel p' out)).
      now apply IH.
Qed.

Lemma run_unowned (a : nat) :
  forall order out,
    (forall p, In p order -> owns p a = false) ->
    run order kernel out a = out a.
Proof.
  induction order as [|p order IH]; intros out H; [reflexivity|].
  change (run (p :: order) kernel out)
    with (run order kernel (kernel p out)).
  rewrite IH by (intros p' Hp'; apply H; now right).
  apply Hframe, H. now left.
Qed.

Lemma schedule_independent (order1 order2 : list nat) :
  (forall p, In p order1 <-> In p order2) ->
  forall out a, run order1 kernel out a = run order2 kernel out a.
Proof.
  intros Hperm out a.
  destruct (existsb (fun p => owns p a) order1) eqn:E.
  - apply existsb_exists in E. destruct E as (p & Hin & Hp).
    rewrite (@run_owned p a Hp order1 out Hin).
    symmetry. apply run_owned; [exact Hp | now apply Hperm].
  - assert (H1 : forall p, In p order1 -> owns p a = false).
    { intros p Hin. destruct (owns p a) eqn:Hp; [|reflexivity].
      assert (existsb (fun p => owns p a) order1 = true)
        by (apply existsb_exists; eauto).
      congruence. }
    rewrite (@run_unowned a order1 out H1).
    symmetry. apply run_unowned. intros p Hin. apply H1. now apply Hperm.
Qed.
End Schedule.

(** The launches of the three wrappers: whatever the order in which
    the launched program instances run, the buffer is the one
    [launch] computes. *)
Lemma softmax_launch_any_order (x out : buf) (B N : nat)
    (order : list nat) :
  1 <= N ->
  (forall p, In p order <-> p < B) ->
  forall a,
    run order
      (softmax_kernel x (stride0 N) (stride0 N) N
         (TritonSoftmax.BLOCK_SIZE N)) out a
    = launch (TritonSoftmax.grid B)
        (softmax_kernel x (stride0 N) (stride0 N) N
           (TritonSoftmax.BLOCK_SIZE N)) out a.
Proof.
  intros HN Hord a. rewrite (stride0_pos HN). unfold launch.
  apply (@schedule_independent _
           (fun pid a => Nat.leb (pid * N) a && Nat.ltb a (pid * N + N))
           (fun pid a =>
              nth (a - pid * N) (softmax_row_spec (row_of x (pid * N) N))
                  NaN)).
  - intros pid a' q H. apply andb_true_iff in H. destruct H as [H1 H2].
    apply Nat.leb_le in H1. apply Nat.ltb_lt in H2.
    replace a' with (pid * N + (a' - pid * N)) at 1 by lia.
    apply softmax_kernel_valid; [apply BLOCK_SIZE_ge | lia].
  - intros pid a' q H. apply softmax_kernel_frame. intros c _ Hc E.
    subst a'. apply andb_false_iff in H. destruct H as [H|H].
    + apply Nat.leb_gt in H. lia.
    + apply Nat.ltb_ge in H. lia.
  - intros p p' a' H H'.
    apply andb_true_iff in H, H'. destruct H as [H1 H2], H' as [H1' H2'].
    apply Nat.leb_le in H1, H1'. apply Nat.ltb_lt in H2, H2'.
    destruct (Nat.lt_trichotomy p p') as [L|[L|L]];
      [exfalso; nia | exact L | exfalso; nia].
  - intros p. rewrite Hord, in_seq. unfold TritonSoftmax.grid. lia.
Qed.

Lemma layer_norm_launch_any_order (x w b out : buf) (N : nat) (eps : fp)
    (B grid : nat) (order : list nat) :
  (forall p, In p order <-> p < grid) ->
  forall a,
    run order (layer_norm_kernel x w b N eps B) out a
    = launch grid (layer_norm_kernel x w b N eps B) out a.
Proof.
  intros Hord a. unfold launch.
  apply (@schedule_independent _
           (fun pid a =>
              Nat.leb (pid * N) a && Nat.ltb a (pid * N + Nat.min N B))
           (fun pid a =>
              nth (a - pid * N) (layer_norm_block x w b N eps B pid) NaN)).
  - intros pid a' q H. apply andb_true_iff in H. destruct H as [H1 H2].
    apply Nat.leb_le in H1. apply Nat.ltb_lt in H2.
    replace a' with (pid * N + (a' - pid * N)) at 1 by lia.
    apply layer_norm_kernel_valid; lia.
  - intros pid a' q H. apply layer_norm_kernel_frame. intros c HcB HcN E.
    subst a'. apply andb_false_iff in H. destruct H as [H|H].
    + apply Nat.leb_gt in H. lia.
    + apply Nat.ltb_ge in H. lia.
  - intros p p' a' H H'.
    apply andb_true_iff in H, H'. destruct H as [H1 H2], H' as [H1' H2'].
    apply Nat.leb_le in H1, H1'. apply Nat.ltb_lt in H2, H2'.
    destruct (Nat.lt_trichotomy p p') as [L|[L|L]];
      [exfalso; nia | exact L | exfalso; nia].
  - intros p. rewrite Hord, in_seq. lia.
Qed.

Lemma gelu_launch_any_order (undef : nat -> nat -> fp) (x out : buf)
    (n B grid : nat) (order : list nat) :
  (forall p, In p order <-> p < grid) ->
  forall a,
    run order (fun pid => gelu_kernel (undef pid) x n B pid) out a
    = launch grid (fun pid => gelu_kernel (undef pid) x n B pid) out a.
Proof.
  intros Hord a. unfold launch.
  apply (@schedule_independent _
           (fun pid a =>
              Nat.leb (pid * B) a && Nat.ltb a (pid * B + B)
              && Nat.ltb a n)
           (fun pid a => gelu_lane (x a))).
  - intros pid a' q H. apply andb_true_iff in H. destruct H as [H H3].
    apply andb_true_iff in H. destruct H as [H1 H2].
    apply Nat.leb_le in H1. apply Nat.ltb_lt in H2, H3.
    replace a' with (pid * B + (a' - pid * B)) by lia.
    apply gelu_kernel_valid; lia.
  - intros pid a' q H. apply gelu_kernel_frame. intros c HcB Hcn E.
    subst a'. apply andb_false_iff in H. destruct H as [H|H].
    + apply andb_false_iff in H. destruct H as [H|H].
      * apply Nat.leb_gt in H. lia.
      * apply Nat.ltb_ge in H. lia.
    + apply Nat.ltb_ge in H. lia.
  - intros p p' a' H H'.
    apply andb_true_iff in H, H'. destruct H as [H _], H' as [H' _].
    apply andb_true_iff in H, H'. destruct H as [H1 H2], H' as [H1' H2'].
    apply Nat.leb_le in H1, H1'. apply Nat.ltb_lt in H2, H2'.
    destruct (Nat.lt_trichotomy p p') as [L|[L|L]];
      [exfalso; nia | exact L | exfalso; nia].
  - intros p. rewrite Hord, in_seq. lia.
Qed.

(* ================================================================== *)
(** * Vocabulary, [encode] and [decode], [get_batch] *)
(* ================================================================== *)

Module VocabFacts.
Import Vocab.

Lemma insert_sorted_in (c x : nat) (l : list nat) :
  In x (insert_sorted c l) <-> x = c \/ In x l.
Proof.
  induction l as [|d l IH]; simpl.
  - intuition.
  - destruct (Nat.leb c d); simpl; [intuition|]. rewrite IH. intuition.
Qed.

Lemma sorted_in (x : nat) (l : list nat) : In x (sorted l) <-> In x l.
Proof.
  unfold sorted. induction l as [|c l IH]; simpl; [tauto|].
  rewrite insert_sorted_in, IH. intuition.
Qed.

Lemma insert_sorted_strict (c : nat) (l : list nat) :
  StronglySorted Nat.lt l -> ~ In c l ->
  StronglySorted Nat.lt (insert_sorted c l).
Proof.
  induction l as [|d l IH]; intros Hs Hc; simpl.
  - constructor; constructor.
  - pose proof (StronglySorted_inv Hs) as [Hs' Hd].
    destruct (Nat.leb_spec c d) as [Hle|Hgt].
    + assert (c < d) by (simpl in Hc; lia).
      constructor; [exact Hs|]. constructor; [assumption|].
      rewrite Forall_forall in *. intros y Hy. specialize (Hd y Hy). lia.
    + constructor.
      * apply IH; [assumption | simpl in Hc; tauto].
      * rewrite Forall_forall in *. intros y Hy.
        apply insert_sorted_in in Hy. destruct Hy as [->|Hy]; auto.
Qed.

Lemma sorted_strict (l : list nat) :
  NoDup l -> StronglySorted Nat.lt (sorted l).
Proof.
  unfold sorted. induction 1 as [|c l Hc Hnd IH]; simpl.
  - constructor.
  - apply insert_sorted_strict; [assumption|].
    fold (sorted l). now rewrite sorted_in.
Qed.

Lemma strict_sorted_unique (l l' : list nat) :
  StronglySorted Nat.lt l -> StronglySorted Nat.lt l' ->
  (forall x, In x l <-> In x l') -> l = l'.
Proof.
  revert l'. induction l as [|a l IH]; intros l' Hs Hs' Hin.
  - destruct l' as [|b l']; [reflexivity|].
    exfalso. apply (Hin b). now left.
  - destruct l' as [|b l'].
    { exfalso. apply (Hin a). now left. }
    apply StronglySorted_inv in Hs. destruct Hs as [Hsl Ha].
    apply StronglySorted_inv in Hs'. destruct Hs' as [Hsl' Hb].
    rewrite Forall_forall in Ha, Hb.
    assert (a = b).
    { assert (Hab : In a (b :: l')) by (apply Hin; now left).
      assert (Hba : In b (a :: l)) by (apply Hin; now left).
      destruct Hab as [->|Hab]; [reflexivity|].
      destruct Hba as [->|Hba]; [reflexivity|].
      specialize (Ha b Hba). specialize (Hb a Hab). lia. }
    subst b. f_equal. apply IH; [assumption | assumption|].
    intros x. split; intros Hx.
    + assert (H : In x (a :: l')) by (apply Hin; now right).
      destruct H as [<-|H]; [|exact H].
      specialize (Ha a Hx). lia.
    + assert (H : In x (a :: l)) by (apply Hin; now right).
      destruct H as [<-|H]; [|exact H].
      specialize (Hb a Hx). lia.
Qed.

Lemma chars_sorted (text : list nat) : StronglySorted Nat.lt (chars text).
Proof. apply sorted_strict, NoDup_nodup. Qed.

Lemma chars_in (text : list nat) (c : nat) :
  In c (chars text) <-> In c text.
Proof. unfold chars, list_set. now rewrite sorted_in, nodup_In. Qed.

Lemma chars_nodup (text : list nat) : NoDup (chars text).
Proof.
  pose proof (chars_sorted text) as H.
  induction H as [|a l Hs IH Ha]; constructor; [|assumption].
  intros Hin. rewrite Forall_forall in Ha. specialize (Ha a Hin). lia.
Qed.

Lemma itos_fold (l : list nat) :
  forall (s : nat) (d0 : dict nat) (k : nat),
    fold_left (fun d ic => set_item d (fst ic) (snd ic))
              (enumerate_from s l) d0 k
    = if Nat.leb s k && Nat.ltb k (s + length l)
      then nth_error l (k - s) else d0 k.
Proof.
  induction l as [|a l IH]; intros s d0 k;
    cbn [enumerate_from fold_left length fst snd].
  - destruct (Nat.leb_spec s k), (Nat.ltb_spec k (s + 0));
      cbn [andb]; try reflexivity; lia.
  - rewrite IH. unfold set_item.
    destruct (Nat.leb_spec (S s) k), (Nat.ltb_spec k (S s + length l)),
      (Nat.leb_spec s k), (Nat.ltb_spec k (s + S (length l)));
      cbn [andb]; try lia.
    + replace (k - s) with (S (k - S s)) by lia. reflexivity.
    + destruct (Nat.eqb_spec k s); [lia | reflexivity].
    + destruct (Nat.eqb_spec k s) as [->|]; [|lia].
      now rewrite Nat.sub_diag.
    + destruct (Nat.eqb_spec k s); [lia | reflexivity].
Qed.

Lemma stoi_fold (l : list nat) :
  forall (s : nat) (d0 : dict nat) (c : nat),
    NoDup l ->
    fold_left (fun d ic => set_item d (snd ic) (fst ic))
              (enumerate_from s l) d0 c
    = match find (fun j => match nth_error l j with
                           | Some c' => Nat.eqb c' c
                           | None => false
                           end) (seq 0 (length l)) with
      | Some j => Some (s + j)
      | None => d0 c
      end.
Proof.
  induction l as [|a l IH]; intros s d0 c Hnd; simpl; [reflexivity|].
  apply NoDup_cons_iff in Hnd. destruct Hnd as [Ha Hnd].
  rewrite (IH (S s) _ c Hnd). unfold set_item.
  rewrite <- seq_shift.
  assert (Hfind : forall (f : nat -> bool) (m : list nat),
            find f (map S m) = option_map S (find (fun j => f (S j)) m)).
  { intros f m. induction m as [|x m IHm]; simpl; [reflexivity|].
    destruct (f (S x)); [reflexivity | exact IHm]. }
  rewrite Hfind. simpl nth_error.
  destruct (find _ (seq 0 (length l))) as [j|] eqn:E.
  - simpl. apply find_some in E. destruct E as [_ E].
    destruct (nth_error l j) as [c'|] eqn:Ej; [|discriminate].
    apply Nat.eqb_eq in E. subst c'.
    destruct (Nat.eqb_spec a c) as [->|Hne].
    + exfalso. apply Ha. eapply nth_error_In; eauto.
    + f_equal. lia.
  - simpl. destruct (Nat.eqb_spec c a) as [->|Hne].
    + rewrite Nat.eqb_refl. f_equal. lia.
    + destruct (Nat.eqb_spec a c); [congruence | reflexivity].
Qed.

Lemma itos_spec (text : list nat) (i : nat) :
  itos text i = nth_error (chars text) i.
Proof.
  unfold itos, enumerate. rewrite itos_fold. simpl.
  rewrite Nat.sub_0_r.
  destruct (Nat.ltb_spec i (length (chars text))); [reflexivity|].
  symmetry. now apply nth_error_None.
Qed.

Lemma stoi_spec (text : list nat) (c i : nat) :
  stoi text c = Some i <-> nth_error (chars text) i = Some c.
Proof.
  unfold stoi, enumerate. rewrite stoi_fold by apply chars_nodup.
  set (l := chars text).
  destruct (find _ (seq 0 (length l))) as [j|] eqn:E.
  - pose proof (find_some _ _ E) as [_ Hj].
    destruct (nth_error l j) as [c'|] eqn:Ej; [|discriminate].
    apply Nat.eqb_eq in Hj. subst c'. simpl. split.
    + intros [= <-]. exact Ej.
    + intros Hi. f_equal.
      pose proof (chars_nodup text) as Hnd. fold l in Hnd.
      rewrite NoDup_nth_error in Hnd. apply Hnd; [|congruence].
      apply nth_error_Some. congruence.
  - unfold empty. split; [discriminate|]. intros Hi. exfalso.
    assert (Hlt : i < length l) by (apply nth_error_Some; congruence).
    assert (Hin : In i (seq 0 (length l))) by (apply in_seq; lia).
    pose proof (find_none _ _ E i Hin) as Hn. cbv beta in Hn.
    rewrite Hi, Nat.eqb_refl in Hn. discriminate.
Qed.

Lemma insert_sorted_length (c : nat) (l : list nat) :
  length (insert_sorted c l) = S (length l).
Proof.
  induction l as [|d l IH]; simpl; [reflexivity|].
  destruct (Nat.leb c d); simpl; [reflexivity | now rewrite IH].
Qed.

Lemma sorted_length (l : list nat) : length (sorted l) = length l.
Proof.
  unfold sorted. induction l as [|c l IH]; simpl; [reflexivity|].
  now rewrite insert_sorted_length, IH.
Qed.

Lemma nodup_length_le (l : list nat) :
  length (nodup Nat.eq_dec l) <= length l.
Proof.
  induction l as [|c l IH]; simpl; [lia|].
  destruct (in_dec Nat.eq_dec c l); simpl; lia.
Qed.

Lemma lookup_all_value (d : dict nat) (ks vs : list nat) :
  lookup_all d ks = Value vs <-> Forall2 (fun k v => d k = Some v) ks vs.
Proof.
  revert vs. induction ks as [|k ks IH]; intros vs; simpl.
  - split.
    + intros [= <-]. constructor.
    + intros H. inversion H. reflexivity.
  - unfold get_item. destruct (d k) as [v|] eqn:Ek.
    + destruct (lookup_all d ks) as [vs'|k'] eqn:El.
      * split.
        -- intros [= <-]. constructor; [exact Ek | now apply IH].
        -- intros H. inversion H as [|? v0 ? vs0 Hk Hrest]; subst.
           apply IH in Hrest. congruence.
      * split; [discriminate|].
        intros H. inversion H as [|? v0 ? vs0 Hk Hrest]; subst.
        apply IH in Hrest. discriminate.
    + split; [discriminate|].
      intros H. inversion H as [|? v0 ? vs0 Hk Hrest]; subst. congruence.
Qed.

Lemma lookup_all_error (d : dict nat) (ks : list nat) (k : nat) :
  lookup_all d ks = KeyError k <->
  exists pre post,
    ks = pre ++ k :: post /\ (forall x, In x pre -> d x <> None) /\
    d k = None.
Proof.
  induction ks as [|k0 ks IH]; simpl.
  - split; [discriminate|].
    intros (pre & post & E & _). destruct pre; discriminate.
  - unfold get_item. destruct (d k0) as [v|] eqn:Ek.
    + destruct (lookup_all d ks) as [vs'|k'] eqn:El.
      * split; [discriminate|].
        intros (pre & post & E & Hpre & Hk).
        destruct pre as [|p pre]; simpl in E; injection E as -> ->.
        -- congruence.
        -- assert (@Value (list nat) vs' = KeyError k); [|discriminate].
           apply IH. exists pre, post. split; [reflexivity|].
           split; [|exact Hk]. intros x Hx. apply Hpre. now right.
      * split.
        -- intros [= ->]. destruct (proj1 IH eq_refl)
             as (pre & post & -> & Hpre & Hk).
           exists (k0 :: pre), post. split; [reflexivity|].
           split; [|exact Hk]. intros x [<-|Hx]; [congruence | auto].
        -- intros (pre & post & E & Hpre & Hk).
           destruct pre as [|p pre]; simpl in E; injection E as -> ->.
           ++ congruence.
           ++ f_equal. assert (H : KeyError k' = @KeyError (list nat) k);
                [|congruence].
              apply IH. exists pre, post. split; [reflexivity|].
              split; [|exact Hk]. intros x Hx. apply Hpre. now right.
    + split.
      * intros [= <-]. exists [], ks. split; [reflexivity|].
        split; [intros ? [] | exact Ek].
      * intros (pre & post & E & Hpre & Hk).
        destruct pre as [|p pre]; simpl in E; injection E as -> ->.
        -- reflexivity.
        -- exfalso. apply (Hpre p); [now left | exact Ek].
Qed.

Lemma stoi_some_iff_in (text : list nat) (c : nat) :
  In c text <-> exists i, stoi text c = Some i.
Proof.
  rewrite <- chars_in. split.
  - intros H. apply In_nth_error in H. destruct H as [i Hi].
    exists i. now apply stoi_spec.
  - intros [i Hi]. apply stoi_spec in Hi. eapply nth_error_In; eauto.
Qed.

Lemma stoi_none_iff (text : list nat) (c : nat) :
  stoi text c = None <-> ~ In c text.
Proof.
  rewrite stoi_some_iff_in. split.
  - intros H [i Hi]. congruence.
  - intros H. destruct (stoi text c) as [i|] eqn:E; [|reflexivity].
    exfalso. apply H. now exists i.
Qed.

Lemma stoi_itos_spec (text : list nat) (c i : nat) :
  stoi text c = Some i <-> itos text i = Some c.
Proof. now rewrite stoi_spec, itos_spec. Qed.

Lemma itos_some_iff_below (text : list nat) (i : nat) :
  i < vocab_size text <-> exists c, itos text i = Some c.
Proof.
  unfold vocab_size. rewrite <- nth_error_Some, itos_spec.
  destruct (nth_error (chars text) i) as [c|]; split;
    try congruence; eauto.
  intros [c H]. discriminate.
Qed.

(** X1.  [chars] lists the distinct characters of the text in strictly
    increasing order; it is the only such list, whatever order the set
    yields its elements in; and there are at most [len(text)] of
    them. *)
Theorem vocabulary_sorted_distinct (text : list nat) :
  StronglySorted Nat.lt (chars text) /\
  (forall c, In c (chars text) <-> In c text) /\
  (forall l, StronglySorted Nat.lt l -> (forall c, In c l <-> In c text) ->
             l = chars text) /\
  (forall order, NoDup order -> (forall c, In c order <-> In c text) ->
                 sorted order = chars text) /\
  vocab_size text <= length text.
Proof.
  split; [apply chars_sorted|]. split; [apply chars_in|].
  split; [|split].
  - intros l Hs Hin. apply strict_sorted_unique;
      [exact Hs | apply chars_sorted |].
    intros c. now rewrite Hin, chars_in.
  - intros order Hnd Hin. apply strict_sorted_unique;
      [now apply sorted_strict | apply chars_sorted |].
    intros c. now rewrite sorted_in, Hin, chars_in.
  - unfold vocab_size, chars, list_set. rewrite sorted_length.
    apply nodup_length_le.
Qed.

Lemma vocabulary_sorted_distinct_witness :
  sorted [104; 101; 108; 111] = chars [104; 101; 108; 108; 111] /\
  vocab_size [104; 101; 108; 108; 111] <= 5.
Proof.
  pose proof (@vocabulary_sorted_distinct [104; 101; 108; 108; 111]) as H.
  split.
  - apply (proj1 (proj2 (proj2 (proj2 H)))).
    + repeat constructor; simpl; intuition discriminate.
    + intros c. simpl. intuition.
  - exact (proj2 (proj2 (proj2 (proj2 H)))).
Defined.

(** X2.  [stoi] and [itos] are inverse to each other; [stoi] is defined
    exactly on the characters of the text and [itos] exactly on the
    indices below [vocab_size]. *)
Theorem stoi_itos_inverse (text : list nat) :
  (forall c i, stoi text c = Some i <-> itos text i = Some c) /\
  (forall c, In c text <-> exists i, stoi text c = Some i) /\
  (forall i, i < vocab_size text <-> exists c, itos text i = Some c).
Proof.
  split; [|split].
  - intros c i. now rewrite stoi_spec, itos_spec.
  - apply stoi_some_iff_in.
  - apply itos_some_iff_below.
Qed.

(** X3.  A string all of whose characters occur in the text is encoded
    to indices below [vocab_size], one per character, and [decode]
    gives the string back. *)
Theorem encode_decode_roundtrip (text s : list nat) :
  (forall c, In c s -> In c text) ->
  exists idx,
    encode text s = Value idx /\
    decode text idx = Value s /\
    length idx = length s /\
    Forall (fun i => i < vocab_size text) idx.
Proof.
  intros Hs.
  assert (Hex : exists idx, Forall2 (fun c i => stoi text c = Some i) s idx).
  { induction s as [|c s IH].
    - exists []. constructor.
    - destruct IH as [idx Hidx]; [intros x Hx; apply Hs; now right|].
      destruct (proj1 (stoi_some_iff_in text c)) as [i Hi];
        [apply Hs; now left|].
      exists (i :: idx). now constructor. }
  destruct Hex as [idx Hidx]. exists idx.
  split; [now apply lookup_all_value|].
  split; [|split].
  - apply lookup_all_value.
    induction Hidx as [|c i s idx Hc _ IH]; constructor.
    + now apply (proj1 (stoi_itos_spec text c i)).
    + apply IH. intros x Hx. apply Hs. now right.
  - symmetry. eapply Forall2_length; eauto.
  - clear Hs. induction Hidx as [|c i s idx Hc _ IH]; constructor; [|exact IH].
    unfold vocab_size. apply nth_error_Some.
    apply stoi_spec in Hc. congruence.
Qed.

Lemma encode_decode_roundtrip_witness :
  exists idx,
    encode [104; 101; 108; 108; 111] [108; 101] = Value idx /\
    decode [104; 101; 108; 108; 111] idx = Value [108; 101] /\
    length idx = 2 /\
    Forall (fun i => i < vocab_size [104; 101; 108; 108; 111]) idx.
Proof.
  apply (@encode_decode_roundtrip [104; 101; 108; 108; 111] [108; 101]).
  intros c Hc. simpl in *. intuition.
Defined.

(** X4.  Indices below [vocab_size] are decoded to characters of the
    text, and [encode] gives the indices back. *)
Theorem decode_encode_roundtrip (text idx : list nat) :
  Forall (fun i => i < vocab_size text) idx ->
  exists s,
    decode text idx = Value s /\
    encode text s = Value idx /\
    (forall c, In c s -> In c text).
Proof.
  intros Hidx.
  assert (Hex : exists s, Forall2 (fun i c => itos text i = Some c) idx s).
  { induction Hidx as [|i idx Hi _ IH].
    - exists []. constructor.
    - destruct IH as [s Hs].
      destruct (proj1 (itos_some_iff_below text i) Hi) as [c Hc].
      exists (c :: s). now constructor. }
  destruct Hex as [s Hs]. exists s.
  split; [now apply lookup_all_value|]. split.
  - apply lookup_all_value. clear Hidx.
    induction Hs as [|i c idx s Hi _ IH]; constructor; [|exact IH].
    now apply stoi_itos_spec.
  - clear Hidx. induction Hs as [|i c idx s Hi _ IH]; [intros ? []|].
    intros x [<-|Hx]; [|now apply IH].
    apply stoi_some_iff_in. exists i. now apply stoi_itos_spec.
Qed.

Lemma decode_encode_roundtrip_witness :
  exists s,
    decode [104; 101; 108; 108; 111] [3; 0] = Value s /\
    encode [104; 101; 108; 108; 111] s = Value [3; 0] /\
    (forall c, In c s -> In c [104; 101; 108; 108; 111]).
Proof.
  apply (@decode_encode_roundtrip [104; 101; 108; 108; 111] [3; 0]).
  repeat constructor.
Defined.

(** X5.  [encode] raises [KeyError(c)] exactly when [c] is the first
    character of the string that does not occur in the text; [decode]
    raises [KeyError(i)] exactly when [i] is the first index that is
    not below [vocab_size]. *)
Theorem encode_decode_key_errors (text : list nat) :
  (forall s c,
      encode text s = KeyError c <->
      exists pre post,
        s = pre ++ c :: post /\ (forall x, In x pre -> In x text) /\
        ~ In c text) /\
  (forall idx i,
      decode text idx = KeyError i <->
      exists pre post,
        idx = pre ++ i :: post /\
        (forall j, In j pre -> j < vocab_size text) /\
        vocab_size text <= i).
Proof.
  split.
  - intros s c. unfold encode. rewrite lookup_all_error.
    split; intros (pre & post & E & Hpre & Hc); exists pre, post;
      (split; [exact E|]); split.
    + intros x Hx. apply stoi_some_iff_in.
      destruct (stoi text x) as [i|] eqn:Ei; [eauto|].
      exfalso. now apply (Hpre x Hx).
    + now apply stoi_none_iff.
    + intros x Hx Hn. apply stoi_none_iff in Hn. apply Hn, Hpre, Hx.
    + now apply stoi_none_iff.
  - intros idx i. unfold decode. rewrite lookup_all_error.
    assert (Hnone : forall j, itos text j = None <-> vocab_size text <= j).
    { intros j. rewrite itos_spec. apply nth_error_None. }
    split; intros (pre & post & E & Hpre & Hc); exists pre, post;
      (split; [exact E|]); split.
    + intros j Hj. specialize (Hpre j Hj).
      destruct (Nat.lt_ge_cases j (vocab_size text)) as [|Hge]; [assumption|].
      apply Hnone in Hge. contradiction.
    + now apply Hnone.
    + intros j Hj Hn. apply Hnone in Hn. specialize (Hpre j Hj). lia.
    + now apply Hnone.
Qed.

Lemma slice_length (A : Type) (l : list A) (i L : nat) :
  i + L <= length l -> length (slice l i (i + L)) = L.
Proof.
  intros H. unfold slice. rewrite length_firstn, length_skipn. lia.
Qed.

Lemma slice_nth (A : Type) (l : list A) (i L t : nat) (d : A) :
  t < L -> nth t (slice l i (i + L)) d = nth (i + t) l d.
Proof.
  intros H. unfold slice.
  replace (i + L - i) with L by lia.
  rewrite nth_firstn. destruct (Nat.ltb_spec t L); [|lia].
  apply nth_skipn.
Qed.

Lemma stack_same_length (rows : list (list nat)) (L : nat) :
  rows <> [] -> (forall r, In r rows -> length r = L) ->
  stack rows = Some rows.
Proof.
  intros Hne Hlen. destruct rows as [|r rows]; [congruence|]. simpl.
  replace (forallb _ rows) with true; [reflexivity|].
  symmetry. apply forallb_forall. intros r' Hr'. apply Nat.eqb_eq.
  rewrite (Hlen r), (Hlen r'); simpl; auto.
Qed.

(** X6.  When every drawn start index is below [len(data) - seq_length]
    (the range [torch.randint] draws from) and the batch is not empty,
    [get_batch] succeeds: every input row and every target row has
    exactly [seq_length] elements, input row [b] is the window of
    [data] starting at [ix[b]], and target row [b] is the same window
    moved one position to the right, so that target [t] is the element
    that follows input [t]. *)
Theorem get_batch_windows (data : list nat) (seq_length : nat)
    (ix : list nat) :
  ix <> [] ->
  (forall i, In i ix -> i < length data - seq_length) ->
  exists x y,
    get_batch data seq_length ix = Some (x, y) /\
    length x = length ix /\ length y = length ix /\
    forall b, b < length ix ->
      length (nth b x []) = seq_length /\
      length (nth b y []) = seq_length /\
      forall t, t < seq_length ->
        nth t (nth b x []) 0 = nth (nth b ix 0 + t) data 0 /\
        nth t (nth b y []) 0 = nth (nth b ix 0 + t + 1) data 0.
Proof.
  intros Hne Hix. unfold get_batch.
  set (xs := map (fun i => slice data i (i + seq_length)) ix).
  set (ys := map (fun i => slice data (i + 1) (i + seq_length + 1)) ix).
  assert (Hxs : stack xs = Some xs).
  { apply stack_same_length with seq_length.
    - unfold xs. destruct ix; [congruence | discriminate].
    - intros r Hr. unfold xs in Hr. apply in_map_iff in Hr.
      destruct Hr as (i & <- & Hi). apply slice_length.
      specialize (Hix i Hi). lia. }
  assert (Hys : stack ys = Some ys).
  { apply stack_same_length with seq_length.
    - unfold ys. destruct ix; [congruence | discriminate].
    - intros r Hr. unfold ys in Hr. apply in_map_iff in Hr.
      destruct Hr as (i & <- & Hi).
      replace (i + seq_length + 1) with (i + 1 + seq_length) by lia.
      apply slice_length. specialize (Hix i Hi). lia. }
  rewrite Hxs, Hys. exists xs, ys. split; [reflexivity|].
  split; [unfold xs; apply length_map|].
  split; [unfold ys; apply length_map|].
  intros b Hb.
  assert (Hi : nth b ix 0 < length data - seq_length)
    by (apply Hix, nth_In, Hb).
  set (i := nth b ix 0) in *.
  assert (Hxb : nth b xs [] = slice data i (i + seq_length)).
  { unfold xs, i.
    rewrite (nth_indep _ [] (slice data 0 (0 + seq_length)))
      by (now rewrite length_map).
    apply (map_nth (fun i => slice data i (i + seq_length))). }
  assert (Hyb : nth b ys [] = slice data (i + 1) (i + 1 + seq_length)).
  { unfold ys, i.
    rewrite (nth_indep _ [] (slice data (0 + 1) (0 + seq_length + 1)))
      by (now rewrite length_map).
    rewrite (map_nth (fun i => slice data (i + 1) (i + seq_length + 1))).
    f_equal. lia. }
  rewrite Hxb, Hyb.
  split; [apply slice_length; lia|].
  split; [apply slice_length; lia|].
  intros t Ht. rewrite !slice_nth by assumption.
  split; [reflexivity | f_equal; lia].
Qed.

Lemma get_batch_windows_witness :
  exists x y,
    get_batch [10; 11; 12; 13; 14; 15] 3 [2; 0] = Some (x, y) /\
    length x = 2 /\ length y = 2 /\
    forall b, b < 2 ->
      length (nth b x []) = 3 /\
      length (nth b y []) = 3 /\
      forall t, t < 3 ->
        nth t (nth b x []) 0
        = nth (nth b [2; 0] 0 + t) [10; 11; 12; 13; 14; 15] 0 /\
        nth t (nth b y []) 0
        = nth (nth b [2; 0] 0 + t + 1) [10; 11; 12; 13; 14; 15] 0.
Proof.
  apply (@get_batch_windows [10; 11; 12; 13; 14; 15] 3 [2; 0]).
  - discriminate.
  - intros i Hi. simpl in *. lia.
Defined.
End VocabFacts.

(* ================================================================== *)
(** * More on rows of numbers *)
(* ================================================================== *)

Section RealRowsMore.
Local Open Scope R_scope.

Lemma fold_Rmax_ge (l : list R) :
  forall a, a <= fold_left Rmax l a /\
            forall x, In x l -> x <= fold_left Rmax l a.
Proof.
  induction l as [|y l IH]; intros a; simpl.
  - split; [lra | intros ? []].
  - destruct (IH (Rmax a y)) as [H1 H2].
    pose proof (Rmax_l a y). pose proof (Rmax_r a y).
    split; [lra|]. intros x [<-|Hx]; [lra | now apply H2].
Qed.

Lemma fold_Rmax_in (l : list R) :
  forall a, In (fold_left Rmax l a) (a :: l).
Proof.
  induction l as [|y l IH]; intros a; simpl; [now left|].
  destruct (IH (Rmax a y)) as [H|H]; [|right; now right].
  rewrite <- H. unfold Rmax. destruct (Rle_dec a y); [right|]; now left.
Qed.

Lemma Rmaxl_ge (xs : list R) (x : R) : In x xs -> x <= Rmaxl xs.
Proof.
  destruct xs as [|a l]; [intros []|]. unfold Rmaxl.
  destruct (fold_Rmax_ge l a) as [H1 H2].
  intros [<-|Hx]; [exact H1 | now apply H2].
Qed.

Lemma Rmaxl_in (xs : list R) : xs <> [] -> In (Rmaxl xs) xs.
Proof.
  destruct xs as [|a l]; [congruence|]. intros _. apply fold_Rmax_in.
Qed.

Lemma fold_Rmax_shift (c : R) (l : list R) :
  forall a, fold_left Rmax (map (fun x => x + c) l) (a + c)
            = fold_left Rmax l a + c.
Proof.
  induction l as [|y l IH]; intros a; simpl; [reflexivity|].
  rewrite <- IH. f_equal. unfold Rmax.
  destruct (Rle_dec (a + c) (y + c)), (Rle_dec a y); lra.
Qed.

Lemma Rmaxl_shift (c : R) (xs : list R) :
  xs <> [] -> Rmaxl (map (fun x => x + c) xs) = Rmaxl xs + c.
Proof.
  destruct xs as [|a l]; [congruence|]. intros _. apply fold_Rmax_shift.
Qed.


Lemma Rsum_member_le (l : list R) (x : R) :
  (forall y, In y l -> 0 <= y) -> In x l -> x <= Rsum l.
Proof.
  induction l as [|a l IH]; intros Hpos Hx; [destruct Hx|].
  rewrite Rsum_cons.
  assert (0 <= a) by (apply Hpos; now left).
  assert (0 <= Rsum l)
    by (apply Rsum_nonneg; intros; apply Hpos; now right).
  destruct Hx as [<-|Hx]; [lra|].
  assert (x <= Rsum l) by (apply IH; [intros; apply Hpos; now right | exact Hx]).
  lra.
Qed.

(** The exponentials of a row after the maximum is subtracted: each in
    (0, 1], and the one of the maximum is 1. *)
Lemma shifted_exp_range (xs : list R) (e : R) :
  In e (map (fun x => exp (x - Rmaxl xs)) xs) -> 0 < e <= 1.
Proof.
  intros H. apply in_map_iff in H. destruct H as (x & <- & Hx).
  split; [apply exp_pos|].
  pose proof (Rmaxl_ge _ _ Hx) as Hle.
  destruct (Req_dec_T x (Rmaxl xs)) as [->|Hne].
  - replace (Rmaxl xs - Rmaxl xs) with 0 by lra. rewrite exp_0. lra.
  - rewrite <- exp_0. left. apply exp_increasing. lra.
Qed.

Lemma shifted_exp_sum_ge_1 (xs : list R) :
  xs <> [] -> 1 <= Rsum (map (fun x => exp (x - Rmaxl xs)) xs).
Proof.
  intros Hne.
  assert (Hin : In 1 (map (fun x => exp (x - Rmaxl xs)) xs)).
  { apply in_map_iff. exists (Rmaxl xs). split; [|now apply Rmaxl_in].
    replace (Rmaxl xs - Rmaxl xs) with 0 by lra. apply exp_0. }
  apply Rsum_member_le; [|exact Hin].
  intros y Hy. apply shifted_exp_range in Hy. lra.
Qed.



Lemma softmax_R_entry_lt_1 (xs : list R) (k : R) :
  In k (softmax_R xs) -> k < 1.
Proof.
  intros H. unfold softmax_R in H. apply in_map_iff in H.
  destruct H as (e & <- & He).
  assert (e <= Rsum (map (fun x => exp (x - Rmaxl xs)) xs)).
  { apply Rsum_member_le; [|exact He].
    intros y Hy. apply shifted_exp_range in Hy. lra. }
  pose proof (shifted_exp_range _ _ He).
  apply Rmult_lt_reg_r with
    (Rsum (map (fun x => exp (x - Rmaxl xs)) xs) + 1e-6); [lra|].
  unfold Rdiv. rewrite Rmult_assoc, Rinv_l; lra.
Qed.

Lemma softmax_R_shift (c : R) (xs : list R) :
  softmax_R (map (fun x => x + c) xs) = softmax_R xs.
Proof.
  destruct xs as [|a l]; [reflexivity|].
  unfold softmax_R. rewrite Rmaxl_shift by discriminate.
  set (m := Rmaxl (a :: l)). rewrite !map_map.
  assert (E : map (fun x => exp (x + c - (m + c))) (a :: l)
              = map (fun x => exp (x - m)) (a :: l)).
  { apply map_ext. intros x. f_equal. lra. }
  rewrite E. apply map_ext. intros x. f_equal. f_equal. lra.
Qed.




End RealRowsMore.

(* ================================================================== *)
(** * Softmax: further properties of kernel and wrapper *)
(* ================================================================== *)

(** On a row of numbers the kernel leaves the real softmax of the row
    in the valid lanes of the output row. *)
Lemma softmax_kernel_row_fin (input out : buf) (irs ors n B pid : nat)
    (xs : list R) :
  1 <= n -> n <= B ->
  row_of input (pid * irs) n = map Fin xs ->
  row_of (softmax_kernel input irs ors n B pid out) (pid * ors) n
  = map Fin (softmax_R xs).
Proof.
  intros Hn HnB Hrow.
  assert (Hlen : length xs = n).
  { apply (f_equal (@length fp)) in Hrow.
    now rewrite row_of_length, length_map in Hrow. }
  assert (Hne : xs <> []) by (intros E; rewrite E in Hlen; simpl in *; lia).
  rewrite <- (softmax_row_spec_fin Hne), <- Hrow.
  unfold row_of at 1.
  rewrite <- (map_nth_seq (softmax_row_spec (row_of input (pid * irs) n))
                          NaN).
  assert (Hl : length (softmax_row_spec (row_of input (pid * irs) n)) = n).
  { unfold softmax_row_spec. now rewrite !length_map, row_of_length. }
  rewrite Hl. apply map_ext_in. intros j Hj. apply in_seq in Hj.
  apply softmax_kernel_valid; lia.
Qed.

(** X8.  [softmax_kernel] is invariant under a shift of the row: two
    input rows of numbers that differ by a constant give the same
    stored values (the row maximum is subtracted before the
    exponential). *)
Theorem softmax_kernel_shift_invariant (input input' out : buf)
    (irs ors n B pid : nat) (xs : list R) (c : R) (j : nat) :
  1 <= n -> n <= B -> j < n ->
  row_of input (pid * irs) n = map Fin xs ->
  row_of input' (pid * irs) n = map Fin (map (fun x => (x + c)%R) xs) ->
  softmax_kernel input' irs ors n B pid out (pid * ors + j)
  = softmax_kernel input irs ors n B pid out (pid * ors + j).
Proof.
  intros Hn HnB Hj Hrow Hrow'.
  rewrite !softmax_kernel_valid by assumption.
  assert (Hlen : length xs = n).
  { apply (f_equal (@length fp)) in Hrow.
    now rewrite row_of_length, length_map in Hrow. }
  assert (Hne : xs <> []) by (intros E; rewrite E in Hlen; simpl in *; lia).
  rewrite Hrow, Hrow', !softmax_row_spec_fin;
    [| exact Hne | destruct xs; [congruence | discriminate]].
  now rewrite softmax_R_shift.
Qed.

Lemma softmax_kernel_shift_invariant_witness :
  softmax_kernel (fun i => nth i [Fin 11; Fin 12; Fin 13] NaN)
    3 3 3 4 0 zero_buf (0 * 3 + 1)
  = softmax_kernel row123 3 3 3 4 0 zero_buf (0 * 3 + 1).
Proof.
  apply (@softmax_kernel_shift_invariant row123
           (fun i => nth i [Fin 11; Fin 12; Fin 13] NaN) zero_buf
           3 3 3 4 0 [1; 2; 3]%R 10%R 1).
  - lia.
  - lia.
  - lia.
  - reflexivity.
  - unfold row_of. simpl. repeat f_equal; lra.
Defined.






(* ================================================================== *)
(** * The sampling loop *)
(* ================================================================== *)

Section Sampling.
Local Open Scope R_scope.

Lemma max2_fin (l : list R) :
  forall a, fold_left torch.max2 (map Fin l) (Fin a)
            = Fin (fold_left Rmax l a).
Proof. induction l as [|x l IH]; intros a; simpl; auto. Qed.

Lemma max2_nan (l : list fp) : fold_left torch.max2 l NaN = NaN.
Proof. induction l as [|x l IH]; simpl; [reflexivity | exact IH]. Qed.

Lemma max2_in_nan (l : list fp) :
  In NaN l -> forall a, fold_left torch.max2 l a = NaN.
Proof.
  induction l as [|x l IH]; intros Hin a; [destruct Hin|]. simpl.
  destruct Hin as [->|Hin]; [|now apply IH].
  replace (torch.max2 a NaN) with NaN by (destruct a; reflexivity).
  apply max2_nan.
Qed.

Lemma softmax_exact_R_pos (xs : list R) (k : R) :
  xs <> [] -> In k (softmax_exact_R xs) -> 0 < k.
Proof.
  intros Hne H. unfold softmax_exact_R in H. apply in_map_iff in H.
  destruct H as (e & <- & He).
  pose proof (shifted_exp_sum_ge_1 Hne).
  pose proof (shifted_exp_range _ _ He).
  apply Rdiv_lt_0_compat; lra.
Qed.

Lemma torch_softmax_fin (xs : list R) :
  xs <> [] -> torch.softmax (map Fin xs) = map Fin (softmax_exact_R xs).
Proof.
  intros Hne. unfold torch.softmax, softmax_exact_R.
  assert (Hm : fold_left torch.max2 (map Fin xs) NInf = Fin (Rmaxl xs)).
  { destruct xs as [|a l]; [congruence|]. simpl. apply max2_fin. }
  rewrite Hm. set (m := Rmaxl xs).
  replace (map (fun x => Fp.exp (Fp.sub x (Fin m))) (map Fin xs))
    with (map Fin (map (fun x => exp (x - m)) xs))
    by (rewrite !map_map; reflexivity).
  rewrite FpFacts.sum_fin. rewrite !map_map. apply map_ext. intros x.
  apply FpFacts.div_fin.
  pose proof (shifted_exp_sum_ge_1 Hne). fold m in H.
  unfold Rsum in *. lra.
Qed.

Lemma existsb_isnan_fin (l : list R) :
  existsb torch.isnan (map Fin l) = false.
Proof. induction l; simpl; auto. Qed.

Lemma existsb_isinf_fin (l : list R) :
  existsb torch.isinf (map Fin l) = false.
Proof. induction l; simpl; auto. Qed.

Lemma Rsum_const (A : Type) (c : R) (l : list A) :
  Rsum (map (fun _ => c) l) = INR (length l) * c.
Proof.
  induction l as [|x l IH]; [unfold Rsum; simpl; lra|].
  cbn [map length]. rewrite Rsum_cons, IH, S_INR. lra.
Qed.

(** Logits without NaN: the renormalised softmax, no fallback. *)
Lemma sampling_probs_regular (logits : list fp) :
  logits <> [] -> ~ In NaN logits ->
  sampling_probs logits
  = map Fin (renorm_R (softmax_exact_R (map clamp_R logits))).
Proof.
  intros Hne Hnan. unfold sampling_probs.
  assert (Hc : map (Fp.clamp (-100) 100) logits
               = map Fin (map clamp_R logits)).
  { rewrite map_map. apply map_ext_in. intros x Hx. apply clamp_fin.
    intros ->. contradiction. }
  assert (Hne' : map clamp_R logits <> [])
    by (destruct logits; [congruence | discriminate]).
  rewrite Hc, (torch_softmax_fin Hne').
  set (ks := softmax_exact_R (map clamp_R logits)).
  replace (map (fun p => Fp.add p (Fin 1e-8)) (map Fin ks))
    with (map Fin (map (fun k => k + 1e-8) ks))
    by (rewrite !map_map; reflexivity).
  rewrite FpFacts.sum_fin. fold (Rsum (map (fun k => k + 1e-8) ks)).
  assert (Hpos : 0 < Rsum (map (fun k => k + 1e-8) ks)).
  { apply Rsum_pos.
    - unfold ks, softmax_exact_R.
      destruct (map clamp_R logits); [congruence | discriminate].
    - intros v Hv. apply in_map_iff in Hv. destruct Hv as (k & <- & Hk).
      pose proof (@softmax_exact_R_pos (map clamp_R logits) k Hne' Hk).
      lra. }
  replace (map (fun p => Fp.div p (Fin (Rsum (map (fun k => k + 1e-8) ks))))
               (map Fin (map (fun k => k + 1e-8) ks)))
    with (map Fin (renorm_R ks)).
  - now rewrite existsb_isnan_fin, existsb_isinf_fin.
  - unfold renorm_R. rewrite !map_map. apply map_ext. intros k.
    symmetry. apply FpFacts.div_fin. lra.
Qed.

(** Logits with a NaN: every probability is NaN, and the uniform
    fallback replaces them. *)
Lemma sampling_probs_fallback (logits : list fp) :
  In NaN logits ->
  sampling_probs logits
  = map Fin (map (fun _ => 1 / INR (length logits)) logits).
Proof.
  intros Hnan. unfold sampling_probs.
  assert (Hne : logits <> []) by (intros E; rewrite E in Hnan; destruct Hnan).
  assert (Hcn : In NaN (map (Fp.clamp (-100) 100) logits)).
  { apply in_map_iff. exists NaN. split; [reflexivity | exact Hnan]. }
  unfold torch.softmax. rewrite (max2_in_nan _ Hcn NInf).
  set (cl := map (Fp.clamp (-100) 100) logits).
  assert (He : map (fun x => Fp.exp (Fp.sub x NaN)) cl
               = map (fun _ => NaN) cl).
  { apply map_ext. intros x. destruct x; reflexivity. }
  rewrite He. rewrite !map_map. cbn [Fp.div Fp.add].
  rewrite ?length_map.
  assert (Hex : existsb torch.isnan (map (fun _ : fp => NaN) cl) = true).
  { unfold cl. destruct logits; [congruence | reflexivity]. }
  rewrite Hex. cbn [orb]. unfold cl. rewrite ?map_map, ?length_map.
  apply map_ext. intros _. unfold Fp.of_nat. apply FpFacts.div_fin.
  apply not_0_INR. destruct logits; [congruence | discriminate].
Qed.

(** X11.  Whatever the logits of the last position are (numbers,
    infinities, NaN), as long as the vocabulary is not empty the
    vector the sampling loop hands to [torch.multinomial] is a
    probability vector: positive numbers that sum to 1.  Without NaN
    among the logits it is the softmax of the clamped logits plus
    1e-8, renormalised; with a NaN it is the uniform vector. *)
Theorem sampling_probs_distribution (logits : list fp) :
  logits <> [] ->
  exists ps,
    sampling_probs logits = map Fin ps /\
    length ps = length logits /\
    (forall p, In p ps -> 0 < p) /\
    Rsum ps = 1 /\
    (In NaN logits -> forall p, In p ps -> p = 1 / INR (length logits)) /\
    (~ In NaN logits ->
     ps = renorm_R (softmax_exact_R (map clamp_R logits))).
Proof.
  intros Hne.
  assert (HV : 0 < INR (length logits)).
  { apply lt_0_INR. destruct logits; [congruence | simpl; lia]. }
  destruct (existsb torch.isnan logits) eqn:E.
  - assert (Hnan : In NaN logits).
    { apply existsb_exists in E. destruct E as (x & Hx & Hn).
      destruct x; try discriminate. exact Hx. }
    exists (map (fun _ => 1 / INR (length logits)) logits).
    split; [now apply sampling_probs_fallback|].
    split; [apply length_map|].
    assert (Hall : forall p,
              In p (map (fun _ : fp => 1 / INR (length logits)) logits) ->
              p = 1 / INR (length logits)).
    { intros p Hp. apply in_map_iff in Hp. now destruct Hp as (_ & <- & _). }
    split; [|split; [|split]].
    + intros p Hp. rewrite (Hall p Hp). apply Rdiv_lt_0_compat; lra.
    + rewrite Rsum_const. field. lra.
    + intros _. exact Hall.
    + intros H. contradiction.
  - assert (Hnan : ~ In NaN logits).
    { intros H.
      assert (existsb torch.isnan logits = true)
        by (apply existsb_exists; exists NaN; split; [exact H | reflexivity]).
      congruence. }
    set (ks := softmax_exact_R (map clamp_R logits)).
    assert (Hne' : map clamp_R logits <> [])
      by (destruct logits; [congruence | discriminate]).
    assert (Hk : forall k, In k ks -> 0 <= k)
      by (intros k Hk; left;
          exact (@softmax_exact_R_pos (map clamp_R logits) k Hne' Hk)).
    exists (renorm_R ks).
    split; [now apply sampling_probs_regular|].
    split; [unfold ks, softmax_exact_R;
            now rewrite renorm_R_length, !length_map|].
    split; [|split; [|split]].
    + intros p Hp. now apply (@renorm_R_pos ks).
    + apply renorm_R_sum; [|exact Hk]. unfold ks, softmax_exact_R.
      destruct (map clamp_R logits); [congruence | discriminate].
    + intros H. contradiction.
    + reflexivity.
Qed.

Lemma sampling_probs_distribution_witness :
  exists ps,
    sampling_probs [Fin 2; NaN; PInf] = map Fin ps /\
    length ps = 3%nat /\
    (forall p, In p ps -> 0 < p) /\
    Rsum ps = 1 /\
    (In NaN [Fin 2; NaN; PInf] ->
     forall p, In p ps -> p = 1 / INR 3) /\
    (~ In NaN [Fin 2; NaN; PInf] ->
     ps = renorm_R (softmax_exact_R (map clamp_R [Fin 2; NaN; PInf]))).
Proof.
  apply (@sampling_probs_distribution [Fin 2; NaN; PInf]).
  discriminate.
Defined.
End Sampling.

(* ================================================================== *)
(** * GELU: further properties of the lane formula *)
(* ================================================================== *)

Section GeluMore.
Local Open Scope R_scope.

Lemma gelu_lane_R (v : R) : gelu_lane (Fin v) = Fin (gelu_R v).
Proof. rewrite gelu_lane_fin. reflexivity. Qed.

Lemma gelu_coeff_pos (v : R) :
  sqrt_2_over_pi <= sqrt_2_over_pi * (1 + 0.044715 * v * v).
Proof.
  unfold sqrt_2_over_pi. pose proof (Rle_0_sqr v) as H. unfold Rsqr in H.
  nra.
Qed.

(** Below zero the formula is [0.5 * v / (1 + |v| * coeff)]. *)
Lemma gelu_R_neg (v : R) :
  v <= 0 ->
  gelu_R v
  = 0.5 * v / (1 - v * (sqrt_2_over_pi * (1 + 0.044715 * v * v))).
Proof.
  intros Hv. unfold gelu_R. cbv zeta.
  pose proof (gelu_coeff_pos v) as Hc.
  set (c := sqrt_2_over_pi * (1 + 0.044715 * v * v)) in *.
  assert (Hc0 : 0 < c) by (unfold sqrt_2_over_pi in Hc; lra).
  assert (Ht : v * c <= 0) by nra.
  rewrite (Rabs_left1 _ Ht).
  replace 0.5 with (/ 2) by lra. field. nra.
Qed.

Lemma gelu_R_symmetry (v : R) : gelu_R v - gelu_R (- v) = v.
Proof.
  unfold gelu_R. cbv zeta.
  replace (0.044715 * - v * - v) with (0.044715 * v * v) by ring.
  set (c := sqrt_2_over_pi * (1 + 0.044715 * v * v)).
  replace (- v * c) with (- (v * c)) by ring.
  rewrite Rabs_Ropp.
  pose proof (Rabs_pos (v * c)).
  replace 0.5 with (/ 2) by lra. field. lra.
Qed.

Lemma gelu_R_nonpos (v : R) :
  v <= 0 ->
  v / 2 <= gelu_R v <= 0 /\
  - (1 / (2 * (sqrt_2_over_pi * (1 + 0.044715 * v * v)))) < gelu_R v.
Proof.
  intros Hv. rewrite (gelu_R_neg Hv).
  pose proof (gelu_coeff_pos v) as Hc.
  set (c := sqrt_2_over_pi * (1 + 0.044715 * v * v)) in *.
  assert (Hc0 : 0 < c) by (unfold sqrt_2_over_pi in Hc; lra).
  assert (HD : 1 <= 1 - v * c) by nra.
  assert (Hinv : 0 < / (1 - v * c) <= 1).
  { split; [apply Rinv_0_lt_compat; lra|].
    rewrite <- Rinv_1. apply Rinv_le_contravar; lra. }
  unfold Rdiv. repeat split.
  - nra.
  - nra.
  - apply Rmult_lt_reg_r with ((1 - v * c) * (2 * c)); [nra|].
    replace (- (1 * / (2 * c)) * ((1 - v * c) * (2 * c)))
      with (- (1 - v * c)) by (field; lra).
    replace (0.5 * v * / (1 - v * c) * ((1 - v * c) * (2 * c)))
      with (v * c) by (replace 0.5 with (/ 2) by lra; field; lra).
    lra.
Qed.

(** X12.  The lane formula of [gelu_kernel] satisfies
    [gelu(v) - gelu(-v) = v] exactly, for every number [v]. *)
Theorem gelu_lane_symmetry (v : R) :
  exists y z,
    gelu_lane (Fin v) = Fin y /\ gelu_lane (Fin (- v)) = Fin z /\
    y - z = v.
Proof.
  exists (gelu_R v), (gelu_R (- v)).
  split; [apply gelu_lane_R|]. split; [apply gelu_lane_R|].
  apply gelu_R_symmetry.
Qed.

(** Up to [|v| = 1e13] the largest intermediate of the lane formula,
    [x * coeff], stays below 3.4e38, the largest float32: in this range
    the float32 kernel does not overflow. *)
Lemma gelu_no_overflow (v : R) :
  Rabs v <= 1e13 ->
  Rabs (v * (sqrt_2_over_pi * (1 + 0.044715 * v * v))) < 3.4e38.
Proof.
  intros Hv. pose proof (gelu_coeff_pos v) as Hc.
  pose proof (Rabs_pos v) as Ha.
  rewrite Rabs_mult.
  rewrite (Rabs_right (sqrt_2_over_pi * (1 + 0.044715 * v * v)))
    by (unfold sqrt_2_over_pi in *; lra).
  assert (Hsq : v * v <= 1e13 * 1e13).
  { replace (v * v) with (Rabs v * Rabs v)
      by (rewrite <- Rabs_mult; apply Rabs_right;
          apply Rle_ge, Rle_0_sqr).
    apply Rmult_le_compat; lra. }
  apply Rle_lt_trans
    with (1e13 * (sqrt_2_over_pi * (1 + 0.044715 * v * v))).
  - apply Rmult_le_compat_r; [unfold sqrt_2_over_pi in *; lra | exact Hv].
  - unfold sqrt_2_over_pi. lra.
Qed.

(** X13.  In exact arithmetic and for [|v| <= 1e13], where the float32
    kernel does not overflow ([|x * coeff| < 3.4e38]): on the number
    [v] the lane formula of [gelu_kernel] returns a number between
    [v/2] and [v] when [v >= 0] and between [v/2] and 0 when [v <= 0];
    its distance from [max(v, 0)] is below
    [1 / (2 * sqrt_2_over_pi * (1 + 0.044715 * v^2))], so below
    0.63. *)
Theorem gelu_lane_range (v : R) :
  Rabs v <= 1e13 ->
  Rabs (v * (sqrt_2_over_pi * (1 + 0.044715 * v * v))) < 3.4e38 /\
  exists y,
    gelu_lane (Fin v) = Fin y /\
    (0 <= v -> v / 2 <= y <= v) /\
    (v <= 0 -> v / 2 <= y <= 0) /\
    Rabs (y - Rmax v 0)
    < 1 / (2 * (sqrt_2_over_pi * (1 + 0.044715 * v ^ 2))) /\
    1 / (2 * (sqrt_2_over_pi * (1 + 0.044715 * v ^ 2))) < 0.63.
Proof.
  intros Hrange. split; [now apply gelu_no_overflow|].
  exists (gelu_R v). split; [apply gelu_lane_R|].
  replace (0.044715 * v ^ 2) with (0.044715 * v * v) by ring.
  pose proof (gelu_coeff_pos v) as Hc.
  set (c := sqrt_2_over_pi * (1 + 0.044715 * v * v)) in *.
  assert (Hc0 : 0.7978 < c) by (unfold sqrt_2_over_pi in Hc; lra).
  assert (Hpos : forall u, 0 <= u ->
            u / 2 <= gelu_R u <= u /\
            u - gelu_R u
            < 1 / (2 * (sqrt_2_over_pi * (1 + 0.044715 * u * u)))).
  { intros u Hu. pose proof (gelu_R_symmetry u) as Hs.
    assert (Hn : - u <= 0) by lra.
    destruct (gelu_R_nonpos Hn) as [[H1 H2] H3].
    replace (0.044715 * - u * - u) with (0.044715 * u * u) in H3 by ring.
    repeat split; lra. }
  split; [|split; [|split]].
  - intros Hv. apply (Hpos v Hv).
  - intros Hv. apply (gelu_R_nonpos Hv).
  - destruct (Rle_dec 0 v) as [Hv|Hv].
    + rewrite Rmax_left by lra. destruct (Hpos v Hv) as [[H1 H2] H3].
      fold c in H3. rewrite Rabs_left1 by lra. lra.
    + assert (Hv' : v <= 0) by lra.
      rewrite Rmax_right by lra. destruct (gelu_R_nonpos Hv') as [[H1 H2] H3].
      fold c in H3. rewrite Rabs_left1 by lra. lra.
  - apply Rmult_lt_reg_r with (2 * c); [lra|].
    replace (1 / (2 * c) * (2 * c)) with 1 by (field; lra). lra.
Qed.

Lemma gelu_lane_range_witness :
  exists y, gelu_lane (Fin 2) = Fin y /\ 2 / 2 <= y <= 2.
Proof.
  assert (H : Rabs 2 <= 1e13) by (rewrite Rabs_right; lra).
  destruct (proj2 (@gelu_lane_range 2 H)) as (y & Hy & Hpos & _).
  exists y. split; [exact Hy | apply Hpos; lra].
Defined.

(** X14.  The lane formula returns NaN on NaN and on both infinities:
    at an infinite input the product [x * coeff] is infinite and the
    quotient [(x*coeff) / (1 + |x*coeff|)] is infinity over infinity.
    As long as [x * coeff] is within the float32 range ([|x| <= 1e13])
    the result is a number: the divisor [1 + |x*coeff|] is never 0. *)
Theorem gelu_lane_special_values :
  (forall v : R,
      Rabs v <= 1e13 ->
      Rabs (v * (sqrt_2_over_pi * (1 + 0.044715 * v * v))) < 3.4e38 /\
      exists y : R, gelu_lane (Fin v) = Fin y) /\
  gelu_lane NaN = NaN /\
  gelu_lane PInf = NaN /\
  gelu_lane NInf = NaN.
Proof.
  split.
  { intros v Hv. split; [now apply gelu_no_overflow|].
    exists (gelu_R v). apply gelu_lane_R. }
  split; [reflexivity|].
  split; unfold gelu_lane, sqrt_2_over_pi;
    cbn [Fp.mul Fp.add Fp.abs Fp.div]; unfold Fp.signed_inf;
    repeat (match goal with
            | |- context [Rlt_dec ?a ?b] =>
                destruct (Rlt_dec a b); try lra
            end;
            cbn [Fp.mul Fp.add Fp.abs Fp.div]; unfold Fp.signed_inf);
    reflexivity.
Qed.
End GeluMore.

(* ================================================================== *)
(** * The layer-norm wrapper and kernel on every accepted input *)
(* ================================================================== *)

Lemma row_address_unique (N p c r j : nat) :
  c < N -> j < N -> p * N + c = r * N + j -> p = r /\ c = j.
Proof.
  intros Hc Hj E.
  assert (p = r).
  { destruct (Nat.lt_trichotomy p r) as [H|[H|H]];
      [exfalso; nia | exact H | exfalso; nia]. }
  subst p. split; [reflexivity | lia].
Qed.

Lemma last_dims_app (lead ns : list nat) :
  ns <> [] -> last_dims (length ns) (lead ++ ns) = ns.
Proof.
  intros Hns. unfold last_dims.
  destruct (Nat.eqb_spec (length ns) 0) as [E|_].
  - destruct ns; [congruence | discriminate].
  - rewrite length_app.
    replace (length lead + length ns - length ns) with (length lead + 0)
      by lia.
    now rewrite skipn_app, Nat.add_0_r, skipn_all, Nat.sub_diag.
Qed.

(** X15.  [TritonLayerNorm.forward] on any input it accepts (shape
    ending in the normalized shape, last dimension [N >= 1], [M] rows):
    the call returns a tensor of the input's shape in which entry
    [(r, j)] has been written exactly when [r < cdiv(M, 128)] and
    [j < 128]; such an entry holds
    [(x[r,j] - mean) * rstd * weight[j] + bias[j]] with the [mean] and
    [rstd] program [r] computes, every other entry holds what the
    buffer of [torch.empty_like] held.  With at most 128 rows, every
    row but row 0 is left unwritten. *)
Theorem layer_norm_forward_rows_written (self : TritonLayerNorm.t)
    (junk : buf) (x : tensor) (lead : list nat) (N : nat) :
  shape x = lead ++ TritonLayerNorm.normalized_shape self ->
  last_dim (TritonLayerNorm.normalized_shape self) = Some N ->
  1 <= N ->
  let M := numel (shape x) / N in
  exists y,
    TritonLayerNorm.forward self junk x = Ok y /\
    shape y = shape x /\
    (forall r j, j < N ->
       data y (r * N + j)
       = if Nat.ltb r (cdiv M 128) && Nat.ltb j 128
         then Fp.add
                (Fp.mul
                   (Fp.mul
                      (Fp.sub (data x (r * N + j))
                              (ln_mean (data x) N 128 r))
                      (ln_rstd (data x) N (TritonLayerNorm.eps self)
                               128 r))
                   (TritonLayerNorm.weight self j))
                (TritonLayerNorm.bias self j)
         else junk (r * N + j)) /\
    (M <= 128 ->
     forall r j, 1 <= r -> j < N -> data y (r * N + j) = junk (r * N + j)).
Proof.
  intros Hs HN HN1 M.
  assert (Hns : TritonLayerNorm.normalized_shape self <> []).
  { intros E. rewrite E in HN. discriminate. }
  assert (Hrows : forall r j, j < N ->
    launch (cdiv M 128)
      (layer_norm_kernel (data x) (TritonLayerNorm.weight self)
         (TritonLayerNorm.bias self) N (TritonLayerNorm.eps self) 128)
      junk (r * N + j)
    = if Nat.ltb r (cdiv M 128) && Nat.ltb j 128
      then Fp.add
             (Fp.mul
                (Fp.mul
                   (Fp.sub (data x (r * N + j))
                           (ln_mean (data x) N 128 r))
                   (ln_rstd (data x) N (TritonLayerNorm.eps self) 128 r))
                (TritonLayerNorm.weight self j))
             (TritonLayerNorm.bias self j)
      else junk (r * N + j)).
  { intros r j Hj.
    destruct (Nat.ltb r (cdiv M 128) && Nat.ltb j 128) eqn:E.
    - apply andb_true_iff in E. destruct E as [Hr Hj'].
      apply Nat.ltb_lt in Hr, Hj'.
      apply launch_owner with (r := r); [exact Hr | |].
      + intros q.
        now rewrite layer_norm_kernel_valid, layer_norm_block_lane.
      + intros pid q _ Hne. apply layer_norm_kernel_frame.
        intros c _ Hc E.
        destruct (@row_address_unique N pid c r j Hc Hj (eq_sym E)).
        congruence.
    - apply launch_frame. intros pid q Hpid.
      apply layer_norm_kernel_frame. intros c HcB HcN E'.
      destruct (@row_address_unique N pid c r j HcN Hj (eq_sym E'))
        as [-> ->].
      apply andb_false_iff in E. destruct E as [E|E];
        apply Nat.ltb_ge in E; lia. }
  unfold M in *. clear M.
  eexists. split.
  { apply (@layer_norm_forward_accepts self junk x N);
      [rewrite Hs; now apply last_dims_app | exact HN | lia]. }
  split; [reflexivity|]. cbn [data]. split; [exact Hrows|].
  intros HM r j Hr Hj. rewrite (Hrows r j Hj).
  assert (Hg : cdiv (numel (shape x) / N) 128 <= 1).
  { unfold cdiv. apply Nat.lt_succ_r.
    apply Nat.Div0.div_lt_upper_bound. lia. }
  destruct (Nat.ltb_spec r (cdiv (numel (shape x) / N) 128));
    [lia | reflexivity].
Qed.

(** Three rows of two entries: rows 1 and 2 come back unwritten. *)
Lemma layer_norm_forward_rows_written_witness :
  exists y,
    TritonLayerNorm.forward ln_demo zero_buf (Tensor [3; 2] zero_buf)
    = Ok y /\
    data y (1 * 2 + 0) = zero_buf (1 * 2 + 0).
Proof.
  destruct (@layer_norm_forward_rows_written ln_demo zero_buf
              (Tensor [3; 2] zero_buf) [3] 2
              ltac:(reflexivity) ltac:(reflexivity) ltac:(lia))
    as (y & Hy & _ & _ & Hrest).
  exists y. split; [exact Hy|].
  apply Hrest; [vm_compute; lia | lia | lia].
Defined.

Section LayerNormFormula.
Local Open Scope R_scope.

(** The variance the kernel forms exceeds the row's variance by
    [(B - N) / N * mean^2]. *)
Lemma ln_var_kernel_excess (B : nat) (xs : list R) :
  xs <> [] ->
  ln_var_kernel_R B xs
  = ln_var_R xs
    + INR (B - length xs) / INR (length xs)
      * (ln_mean_R xs * ln_mean_R xs).
Proof.
  intros Hne. unfold ln_var_kernel_R, ln_var_R.
  assert (0 < INR (length xs)).
  { apply lt_0_INR. destruct xs; [congruence | simpl; lia]. }
  field. lra.
Qed.

Lemma ln_var_R_nonneg (xs : list R) : xs <> [] -> 0 <= ln_var_R xs.
Proof.
  intros Hne. unfold ln_var_R.
  assert (0 < INR (length xs)).
  { apply lt_0_INR. destruct xs; [congruence | simpl; lia]. }
  apply Rmult_le_pos; [|left; now apply Rinv_0_lt_compat].
  apply Rsum_nonneg. intros v Hv. apply in_map_iff in Hv.
  destruct Hv as (u & <- & _). exact (Rle_0_sqr _).
Qed.



Lemma Rsum_centred (m s : R) (l : list R) :
  Rsum (map (fun v => (v - m) * s * 1 + 0) l)
  = (Rsum l - INR (length l) * m) * s.
Proof.
  induction l as [|v l IH].
  - unfold Rsum. simpl. lra.
  - cbn [map length]. rewrite !Rsum_cons, IH, S_INR. lra.
Qed.

Lemma Rsum_centred_squares (m s : R) (l : list R) :
  Rsum (map (fun v => ((v - m) * s * 1 + 0) * ((v - m) * s * 1 + 0)) l)
  = Rsum (map (fun v => (v - m) * (v - m)) l) * (s * s).
Proof.
  induction l as [|v l IH].
  - unfold Rsum. simpl. lra.
  - cbn [map]. rewrite !Rsum_cons, IH. lra.
Qed.

(** X17.  With unit scale and zero bias the entries [layer_norm_kernel]
    stores for a row of numbers have sum 0 (in exact arithmetic), and
    their squares sum to [N * var / (var_k + eps)], where [var] is the
    row's variance and [var_k >= var] the variance the kernel forms:
    the stored row has mean 0 and variance below 1. *)
Theorem layer_norm_kernel_row_moments (x w b out : buf) (N B pid : nat)
    (xs : list R) (e : R) :
  (1 <= N)%nat -> (N <= B)%nat -> length xs = N ->
  (forall c, (c < N)%nat -> x (pid * N + c)%nat = Fin (nth c xs 0)) ->
  (forall c, (c < N)%nat -> w c = Fin 1) ->
  (forall c, (c < N)%nat -> b c = Fin 0) ->
  0 < e ->
  let y := layer_norm_kernel x w b N (Fin e) B pid out in
  row_sum N y pid = Fin 0 /\
  row_sum N (fun i => Fp.mul (y i) (y i)) pid
  = Fin (INR N * (ln_var_R xs / (ln_var_kernel_R B xs + e))) /\
  ln_var_R xs / (ln_var_kernel_R B xs + e) < 1.
Proof.
  intros HN HNB Hlen Hx Hw Hb He y.
  assert (Hne : xs <> []) by (intros ->; simpl in Hlen; lia).
  assert (HNpos : 0 < INR N) by (apply lt_0_INR; lia).
  set (mu := ln_mean_R xs).
  set (s := 1 / sqrt (ln_var_kernel_R B xs + e)).
  assert (Hy : forall j, (j < N)%nat ->
            y (pid * N + j)%nat
            = Fin (nth j (map (fun v => (v - mu) * s * 1 + 0) xs) 0)).
  { intros j Hj. unfold y.
    rewrite (@layer_norm_kernel_fin x w b out N B pid xs
               (fun _ => 1) (fun _ => 0) e j) by assumption.
    rewrite (@nth_map_default _ _ (fun v => (v - mu) * s * 1 + 0) xs j 0 0)
      by lia.
    reflexivity. }
  pose proof (@ln_var_kernel_nonneg N B xs HN HNB Hlen) as Hvk.
  pose proof (ln_var_R_nonneg Hne) as Hv.
  assert (Hsq : 0 < sqrt (ln_var_kernel_R B xs + e))
    by (apply sqrt_lt_R0; lra).
  assert (Hss : s * s = / (ln_var_kernel_R B xs + e)).
  { unfold s.
    rewrite <- (sqrt_def (ln_var_kernel_R B xs + e)) at 3 by lra.
    field. lra. }
  split; [|split].
  - rewrite (@row_sum_fin N y pid
               (map (fun v => (v - mu) * s * 1 + 0) xs));
      [|now rewrite length_map | exact Hy].
    f_equal. rewrite Rsum_centred. unfold mu, ln_mean_R.
    rewrite Hlen. field. lra.
  - rewrite (@row_sum_fin N (fun i => Fp.mul (y i) (y i)) pid
               (map (fun v => ((v - mu) * s * 1 + 0)
                              * ((v - mu) * s * 1 + 0)) xs)).
    + f_equal. rewrite Rsum_centred_squares, Hss.
      unfold ln_var_R. fold mu. rewrite Hlen. field. lra.
    + now rewrite length_map.
    + intros j Hj. cbv beta. rewrite (Hy j Hj).
      rewrite (@nth_map_default _ _ (fun v => (v - mu) * s * 1 + 0)
                 xs j 0 0) by lia.
      rewrite (@nth_map_default _ _
                 (fun v => ((v - mu) * s * 1 + 0)
                           * ((v - mu) * s * 1 + 0)) xs j 0 0) by lia.
      reflexivity.
  - rewrite (ln_var_kernel_excess B Hne) in *.
    assert (0 <= INR (B - length xs) / INR (length xs)
                 * (ln_mean_R xs * ln_mean_R xs)).
    { apply Rmult_le_pos; [|exact (Rle_0_sqr _)].
      apply Rmult_le_pos; [apply pos_INR|].
      left. apply Rinv_0_lt_compat. now rewrite Hlen. }
    set (D := ln_var_R xs
              + INR (B - length xs) / INR (length xs)
                * (ln_mean_R xs * ln_mean_R xs) + e) in *.
    assert (HD : 0 < D) by (unfold D; lra).
    apply Rmult_lt_reg_r with D; [exact HD|].
    unfold Rdiv. rewrite Rmult_assoc, Rinv_l by lra. unfold D. lra.
Qed.

Lemma layer_norm_kernel_row_moments_witness :
  row_sum 2
    (layer_norm_kernel (data ln_demo_x) (fun _ => Fin 1)
       (fun _ => Fin 0) 2 (Fin 1e-5) 128 0 zero_buf) 0
  = Fin 0.
Proof.
  refine (proj1
    (@layer_norm_kernel_row_moments (data ln_demo_x) (fun _ => Fin 1)
       (fun _ => Fin 0) zero_buf 2 128 0 [1; 3] 1e-5
       _ _ _ _ _ _ _));
    try lia; try lra; try reflexivity;
    intros [|[|c]] Hc; try reflexivity; lia.
Defined.
End LayerNormFormula.

(* ================================================================== *)
(** * What a program instance reads *)
(* ================================================================== *)

(** X18.  A program instance's effect on the output buffer depends on
    its inputs only at the valid lanes of its own block: two runs whose
    inputs agree there leave the same buffer, whatever the inputs hold
    elsewhere, and for [gelu_kernel] whatever the masked lanes of the
    unfilled load deliver. *)
Theorem kernels_read_valid_lanes_only :
  (forall (input input' out : buf) (irs ors n_cols B pid : nat),
      (forall c, c < B -> c < n_cols ->
                 input (pid * irs + c) = input' (pid * irs + c)) ->
      forall a,
        softmax_kernel input irs ors n_cols B pid out a
        = softmax_kernel input' irs ors n_cols B pid out a)
  /\
  (forall (x x' w w' b b' out : buf) (N : nat) (eps : fp) (B pid : nat),
      (forall c, c < B -> c < N ->
                 x (pid * N + c) = x' (pid * N + c) /\
                 w c = w' c /\ b c = b' c) ->
      forall a,
        layer_norm_kernel x w b N eps B pid out a
        = layer_norm_kernel x' w' b' N eps B pid out a)
  /\
  (forall (undef undef' : nat -> fp) (x x' y : buf)
          (n_elements B pid : nat),
      (forall c, c < B -> pid * B + c < n_elements ->
                 x (pid * B + c) = x' (pid * B + c)) ->
      forall a,
        gelu_kernel undef x n_elements B pid y a
        = gelu_kernel undef' x' n_elements B pid y a).
Proof.
  repeat apply conj.
  - intros input input' out irs ors n B pid H a.
    assert (L :
      tl.load input (map (fun c => pid * irs + c) (seq 0 B))
              (map (fun c => Nat.ltb c n) (seq 0 B)) NInf
      = tl.load input' (map (fun c => pid * irs + c) (seq 0 B))
                (map (fun c => Nat.ltb c n) (seq 0 B)) NInf).
    { rewrite !load_lanes. apply map_ext_in. intros c Hc.
      apply in_seq in Hc.
      destruct (Nat.ltb_spec c n); [apply H; lia | reflexivity]. }
    unfold softmax_kernel, softmax_block, tl.arange. cbv zeta.
    now rewrite L.
  - intros x x' w w' b b' out N eps B pid H a.
    assert (Lx :
      tl.load x (map (fun c => pid * N + c) (seq 0 B))
              (map (fun c => Nat.ltb c N) (seq 0 B)) (Fin 0.0)
      = tl.load x' (map (fun c => pid * N + c) (seq 0 B))
                (map (fun c => Nat.ltb c N) (seq 0 B)) (Fin 0.0)).
    { rewrite !load_lanes. apply map_ext_in. intros c Hc.
      apply in_seq in Hc.
      destruct (Nat.ltb_spec c N); [apply H; lia | reflexivity]. }
    assert (Lw : forall o,
      tl.load w (seq 0 B) (map (fun c => Nat.ltb c N) (seq 0 B)) o
      = tl.load w' (seq 0 B) (map (fun c => Nat.ltb c N) (seq 0 B)) o).
    { intros o. rewrite !load_lanes_id. apply map_ext_in. intros c Hc.
      apply in_seq in Hc.
      destruct (Nat.ltb_spec c N); [apply H; lia | reflexivity]. }
    assert (Lb : forall o,
      tl.load b (seq 0 B) (map (fun c => Nat.ltb c N) (seq 0 B)) o
      = tl.load b' (seq 0 B) (map (fun c => Nat.ltb c N) (seq 0 B)) o).
    { intros o. rewrite !load_lanes_id. apply map_ext_in. intros c Hc.
      apply in_seq in Hc.
      destruct (Nat.ltb_spec c N); [apply H; lia | reflexivity]. }
    unfold layer_norm_kernel, layer_norm_block, tl.arange. cbv zeta.
    now rewrite Lx, Lw, Lb.
  - intros undef undef' x x' y n B pid H a.
    destruct (le_lt_dec (pid * B) a) as [H1|H1];
      [destruct (lt_dec a (pid * B + B)) as [H2|H2];
       [destruct (lt_dec a n) as [H3|H3]|]|].
    + replace a with (pid * B + (a - pid * B)) by lia.
      rewrite !gelu_kernel_valid by lia. f_equal. apply H; lia.
    + rewrite !gelu_kernel_frame; [reflexivity | |]; intros; lia.
    + rewrite !gelu_kernel_frame; [reflexivity | |]; intros; lia.
    + rewrite !gelu_kernel_frame; [reflexivity | |]; intros; lia.
Qed.

(** Lane 3 of the block lies beyond the three-column row: what the
    input holds there does not matter. *)
Lemma kernels_read_valid_lanes_only_witness :
  softmax_kernel row123 3 3 3 4 0 zero_buf 1
  = softmax_kernel (upd row123 3 PInf) 3 3 3 4 0 zero_buf 1.
Proof.
  refine (proj1 kernels_read_valid_lanes_only row123 (upd row123 3 PInf)
            zero_buf 3 3 3 4 0 _ 1).
  intros c _ Hc. unfold upd.
  destruct (Nat.eqb_spec (0 * 3 + c) 3); [lia | reflexivity].
Defined.

(* ================================================================== *)
(** * The launches of the three wrappers in any order *)
(* ================================================================== *)

(** X19.  The program instances of a launch may run in any order, and
    any number of times each: for the launch
    [TritonSoftmax.forward] makes ([B] programs, strides [N]), for
    that of [TritonLayerNorm.forward] and for that of
    [TritonGELU.forward], every sequence of program indices that
    contains exactly the launched ones leaves the buffer the in-order
    launch leaves.  No instance overwrites what another has stored. *)
Theorem launch_order_irrelevant :
  (forall (x out : buf) (B N : nat) (order : list nat),
      1 <= N -> (forall p, In p order <-> p < B) ->
      forall a,
        run order
          (softmax_kernel x (stride0 N) (stride0 N) N
             (TritonSoftmax.BLOCK_SIZE N)) out a
        = launch (TritonSoftmax.grid B)
            (softmax_kernel x (stride0 N) (stride0 N) N
               (TritonSoftmax.BLOCK_SIZE N)) out a)
  /\
  (forall (x w b out : buf) (N : nat) (eps : fp) (M : nat)
          (order : list nat),
      (forall p, In p order <-> p < cdiv M TritonLayerNorm.BLOCK_SIZE) ->
      forall a,
        run order
          (layer_norm_kernel x w b N eps TritonLayerNorm.BLOCK_SIZE)
          out a
        = launch (cdiv M TritonLayerNorm.BLOCK_SIZE)
            (layer_norm_kernel x w b N eps TritonLayerNorm.BLOCK_SIZE)
            out a)
  /\
  (forall (undef : nat -> nat -> fp) (x out : buf) (n : nat)
          (order : list nat),
      (forall p, In p order <-> p < cdiv n 1024) ->
      forall a,
        run order (fun pid => gelu_kernel (undef pid) x n 1024 pid) out a
        = launch (cdiv n 1024)
            (fun pid => gelu_kernel (undef pid) x n 1024 pid) out a).
Proof.
  repeat apply conj.
  - intros x out B N order HN Hord a.
    now apply softmax_launch_any_order.
  - intros x w b out N eps M order Hord a.
    now apply layer_norm_launch_any_order.
  - intros undef x out n order Hord a.
    now apply gelu_launch_any_order.
Qed.

(** Two rows of three columns, row 1 first and row 0 run twice. *)
Lemma launch_order_irrelevant_witness :
  run [1; 0; 0]
    (softmax_kernel row123 (stride0 3) (stride0 3) 3
       (TritonSoftmax.BLOCK_SIZE 3)) zero_buf 4
  = launch (TritonSoftmax.grid 2)
      (softmax_kernel row123 (stride0 3) (stride0 3) 3
         (TritonSoftmax.BLOCK_SIZE 3)) zero_buf 4.
Proof.
  refine (proj1 launch_order_irrelevant row123 zero_buf 2 3 [1; 0; 0]
            _ _ 4); [lia|].
  intros p. simpl. lia.
Defined.

(* ================================================================== *)
(** * A row with an infinite score *)
(* ================================================================== *)

Lemma max_fold_pinf (l : list fp) :
  forall acc, acc = PInf \/ In PInf l -> fold_left Fp.max l acc = PInf.
Proof.
  induction l as [|x l IH]; intros acc H; simpl.
  - destruct H as [H|[]]; exact H.
  - apply IH. destruct H as [->|[->|H]].
    + left. now destruct x.
    + left. now destruct acc.
    + now right.
Qed.

Lemma sum_fold_nan (l : list fp) :
  forall acc, acc = NaN \/ In NaN l -> fold_left Fp.add l acc = NaN.
Proof.
  induction l as [|x l IH]; intros acc H; simpl.
  - destruct H as [H|[]]; exact H.
  - apply IH. destruct H as [->|[->|H]].
    + now left.
    + left. now destruct acc.
    + now right.
Qed.

Lemma div_nan_r (x : fp) : Fp.div x NaN = NaN.
Proof. now destruct x. Qed.

(** X20.  [softmax_kernel] on a row that holds +inf at a valid lane:
    the maximum is +inf, that lane's shifted score [inf - inf] is NaN,
    the sum is NaN, and the program stores NaN at every valid lane of
    the row.  ([TritonSoftmax.forward] clamps to [-100, 100] before the
    launch; the kernel by itself has no such guard.) *)
Theorem softmax_kernel_infinite_score (input out : buf)
    (irs ors n B pid k : nat) :
  n <= B -> k < n -> input (pid * irs + k) = PInf ->
  forall j, j < n ->
    softmax_kernel input irs ors n B pid out (pid * ors + j) = NaN.
Proof.
  intros HnB Hk Hinf j Hj.
  rewrite softmax_kernel_valid by assumption.
  unfold softmax_row_spec.
  set (row := row_of input (pid * irs) n).
  assert (Hin : In PInf row).
  { unfold row, row_of. apply in_map_iff. exists k.
    split; [exact Hinf | apply in_seq; lia]. }
  assert (Hm : tl.max row = PInf).
  { unfold tl.max. apply max_fold_pinf. now right. }
  rewrite Hm.
  assert (Hs : tl.sum (map (fun x => Fp.exp (Fp.sub x PInf)) row) = NaN).
  { unfold tl.sum. apply sum_fold_nan. right.
    apply in_map_iff. exists PInf. split; [reflexivity | exact Hin]. }
  rewrite Hs. cbn [Fp.add].
  rewrite ?map_map.
  rewrite (@nth_map_default _ _ _ row j NaN NaN)
    by (unfold row; now rewrite row_of_length).
  apply div_nan_r.
Qed.

Lemma softmax_kernel_infinite_score_witness :
  softmax_kernel (upd row123 1 PInf) 3 3 3 4 0 zero_buf (0 * 3 + 0) = NaN.
Proof.
  apply (@softmax_kernel_infinite_score (upd row123 1 PInf) zero_buf
           3 3 3 4 0 1); [lia | lia | reflexivity | lia].
Defined.

(* ================================================================== *)
(** * Validation bookkeeping of [train] *)
(* ================================================================== *)

Module TrainFacts.
Import Train.

Lemma lt_irrefl (x : fp) : torch.lt x x = false.
Proof.
  destruct x; simpl; try reflexivity.
  destruct (Rlt_dec r r); [lra | reflexivity].
Qed.

Lemma lt_trans (x y z : fp) :
  torch.lt x y = true -> torch.lt y z = true -> torch.lt x z = true.
Proof.
  destruct x, y, z; simpl; try congruence.
  destruct (Rlt_dec r r0), (Rlt_dec r0 r1), (Rlt_dec r r1);
    try congruence; lra.
Qed.

Lemma lt_left (x y : fp) :
  torch.lt x y = true -> x <> NaN /\ x <> PInf.
Proof. destruct x, y; simpl; split; congruence. Qed.

Lemma lt_pinf_false (x : fp) :
  torch.lt x PInf = false -> x = NaN \/ x = PInf.
Proof. destruct x; simpl; auto; discriminate. Qed.

Lemma enumerate_from_app (A : Type) (l l' : list A) :
  forall i,
    Vocab.enumerate_from i (l ++ l')
    = Vocab.enumerate_from i l ++ Vocab.enumerate_from (i + length l) l'.
Proof.
  induction l as [|a l IH]; intros i; simpl.
  - now rewrite Nat.add_0_r.
  - rewrite IH. do 3 f_equal. lia.
Qed.

Lemma epochs_snoc (losses : list fp) (v : fp) :
  epochs (losses ++ [v])
  = end_of_epoch (epochs losses) (length losses, v).
Proof.
  unfold epochs, Vocab.enumerate.
  now rewrite enumerate_from_app, fold_left_app.
Qed.

Lemma bookkeeping_step (losses : list fp) (st : state) (v : fp) :
  bookkeeping losses st ->
  bookkeeping (losses ++ [v]) (end_of_epoch st (length losses, v)).
Proof.
  intros (Hl & Hmin & Hck). unfold end_of_epoch. cbn [fst snd].
  destruct (torch.lt v (best_val_loss st)) eqn:E.
  - (* a new best: saved *)
    destruct (@lt_left _ _ E) as [Hnan Hinf].
    unfold bookkeeping. cbn [val_losses best_val_loss checkpoint].
    split; [now rewrite Hl|]. split.
    + intros u Hu. apply in_app_iff in Hu.
      destruct Hu as [Hu|[<-|[]]]; [|apply lt_irrefl].
      destruct (torch.lt u v) eqn:Euv; [|reflexivity].
      pose proof (Hmin u Hu) as Hm.
      rewrite (@lt_trans _ _ _ Euv E) in Hm. discriminate.
    + rewrite length_app. cbn [length].
      split; [lia|]. split.
      { now rewrite app_nth2, Nat.sub_diag by lia. }
      split; [exact Hnan|]. split; [exact Hinf|].
      intros i Hi Eq. rewrite app_nth1 in Eq by lia.
      pose proof (Hmin (nth i losses NaN) (nth_In _ _ Hi)) as Hm.
      rewrite Eq in Hm. congruence.
  - (* not better: nothing saved *)
    unfold bookkeeping. cbn [val_losses best_val_loss checkpoint].
    split; [now rewrite Hl|]. split.
    + intros u Hu. apply in_app_iff in Hu.
      destruct Hu as [Hu|[<-|[]]]; [now apply Hmin | exact E].
    + destruct (checkpoint st) as [e|].
      * destruct Hck as (He & Hn & Hnan & Hinf & Hfirst).
        rewrite length_app. cbn [length].
        split; [lia|]. split; [now rewrite app_nth1 by lia|].
        split; [exact Hnan|]. split; [exact Hinf|].
        intros i Hi. rewrite app_nth1 by lia. now apply Hfirst.
      * destruct Hck as (Hb & Hall). split; [exact Hb|].
        intros u Hu. apply in_app_iff in Hu.
        destruct Hu as [Hu|[<-|[]]]; [now apply Hall|].
        rewrite Hb in E. now apply lt_pinf_false.
Qed.

(** X21.  [train] over any sequence of per-epoch validation losses:
    the returned [val_losses] is that sequence in order; no loss of the
    run compares below the final [best_val_loss]; the checkpoint file,
    if one was written, holds the state of the first epoch whose loss
    equals [best_val_loss], and that loss is a number below +inf, never
    NaN; no checkpoint is written exactly when every epoch's loss was
    NaN or +inf. *)
Theorem checkpoint_is_first_best (losses : list fp) :
  let st := epochs losses in
  val_losses st = losses /\
  (forall v, In v losses -> torch.lt v (best_val_loss st) = false) /\
  match checkpoint st with
  | None =>
      best_val_loss st = PInf /\
      forall v, In v losses -> v = NaN \/ v = PInf
  | Some e =>
      e < length losses /\
      nth e losses NaN = best_val_loss st /\
      best_val_loss st <> NaN /\ best_val_loss st <> PInf /\
      forall i, i < e -> nth i losses NaN <> best_val_loss st
  end.
Proof.
  cbv zeta. change (bookkeeping losses (epochs losses)).
  induction losses as [|v losses IH] using rev_ind.
  - unfold bookkeeping, epochs. simpl.
    repeat split; intros ? [].
  - rewrite epochs_snoc. now apply bookkeeping_step.
Qed.
End TrainFacts.

(* ================================================================== *)
(** * The sampling loop and the context length *)
(* ================================================================== *)

Section SamplingLoopFacts.
Variables vocab_size seq_length num_heads : nat.
Variables junk scores : nat -> buf.
Variable next_token : nat -> list nat -> nat.
Hypothesis Hdraw : forall i ids, next_token i ids < vocab_size.

Local Abbreviation check :=
  (NanoGPT_forward_check vocab_size seq_length num_heads junk scores).
Local Abbreviation loop :=
  (sampling_loop vocab_size seq_length num_heads junk scores next_token).

Lemma attention_weights_ok (j a : buf) (H T : nat) :
  1 <= T -> exists y, attention_weights j 1 H T a = Ok y.
Proof.
  intros HT. unfold attention_weights. eexists.
  apply (@softmax_forward_view j
           (Tensor [1; H; T; T] (masked_fill_causal T a)) [1; H; T] T);
    [reflexivity | discriminate | exact HT].
Qed.

Lemma forallb_below (ids : list nat) :
  Forall (fun t => t < vocab_size) ids ->
  forallb (fun t => Nat.ltb t vocab_size) ids = true.
Proof.
  intros H. apply forallb_forall. intros t Ht.
  apply Nat.ltb_lt. rewrite Forall_forall in H. now apply H.
Qed.

Lemma check_passes (i : nat) (ids : list nat) :
  ids <> [] -> length ids <= seq_length ->
  Forall (fun t => t < vocab_size) ids ->
  check i ids = Ok tt.
Proof.
  intros Hne Hlen Hids. unfold NanoGPT_forward_check.
  destruct (Nat.leb_spec (length ids) seq_length); [|lia].
  rewrite (forallb_below Hids). cbn [negb].
  destruct (@attention_weights_ok (junk i) (scores i) num_heads
              (length ids)) as [y ->]; [|reflexivity].
  destruct ids; [congruence | simpl; lia].
Qed.

Lemma check_too_long (i : nat) (ids : list nat) :
  seq_length < length ids ->
  check i ids
  = Raise (AssertionError (seq_length_msg (length ids) seq_length)).
Proof.
  intros Hlen. unfold NanoGPT_forward_check.
  destruct (Nat.leb_spec (length ids) seq_length); [lia | reflexivity].
Qed.

Lemma check_empty (i : nat) : check i [] = Raise RuntimeError.
Proof.
  unfold NanoGPT_forward_check. cbn [length forallb negb Nat.leb].
  reflexivity.
Qed.

Lemma loop_completes (steps : nat) :
  forall (i : nat) (ids : list nat),
    ids <> [] -> Forall (fun t => t < vocab_size) ids ->
    steps = 0 \/ length ids + steps <= seq_length + 1 ->
    exists out,
      loop i steps ids = Ok out /\
      length out = length ids + steps /\
      firstn (length ids) out = ids /\
      Forall (fun t => t < vocab_size) out.
Proof.
  induction steps as [|steps IH]; intros i ids Hne Hids Hb.
  - exists ids. cbn [sampling_loop].
    now rewrite Nat.add_0_r, firstn_all.
  - destruct Hb as [Hb|Hb]; [discriminate|].
    cbn [sampling_loop]. rewrite check_passes by (assumption || lia).
    destruct (IH (S i) (ids ++ [next_token i ids]))
      as (out & Hout & Hlen & Hpre & Hall).
    + destruct ids; discriminate.
    + apply Forall_app. split; [exact Hids|].
      constructor; [apply Hdraw | constructor].
    + rewrite length_app. cbn [length].
      destruct steps; [now left | right; lia].
    + rewrite length_app in Hlen, Hpre. cbn [length] in Hlen, Hpre.
      exists out. split; [exact Hout|]. split; [lia|].
      split; [|exact Hall].
      assert (E : firstn (length ids) out
                  = firstn (length ids)
                      (firstn (length ids + 1) out)).
      { rewrite firstn_firstn. f_equal. lia. }
      rewrite E, Hpre, firstn_app, Nat.sub_diag, firstn_O, app_nil_r.
      apply firstn_all.
Qed.

Lemma loop_overruns (steps : nat) :
  forall (i : nat) (ids : list nat),
    ids <> [] -> Forall (fun t => t < vocab_size) ids ->
    1 <= steps -> seq_length + 1 < length ids + steps ->
    loop i steps ids
    = Raise (AssertionError
               (seq_length_msg (Nat.max (length ids) (seq_length + 1))
                  seq_length)).
Proof.
  induction steps as [|steps IH]; intros i ids Hne Hids Hs Hb; [lia|].
  cbn [sampling_loop].
  destruct (Nat.le_gt_cases (length ids) seq_length) as [Hle|Hgt].
  - rewrite check_passes by assumption.
    rewrite IH.
    + rewrite length_app. cbn [length]. do 3 f_equal. lia.
    + destruct ids; discriminate.
    + apply Forall_app. split; [exact Hids|].
      constructor; [apply Hdraw | constructor].
    + lia.
    + rewrite length_app. cbn [length]. lia.
  - rewrite check_too_long by lia. do 3 f_equal. lia.
Qed.
End SamplingLoopFacts.

(** X22.  The sampling loop never crops [input_ids], so the model is
    called on [len(prompt)], [len(prompt) + 1], ... tokens.  For a
    prompt and draws below [vocab_size]: on an empty prompt the first
    call raises [RuntimeError] (the attention scores have no column and
    [TritonSoftmax.forward] cannot view them); on a non-empty prompt
    all [steps] calls succeed exactly when
    [len(prompt) + steps <= seq_length + 1], and the loop ends with
    [len(prompt) + steps] tokens below [vocab_size], the prompt first;
    otherwise the first call on more than [seq_length] tokens raises
    the assertion of [NanoGPT.forward], with that length in its
    message. *)
Theorem sampling_loop_context_bound (vocab_size seq_length num_heads : nat)
    (junk scores : nat -> buf) (next_token : nat -> list nat -> nat)
    (i steps : nat) (input_ids : list nat) :
  (forall i ids, next_token i ids < vocab_size) ->
  Forall (fun t => t < vocab_size) input_ids ->
  1 <= steps ->
  let run :=
    sampling_loop vocab_size seq_length num_heads junk scores
      next_token i steps input_ids in
  (input_ids = [] -> run = Raise RuntimeError) /\
  (input_ids <> [] -> length input_ids + steps <= seq_length + 1 ->
   exists out,
     run = Ok out /\
     length out = length input_ids + steps /\
     firstn (length input_ids) out = input_ids /\
     Forall (fun t => t < vocab_size) out) /\
  (input_ids <> [] -> seq_length + 1 < length input_ids + steps ->
   run = Raise (AssertionError
                  (seq_length_msg
                     (Nat.max (length input_ids) (seq_length + 1))
                     seq_length))).
Proof.
  intros Hdraw Hids Hsteps run. unfold run. split; [|split].
  - intros ->. destruct steps as [|steps]; [lia|].
    cbn [sampling_loop]. now rewrite check_empty.
  - intros Hne Hb. apply loop_completes; auto.
  - intros Hne Hb. now apply loop_overruns.
Qed.

(** The script's run: a prompt of 9 tokens, 240 steps, context 256. *)
Lemma sampling_loop_context_bound_witness :
  exists out,
    sampling_loop 65 256 6 (fun _ => zero_buf) (fun _ => zero_buf)
      (fun _ _ => 0) 0 240 (repeat 0 9) = Ok out /\
    length out = 249.
Proof.
  destruct (proj1 (proj2
    (@sampling_loop_context_bound 65 256 6 (fun _ => zero_buf)
       (fun _ => zero_buf) (fun _ _ => 0) 0 240 (repeat 0 9)
       ltac:(intros; cbv beta; lia)
       ltac:(apply Forall_forall; intros t Ht;
             apply repeat_spec in Ht; subst t; lia)
       ltac:(lia))))
    as (out & Hout & Hlen & _).
  - discriminate.
  - simpl. lia.
  - exists out. split; [exact Hout | exact Hlen].
Defined.
